(** * The post store of the gRPC blog server (main.go)

    A shallow embedding of [loadPost], [savePosts], [server.GetPosts] and
    [server.CreatePost], together with the parts of the Go runtime they
    call: [os.ReadFile] / [os.WriteFile] on the file [posts.json],
    [time.Now().Format("2006-01-02")], [status.Errorf], and
    [json.MarshalIndent] / [json.Unmarshal] at the type [[]*pb.Post];
    and of the two handlers serving a sequence of requests.

    Go strings are byte sequences: they are modelled by [string], whose
    characters ([ascii]) are the 256 byte values. *)

From Stdlib Require Import ZArith NArith List String Ascii Bool Lia.
From Stdlib Require Import Decimal DecimalString DecimalPos DecimalN DecimalZ.
Import ListNotations.

Local Open Scope string_scope.
#[local] Set Warnings "-register-all".

(** ** Byte strings *)

Module Bytes.

Definition byte_val (c : ascii) : N := N_of_ascii c.

Fixpoint drop (n : nat) (s : string) : string :=
  match n, s with
  | O, _ => s
  | S n', String _ r => drop n' r
  | S _, EmptyString => EmptyString
  end.

Fixpoint take (n : nat) (s : string) : string :=
  match n, s with
  | O, _ => EmptyString
  | S n', String c r => String c (take n' r)
  | S _, EmptyString => EmptyString
  end.

Fixpoint repeat (s : string) (n : nat) : string :=
  match n with
  | O => EmptyString
  | S n' => s ++ repeat s n'
  end.

End Bytes.

(** ** unicode/utf8 *)

Module Utf8.
Import Bytes.
Local Open Scope N_scope.

Definition RuneError : N := 0xFFFD.
Definition RuneSelf : N := 0x80.
Definition MaxRune : N := 0x10FFFF.
Definition surrogateMin : N := 0xD800.
Definition surrogateMax : N := 0xDFFF.

Definition maskx : N := 0x3F.
Definition mask2 : N := 0x1F.
Definition mask3 : N := 0x0F.
Definition mask4 : N := 0x07.
Definition locb : N := 0x80.
Definition hicb : N := 0xBF.

(** The table [first] of utf8.go together with [acceptRanges]: for a
    leading byte, the length of the sequence and the range allowed for
    the second byte; [None] is the entry [xx] (not a leading byte). *)
Definition first (s0 : N) : option (nat * N * N) :=
  if s0 <? 0xC2 then None
  else if s0 <=? 0xDF then Some (2%nat, locb, hicb)
  else if s0 =? 0xE0 then Some (3%nat, 0xA0, hicb)
  else if s0 <=? 0xEC then Some (3%nat, locb, hicb)
  else if s0 =? 0xED then Some (3%nat, locb, 0x9F)
  else if s0 <=? 0xEF then Some (3%nat, locb, hicb)
  else if s0 =? 0xF0 then Some (4%nat, 0x90, hicb)
  else if s0 <=? 0xF3 then Some (4%nat, locb, hicb)
  else if s0 =? 0xF4 then Some (4%nat, locb, 0x8F)
  else None.

(** utf8.DecodeRuneInString: the rune at the head of [s] and its width
    in bytes; [(RuneError, 0)] on the empty string and [(RuneError, 1)]
    on an encoding error. *)
Definition DecodeRuneInString (s : string) : N * nat :=
  match s with
  | EmptyString => (RuneError, 0%nat)
  | String c0 r0 =>
    let s0 := byte_val c0 in
    if s0 <? RuneSelf then (s0, 1%nat)
    else
      match first s0 with
      | None => (RuneError, 1%nat)
      | Some (sz, lo, hi) =>
        match r0 with
        | EmptyString => (RuneError, 1%nat)
        | String c1 r1 =>
          let s1 := byte_val c1 in
          if (s1 <? lo) || (hi <? s1) then (RuneError, 1%nat)
          else if (sz <=? 2)%nat then
            (N.lor (N.shiftl (N.land s0 mask2) 6) (N.land s1 maskx), 2%nat)
          else
            match r1 with
            | EmptyString => (RuneError, 1%nat)
            | String c2 r2 =>
              let s2 := byte_val c2 in
              if (s2 <? locb) || (hicb <? s2) then (RuneError, 1%nat)
              else if (sz <=? 3)%nat then
                (N.lor (N.lor (N.shiftl (N.land s0 mask3) 12)
                              (N.shiftl (N.land s1 maskx) 6))
                       (N.land s2 maskx), 3%nat)
              else
                match r2 with
                | EmptyString => (RuneError, 1%nat)
                | String c3 _ =>
                  let s3 := byte_val c3 in
                  if (s3 <? locb) || (hicb <? s3) then (RuneError, 1%nat)
                  else
                    (N.lor (N.lor (N.lor (N.shiftl (N.land s0 mask4) 18)
                                         (N.shiftl (N.land s1 maskx) 12))
                                  (N.shiftl (N.land s2 maskx) 6))
                           (N.land s3 maskx), 4%nat)
                end
            end
        end
      end
  end.

Definition byte_of (n : N) : ascii := ascii_of_N (n mod 256).

Definition encode3 (r : N) : string :=
  String (byte_of (N.lor 0xE0 (N.shiftr r 12)))
    (String (byte_of (N.lor 0x80 (N.land (N.shiftr r 6) maskx)))
      (String (byte_of (N.lor 0x80 (N.land r maskx))) EmptyString)).

(** utf8.EncodeRune / utf8.AppendRune: the UTF-8 encoding of [r];
    surrogates and values above [MaxRune] encode as [RuneError]. *)
Definition EncodeRune (r : N) : string :=
  if r <=? 0x7F then String (byte_of r) EmptyString
  else if r <=? 0x7FF then
    String (byte_of (N.lor 0xC0 (N.shiftr r 6)))
      (String (byte_of (N.lor 0x80 (N.land r maskx))) EmptyString)
  else if (MaxRune <? r) || ((surrogateMin <=? r) && (r <=? surrogateMax))
  then encode3 RuneError
  else if r <=? 0xFFFF then encode3 r
  else
    String (byte_of (N.lor 0xF0 (N.shiftr r 18)))
      (String (byte_of (N.lor 0x80 (N.land (N.shiftr r 12) maskx)))
        (String (byte_of (N.lor 0x80 (N.land (N.shiftr r 6) maskx)))
          (String (byte_of (N.lor 0x80 (N.land r maskx))) EmptyString))).

(** utf8.ValidString, by the same decoding steps. *)
Fixpoint valid_loop (fuel : nat) (s : string) : bool :=
  match fuel with
  | O => match s with EmptyString => true | _ => false end
  | S f =>
    match s with
    | EmptyString => true
    | String c r =>
      if byte_val c <? RuneSelf then valid_loop f r
      else
        let '(_, size) := DecodeRuneInString s in
        if (size =? 1)%nat then false else valid_loop f (drop size s)
    end
  end.

Definition ValidString (s : string) : bool := valid_loop (String.length s) s.

End Utf8.

(** ** strconv *)

Module Strconv.
Local Open Scope Z_scope.

Definition minInt64 : Z := - 2 ^ 63.
Definition maxInt64 : Z := 2 ^ 63 - 1.

Definition in_int64 (z : Z) : bool := (minInt64 <=? z) && (z <=? maxInt64).

(** strconv.FormatInt(z, 10) / strconv.AppendInt. *)
Definition FormatInt (z : Z) : string :=
  DecimalString.NilZero.string_of_int (Z.to_int z).

(** strconv.ParseInt(s, 10, 64): an optional sign followed by one or
    more decimal digits, in the range of int64; [None] stands for the
    syntax and range errors. *)
Definition ParseInt (s : string) : option Z :=
  let '(neg, digits) :=
    match s with
    | String c r =>
      if (c =? "-")%char then (true, r)
      else if (c =? "+")%char then (false, r)
      else (false, s)
    | EmptyString => (false, s)
    end in
  match DecimalString.NilZero.uint_of_string digits with
  | None => None
  | Some d =>
    let v := if neg then - Z.of_uint d else Z.of_uint d in
    if in_int64 v then Some v else None
  end.

(** appendInt of package time: sign, then the magnitude padded with
    zeros to [width] digits. *)
Definition appendInt (x : Z) (width : nat) : string :=
  let digits := FormatInt (Z.abs x) in
  let sign := if x <? 0 then "-"%string else ""%string in
  (sign ++ Bytes.repeat "0" (width - String.length digits) ++ digits)%string.

End Strconv.

(** ** encoding/json, as far as [[]*pb.Post] exercises it *)

Module Json.
Import Bytes Utf8.

(** A JSON text, parsed.  Strings are held unquoted, numbers as their
    literal. *)
Inductive jvalue : Type :=
| JNull
| JTrue
| JFalse
| JNumber (lit : string)
| JString (s : string)
| JArray (elems : list jvalue)
| JObject (members : list (string * jvalue)).

Definition dquote : ascii := "034".
Definition backslash : ascii := "092".
Definition LF : ascii := "010".

(** *** Encoding: encode.go, indent.go *)

Definition hex : string := "0123456789abcdef".

Definition hex_digit (n : N) : ascii :=
  match String.get (N.to_nat n) hex with
  | Some c => c
  | None => "0"
  end.

(** [htmlSafeSet] of tables.go: the ASCII bytes that [appendString]
    copies unescaped when HTML escaping is on, as it is in Marshal. *)
Definition htmlSafeSet (b : N) : bool :=
  ((0x20 <=? b) && (b <? 0x80) &&
   negb ((b =? 0x22) || (b =? 0x26) || (b =? 0x3C) || (b =? 0x3E) || (b =? 0x5C)))%N.

(** The [switch b] of [appendString], for an ASCII byte outside
    [htmlSafeSet] (as of Go 1.22; earlier releases write backspace and
    form feed as [\u0008] and [\u000c], which read back alike). *)
Definition escape_ascii (c : ascii) : string :=
  let b := byte_val c in
  if ((b =? 0x5C) || (b =? 0x22))%N then String backslash (String c "")
  else if (b =? 0x08)%N then "\b"
  else if (b =? 0x0C)%N then "\f"
  else if (b =? 0x0A)%N then "\n"
  else if (b =? 0x0D)%N then "\r"
  else if (b =? 0x09)%N then "\t"
  else "\u00" ++ String (hex_digit (N.shiftr b 4))
                   (String (hex_digit (N.land b 0xF)) "").

(** The loop of [appendString]: [src] is what remains from index [i];
    one unit of [fuel] per iteration. *)
Fixpoint appendString_loop (fuel : nat) (src : string) : string :=
  match fuel with
  | O => ""
  | S f =>
    match src with
    | EmptyString => ""
    | String c r =>
      let b := byte_val c in
      if (b <? RuneSelf)%N then
        if htmlSafeSet b then String c (appendString_loop f r)
        else escape_ascii c ++ appendString_loop f r
      else
        let '(rn, size) := DecodeRuneInString src in
        if (rn =? RuneError)%N && (size =? 1)%nat then
          "\ufffd" ++ appendString_loop f r
        else if ((rn =? 0x2028) || (rn =? 0x2029))%N then
          "\u202" ++ String (hex_digit (N.land rn 0xF))
                       (appendString_loop f (drop size src))
        else take size src ++ appendString_loop f (drop size src)
    end
  end.

(** [appendString(dst, src, escapeHTML = true)]: the JSON string
    literal of a Go string. *)
Definition appendString (src : string) : string :=
  String dquote (appendString_loop (String.length src) src ++ String dquote "").

(** [newline] of indent.go with prefix [""] and indent two spaces. *)
Definition newline (depth : nat) : string := String LF (repeat "  " depth).

(** The text [MarshalIndent(v, "", "  ")] writes for a value tree:
    members and elements one per line, empty containers closed at
    once, a space after each colon. *)
Fixpoint render (depth : nat) (v : jvalue) : string :=
  match v with
  | JNull => "null"
  | JTrue => "true"
  | JFalse => "false"
  | JNumber lit => lit
  | JString s => appendString s
  | JArray elems =>
    match elems with
    | [] => "[]"
    | _ =>
      "[" ++ newline (S depth) ++
      String.concat ("," ++ newline (S depth)) (map (render (S depth)) elems) ++
      newline depth ++ "]"
    end
  | JObject members =>
    match members with
    | [] => "{}"
    | _ =>
      "{" ++ newline (S depth) ++
      String.concat ("," ++ newline (S depth))
        (map (fun kv => appendString (fst kv) ++ ": " ++ render (S depth) (snd kv))
             members) ++
      newline depth ++ "}"
    end
  end.

(** *** Decoding: scanner.go, decode.go *)

Definition isSpace (c : ascii) : bool :=
  ((c =? " ") || (c =? "009") || (c =? "013") || (c =? "010"))%char.

Fixpoint skip_ws (s : string) : string :=
  match s with
  | String c r => if isSpace c then skip_ws r else s
  | EmptyString => EmptyString
  end.

Definition is_digit (c : ascii) : bool :=
  ((48 <=? byte_val c) && (byte_val c <=? 57))%N.

Definition hexval (c : ascii) : option N :=
  let b := byte_val c in
  (if (48 <=? b) && (b <=? 57) then Some (b - 48)
   else if (97 <=? b) && (b <=? 102) then Some (b - 97 + 10)
   else if (65 <=? b) && (b <=? 70) then Some (b - 65 + 10)
   else None)%N.

(** [getu4]: the value of the escape [\uXXXX] at the head of [s], if
    there is one. *)
Definition getu4 (s : string) : option N :=
  match s with
  | String b0 (String b1 (String h1 (String h2 (String h3 (String h4 _))))) =>
    if ((b0 =? backslash) && (b1 =? "u"))%char then
      match hexval h1, hexval h2, hexval h3, hexval h4 with
      | Some a, Some b, Some c, Some d => Some (((a * 16 + b) * 16 + c) * 16 + d)%N
      | _, _, _, _ => None
      end
    else None
  | _ => None
  end.

(** utf16.IsSurrogate and utf16.DecodeRune. *)
Definition IsSurrogate (r : N) : bool := ((0xD800 <=? r) && (r <? 0xE000))%N.

Definition utf16_DecodeRune (r1 r2 : N) : N :=
  (if (0xD800 <=? r1) && (r1 <? 0xDC00) && (0xDC00 <=? r2) && (r2 <? 0xE000)
   then N.lor (N.shiftl (r1 - 0xD800) 10) (r2 - 0xDC00) + 0x10000
   else RuneError)%N.

(** The single-character escapes the scanner accepts after a backslash. *)
Definition unescape (e : ascii) : option ascii :=
  (if (e =? dquote) || (e =? backslash) || (e =? "/") then Some e
   else if e =? "b" then Some "008"
   else if e =? "f" then Some "012"
   else if e =? "n" then Some "010"
   else if e =? "r" then Some "013"
   else if e =? "t" then Some "009"
   else None)%char.

Definition prepend (pre : string) (res : option (string * string))
  : option (string * string) :=
  match res with
  | Some (s, rest) => Some (pre ++ s, rest)
  | None => None
  end.

(** A string literal, from just after its opening quote: the scanner's
    check ([stateInString] and the escape states) together with
    [unquoteBytes].  Returns the unquoted bytes and the input after the
    closing quote.  One unit of [fuel] per iteration. *)
Fixpoint scan_string_loop (fuel : nat) (s : string) : option (string * string) :=
  match fuel with
  | O => None
  | S f =>
    match s with
    | EmptyString => None
    | String c r =>
      let b := byte_val c in
      if (b =? 0x22)%N then Some ("", r)
      else if (b =? 0x5C)%N then
        match r with
        | EmptyString => None
        | String e r1 =>
          if (e =? "u")%char then
            match getu4 s with
            | None => None
            | Some rr =>
              let s6 := drop 6 s in
              if IsSurrogate rr then
                let dec :=
                  match getu4 s6 with
                  | Some rr1 => utf16_DecodeRune rr rr1
                  | None => RuneError
                  end in
                if negb (dec =? RuneError)%N
                then prepend (EncodeRune dec) (scan_string_loop f (drop 6 s6))
                else prepend (EncodeRune RuneError) (scan_string_loop f s6)
              else prepend (EncodeRune rr) (scan_string_loop f s6)
            end
          else
            match unescape e with
            | Some ch => prepend (String ch "") (scan_string_loop f r1)
            | None => None
            end
        end
      else if (b <? 0x20)%N then None
      else if (b <? RuneSelf)%N then prepend (String c "") (scan_string_loop f r)
      else
        let '(rr, size) := DecodeRuneInString s in
        prepend (EncodeRune rr) (scan_string_loop f (drop size s))
    end
  end.

Definition scan_string (s : string) : option (string * string) :=
  scan_string_loop (String.length s) s.

Fixpoint span_digits (s : string) : string * string :=
  match s with
  | String c r =>
    if is_digit c then let '(d, rest) := span_digits r in (String c d, rest)
    else ("", s)
  | EmptyString => ("", "")
  end.

Definition scan_exp (lit s : string) : option (string * string) :=
  match s with
  | String e r =>
    if ((e =? "e") || (e =? "E"))%char then
      let '(sg, r1) :=
        match r with
        | String g r' =>
          if ((g =? "+") || (g =? "-"))%char then (String g "", r') else ("", r)
        | EmptyString => ("", r)
        end in
      let '(ds, r2) := span_digits r1 in
      match ds with
      | EmptyString => None
      | _ => Some (lit ++ String e sg ++ ds, r2)
      end
    else Some (lit, s)
  | EmptyString => Some (lit, s)
  end.

Definition scan_frac (lit s : string) : option (string * string) :=
  match s with
  | String c r =>
    if (c =? ".")%char then
      let '(ds, r1) := span_digits r in
      match ds with
      | EmptyString => None
      | _ => scan_exp (lit ++ String c ds) r1
      end
    else scan_exp lit s
  | EmptyString => Some (lit, s)
  end.

(** A number literal (the scanner's states [stateNeg] to [stateE0]):
    its text and the input after it. *)
Definition scan_number (s : string) : option (string * string) :=
  let '(sign, s1) :=
    match s with
    | String c r => if (c =? "-")%char then ("-", r) else ("", s)
    | EmptyString => ("", s)
    end in
  match s1 with
  | String c r =>
    if (c =? "0")%char then scan_frac (sign ++ "0") r
    else if is_digit c then
      let '(ds, r1) := span_digits r in scan_frac (sign ++ String c ds) r1
    else None
  | EmptyString => None
  end.

Definition maxNestingDepth : N := 10000.

(** The rest of [s] after the literal [p], when [s] starts with it. *)
Fixpoint strip_prefix (p s : string) : option string :=
  match p with
  | EmptyString => Some s
  | String a p' =>
    match s with
    | String b s' => if (a =? b)%char then strip_prefix p' s' else None
    | EmptyString => None
    end
  end.

(** One JSON value at the head of [s], after optional white space.
    [depth] counts the enclosing arrays and objects. *)
Fixpoint parse_value (fuel : nat) (depth : N) (s : string) {struct fuel}
  : option (jvalue * string) :=
  match fuel with
  | O => None
  | S f =>
    match skip_ws s with
    | EmptyString => None
    | String c r =>
      if (c =? "{")%char then
        if (maxNestingDepth <? N.succ depth)%N then None
        else
          match skip_ws r with
          | String c' r' =>
            if (c' =? "}")%char then Some (JObject [], r')
            else
              match parse_members f (N.succ depth) (String c' r') with
              | Some (ms, rest) => Some (JObject ms, rest)
              | None => None
              end
          | EmptyString => None
          end
      else if (c =? "[")%char then
        if (maxNestingDepth <? N.succ depth)%N then None
        else
          match skip_ws r with
          | String c' r' =>
            if (c' =? "]")%char then Some (JArray [], r')
            else
              match parse_elems f (N.succ depth) (String c' r') with
              | Some (vs, rest) => Some (JArray vs, rest)
              | None => None
              end
          | EmptyString => None
          end
      else if (c =? dquote)%char then
        match scan_string r with
        | Some (str, rest) => Some (JString str, rest)
        | None => None
        end
      else if ((c =? "-")%char || is_digit c) then
        match scan_number (String c r) with
        | Some (lit, rest) => Some (JNumber lit, rest)
        | None => None
        end
      else if (c =? "t")%char then
        option_map (fun rest => (JTrue, rest)) (strip_prefix "true" (String c r))
      else if (c =? "f")%char then
        option_map (fun rest => (JFalse, rest)) (strip_prefix "false" (String c r))
      else if (c =? "n")%char then
        option_map (fun rest => (JNull, rest)) (strip_prefix "null" (String c r))
      else None
    end
  end

(** The elements of an array, from its first value to the closing
    bracket. *)
with parse_elems (fuel : nat) (depth : N) (s : string) {struct fuel}
  : option (list jvalue * string) :=
  match fuel with
  | O => None
  | S f =>
    match parse_value f depth s with
    | None => None
    | Some (v, r) =>
      match skip_ws r with
      | String c r' =>
        if (c =? ",")%char then
          match parse_elems f depth r' with
          | Some (vs, rest) => Some (v :: vs, rest)
          | None => None
          end
        else if (c =? "]")%char then Some ([v], r')
        else None
      | EmptyString => None
      end
    end
  end

(** The members of an object, from its first key to the closing
    brace. *)
with parse_members (fuel : nat) (depth : N) (s : string) {struct fuel}
  : option (list (string * jvalue) * string) :=
  match fuel with
  | O => None
  | S f =>
    match skip_ws s with
    | String q r0 =>
      if (q =? dquote)%char then
        match scan_string r0 with
        | None => None
        | Some (key, r1) =>
          match skip_ws r1 with
          | String c1 r2 =>
            if (c1 =? ":")%char then
              match parse_value f depth r2 with
              | None => None
              | Some (v, r3) =>
                match skip_ws r3 with
                | String c r' =>
                  if (c =? ",")%char then
                    match parse_members f depth r' with
                    | Some (ms, rest) => Some ((key, v) :: ms, rest)
                    | None => None
                    end
                  else if (c =? "}")%char then Some ([(key, v)], r')
                  else None
                | EmptyString => None
                end
              end
            else None
          | EmptyString => None
          end
        end
      else None
    | EmptyString => None
    end
  end.

(** [checkValid] followed by a reading of the whole text: the value of
    a syntactically valid JSON text, [None] for a SyntaxError. *)
Definition parse_json (data : string) : option jvalue :=
  match parse_value (2 * String.length data + 2) 0 data with
  | Some (v, rest) =>
    match skip_ws rest with
    | EmptyString => Some v
    | _ => None
    end
  | None => None
  end.

End Json.

(** ** The messages of blog.proto (package pb) *)

Module Pb.

(** Modelled from the spec: the Go struct [pb.Post] of package gen, which
    protoc-gen-go derives from message Post of blog.proto and which is
    not among the sources.  It has the six fields of the message in
    their order, each tagged [json:"<name>,omitempty"] (the tag main.go
    quotes for message Posts); its unexported bookkeeping fields are
    invisible to encoding/json. *)
Record Post : Type := mkPost {
  Title : string;
  Content : string;
  CreatedAt : string;
  Author : string;
  ViewCount : Z;
  LastViewed : string
}.

(** A Go slice [[]*Post]: [None] is the nil slice; an element [None] is
    a nil pointer. *)
Definition PostSlice : Type := option (list (option Post)).

(** Modelled from the spec: the Go struct [pb.Posts] of package gen,
    for message Posts of blog.proto. *)
Record Posts : Type := mkPosts { Posts_ : PostSlice }.

(** Modelled from the spec: the Go struct [pb.CreatePostRequest] of
    package gen, for message CreatePostRequest of blog.proto. *)
Record CreatePostRequest : Type := mkCreatePostRequest {
  req_Title : string;
  req_Content : string;
  req_CreatedAt : string;
  req_Author : string
}.

(** Modelled from the spec: the getters protoc-gen-go generates, which
    answer the zero value on a nil receiver. *)
Definition GetTitle (req : option CreatePostRequest) : string :=
  match req with Some r => req_Title r | None => "" end.
Definition GetContent (req : option CreatePostRequest) : string :=
  match req with Some r => req_Content r | None => "" end.
Definition GetAuthor (req : option CreatePostRequest) : string :=
  match req with Some r => req_Author r | None => "" end.

Definition elems (sl : PostSlice) : list (option Post) :=
  match sl with Some l => l | None => [] end.

(** len and append of Go, on [[]*Post]. *)
Definition len (sl : PostSlice) : nat := List.length (elems sl).
Definition append (sl : PostSlice) (p : option Post) : PostSlice :=
  Some (elems sl ++ [p])%list.

Definition set_ViewCount (n : Z) (p : Post) : Post :=
  mkPost (Title p) (Content p) (CreatedAt p) (Author p) n (LastViewed p).
Definition set_LastViewed (d : string) (p : Post) : Post :=
  mkPost (Title p) (Content p) (CreatedAt p) (Author p) (ViewCount p) d.

End Pb.

(** ** encoding/json at the type [[]*pb.Post] *)

Module JsonPosts.
Import Bytes Json Pb.

Inductive field : Type :=
| FTitle | FContent | FCreatedAt | FAuthor | FViewCount | FLastViewed.

Definition field_name (f : field) : string :=
  match f with
  | FTitle => "Title"
  | FContent => "Content"
  | FCreatedAt => "CreatedAt"
  | FAuthor => "Author"
  | FViewCount => "ViewCount"
  | FLastViewed => "LastViewed"
  end.

Definition fields : list field :=
  [FTitle; FContent; FCreatedAt; FAuthor; FViewCount; FLastViewed].

(** *** Marshal *)

Definition string_member (name value : string) : list (string * jvalue) :=
  if (value =? "")%string then [] else [(name, JString value)].

Definition int_member (name : string) (value : Z) : list (string * jvalue) :=
  if (value =? 0)%Z then [] else [(name, JNumber (Strconv.FormatInt value))].

(** The struct encoder: the fields in declaration order, empty ones
    omitted. *)
Definition encode_post (p : Post) : jvalue :=
  JObject (string_member "Title" (Title p) ++
           string_member "Content" (Content p) ++
           string_member "CreatedAt" (CreatedAt p) ++
           string_member "Author" (Author p) ++
           int_member "ViewCount" (ViewCount p) ++
           string_member "LastViewed" (LastViewed p))%list.

(** The pointer encoder: a nil pointer is [null]. *)
Definition encode_elem (e : option Post) : jvalue :=
  match e with
  | Some p => encode_post p
  | None => JNull
  end.

(** The slice encoder: a nil slice is [null]. *)
Definition encode_slice (sl : PostSlice) : jvalue :=
  match sl with
  | Some l => JArray (map encode_elem l)
  | None => JNull
  end.

(** [json.MarshalIndent(posts, "", "  ")]; it cannot fail at this type. *)
Definition MarshalIndent (sl : PostSlice) : string := render 0 (encode_slice sl).

(** *** Unmarshal *)

(** [foldName]: keys match field names up to case folding.  [foldRune]
    sends a rune to the least rune of its folding orbit; the only
    non-ASCII runes that land on an ASCII character are U+017F and
    U+212A, and other non-ASCII bytes are kept here as they are, which
    leaves every comparison with an ASCII field name unchanged. *)
Fixpoint foldName (s : string) : string :=
  match s with
  | EmptyString => EmptyString
  | String c r =>
    let b := byte_val c in
    if ((97 <=? b) && (b <=? 122))%N then
      String (ascii_of_N (b - 32)) (foldName r)
    else
      match r with
      | String c1 r1 =>
        if ((b =? 0xC5) && (byte_val c1 =? 0xBF))%N then String "S" (foldName r1)
        else
          match r1 with
          | String c2 r2 =>
            if ((b =? 0xE2) && (byte_val c1 =? 0x84) && (byte_val c2 =? 0xAA))%N
            then String "K" (foldName r2)
            else String c (foldName r)
          | EmptyString => String c (foldName r)
          end
      | EmptyString => String c EmptyString
      end
  end.

Definition find_field (key : string) : option field :=
  find (fun f => (foldName (field_name f) =? foldName key)%string) fields.

(** [literalStore] / [object] / [array] at one field: [null] leaves
    the field as it is, a value of the field's type is stored, any other
    value is an UnmarshalTypeError ([None]). *)
Definition set_field (f : field) (v : jvalue) (p : Post) : option Post :=
  match f with
  | FViewCount =>
    match v with
    | JNull => Some p
    | JNumber lit =>
      match Strconv.ParseInt lit with
      | Some n => Some (set_ViewCount n p)
      | None => None
      end
    | _ => None
    end
  | _ =>
    match v with
    | JNull => Some p
    | JString s =>
      Some match f with
           | FTitle => mkPost s (Content p) (CreatedAt p) (Author p) (ViewCount p) (LastViewed p)
           | FContent => mkPost (Title p) s (CreatedAt p) (Author p) (ViewCount p) (LastViewed p)
           | FCreatedAt => mkPost (Title p) (Content p) s (Author p) (ViewCount p) (LastViewed p)
           | FAuthor => mkPost (Title p) (Content p) (CreatedAt p) s (ViewCount p) (LastViewed p)
           | _ => set_LastViewed s p
           end
    | _ => None
    end
  end.

(** An object read into a struct: members in order, unknown keys
    skipped, later duplicates overriding earlier ones. *)
Fixpoint decode_object (ms : list (string * jvalue)) (p : Post) : option Post :=
  match ms with
  | [] => Some p
  | (key, v) :: ms' =>
    match find_field key with
    | None => decode_object ms' p
    | Some f =>
      match set_field f v p with
      | Some p' => decode_object ms' p'
      | None => None
      end
    end
  end.

Definition zero_post : Post := mkPost "" "" "" "" 0 "".

(** A value read into a [*Post]: [null] is the nil pointer, an object a
    fresh Post. *)
Definition decode_elem (v : jvalue) : option (option Post) :=
  match v with
  | JNull => Some None
  | JObject ms => option_map Some (decode_object ms zero_post)
  | _ => None
  end.

Fixpoint decode_elems (vs : list jvalue) : option (list (option Post)) :=
  match vs with
  | [] => Some []
  | v :: vs' =>
    match decode_elem v, decode_elems vs' with
    | Some e, Some es => Some (e :: es)
    | _, _ => None
    end
  end.

(** A value read into a nil [[]*Post]: [null] leaves the nil slice, an
    array gives a slice of its length (non-nil even when empty). *)
Definition decode_slice (v : jvalue) : option PostSlice :=
  match v with
  | JNull => Some None
  | JArray vs => option_map Some (decode_elems vs)
  | _ => None
  end.

Inductive DecodeError : Type := SyntaxError | UnmarshalTypeError.

(** [json.Unmarshal(data, &postsSlice)] with [postsSlice] nil. *)
Definition Unmarshal (data : string) : DecodeError + PostSlice :=
  match parse_json data with
  | None => inl SyntaxError
  | Some v =>
    match decode_slice v with
    | None => inl UnmarshalTypeError
    | Some sl => inr sl
    end
  end.

End JsonPosts.

(** ** package time *)

Module Time.

(** The calendar date of a [time.Time] in the local zone: all that the
    layout "2006-01-02" prints. *)
Record t : Type := mkTime { Year : Z; Month : Z; Day : Z }.

(** [t.Format("2006-01-02")]. *)
Definition Format (x : t) : string :=
  Strconv.appendInt (Year x) 4 ++ "-" ++
  Strconv.appendInt (Month x) 2 ++ "-" ++
  Strconv.appendInt (Day x) 2.

End Time.

(** ** Errors: package os, encoding/json, grpc status *)

Module Errors.

Inductive Errno : Type := ENOENT | EACCES | EISDIR | EIO | ENOSPC.

Inductive Code : Type := Internal | Unimplemented.

(** The Go [error] values that reach the server.  [StatusError c fmt e]
    is [status.Errorf(c, fmt, e)]: the status carries code [c] and the
    message [Sprintf(fmt, e)], kept here as the format and its
    argument. *)
Inductive error : Type :=
| PathError (op path : string) (err : Errno)
| JsonError (e : JsonPosts.DecodeError)
| StatusError (c : Code) (format : string) (arg : error).

Definition Errorf (c : Code) (format : string) (arg : error) : error :=
  StatusError c format arg.

End Errors.

(** ** The process and its environment *)

Module Runtime.
Import Errors.

Inductive ReadFault : Type :=
| ROpen (e : Errno)                      (* open(2) fails *)
| RRead (e : Errno).                     (* read(2) fails *)

Inductive WriteFault : Type :=
| WOpen (e : Errno)                      (* open(2) fails: file untouched *)
| WWrite (e : Errno) (written : nat).    (* truncated, then a short write *)

(** What the outside world decides: the date at each reading of the
    clock, and which file operations fail. *)
Record Env : Type := mkEnv {
  clock : nat -> Time.t;
  read_fault : nat -> option ReadFault;
  write_fault : nat -> option WriteFault
}.

(** The file [posts.json] ([None]: it does not exist) and the number of
    clock readings, reads and writes made so far. *)
Record State : Type := mkState {
  file : option string;
  ticks : nat;
  reads : nat;
  writes : nat
}.

(** What a Go function returning a pointer and an error does: return
    the pair, or panic. *)
Inductive outcome (A : Type) : Type :=
| Returns (res : option A) (err : option error)
| Panics (msg : string).
Arguments Returns {A} res err.
Arguments Panics {A} msg.

Section Calls.
Variable env : Env.

(** [time.Now()]. *)
Definition Now (st : State) : State * Time.t :=
  (mkState (file st) (S (ticks st)) (reads st) (writes st),
   clock env (ticks st)).

(** [os.ReadFile(name)], [name] being posts.json. *)
Definition ReadFile (st : State) (name : string)
  : State * string * option error :=
  let st' := mkState (file st) (ticks st) (S (reads st)) (writes st) in
  match read_fault env (reads st) with
  | Some (ROpen e) => (st', "", Some (PathError "open" name e))
  | Some (RRead e) => (st', "", Some (PathError "read" name e))
  | None =>
    match file st with
    | None => (st', "", Some (PathError "open" name ENOENT))
    | Some data => (st', data, None)
    end
  end.

(** [os.WriteFile(name, data, 0644)]: create or truncate, write,
    close. *)
Definition WriteFile (st : State) (name data : string)
  : State * option error :=
  let put f := mkState f (ticks st) (reads st) (S (writes st)) in
  match write_fault env (writes st) with
  | Some (WOpen e) => (put (file st), Some (PathError "open" name e))
  | Some (WWrite e n) =>
    (put (Some (Bytes.take n data)), Some (PathError "write" name e))
  | None => (put (Some data), None)
  end.

End Calls.

End Runtime.

(** ** main.go *)

Module Main.
Import Pb Errors Runtime.

Definition filePath : string := "posts.json".

Definition nl : string := String Json.LF "".

(** [post.ViewCount += 1] on an int64. *)
Definition int64_add (a b : Z) : Z :=
  ((a + b + 2 ^ 63) mod 2 ^ 64 - 2 ^ 63)%Z.

Section Server.
Variable env : Env.

(** func savePosts(posts *pb.Posts) error *)
Definition savePosts (st : State) (posts : Posts) : State * option error :=
  let data := JsonPosts.MarshalIndent (Posts_ posts) in
  WriteFile env st filePath data.

(** func loadPost(posts *pb.Posts) error; the second component is
    [*posts] on return. *)
Definition loadPost (st : State) (posts : Posts)
  : State * Posts * option error :=
  let '(st1, data, err) := ReadFile env st filePath in
  match err with
  | Some e =>
    (st1, posts,
     Some (Errorf Internal ("failed to read posts file: %v" ++ nl) e))
  | None =>
    match JsonPosts.Unmarshal data with
    | inl e =>
      (st1, posts,
       Some (Errorf Internal ("failed to parse post data %v" ++ nl) (JsonError e)))
    | inr postsSlice => (st1, mkPosts postsSlice, None)
    end
  end.

(** The loop of GetPosts over [posts.Posts[i]], from the index where
    [l] starts: [None] when [post] is nil and the increment
    dereferences it. *)
Fixpoint touch_loop (st : State) (l : list (option Post))
  : State * option (list (option Post)) :=
  match l with
  | [] => (st, Some [])
  | None :: _ => (st, None)
  | Some post :: rest =>
    let post1 := set_ViewCount (int64_add (ViewCount post) 1) post in
    let '(st1, now) := Now env st in
    let post2 := set_LastViewed (Time.Format now) post1 in
    match touch_loop st1 rest with
    | (st2, Some rest') => (st2, Some (Some post2 :: rest'))
    | (st2, None) => (st2, None)
    end
  end.

Definition touch_slice (st : State) (sl : PostSlice)
  : State * option PostSlice :=
  match sl with
  | None => (st, Some None)
  | Some l =>
    match touch_loop st l with
    | (st', Some l') => (st', Some (Some l'))
    | (st', None) => (st', None)
    end
  end.

(** func (s *server) GetPosts: the pair it returns, or its panic. *)
Definition GetPosts (st : State) : State * outcome Posts :=
  let posts := mkPosts (Some []) in
  let '(st1, posts1, err) := loadPost st posts in
  match err with
  | Some e => (st1, Returns None (Some e))
  | None =>
    match touch_slice st1 (Posts_ posts1) with
    | (st2, None) =>
      (st2, Panics "invalid memory address or nil pointer dereference")
    | (st2, Some sl) =>
      let posts2 := mkPosts sl in
      let '(st3, err) := savePosts st2 posts2 in
      match err with
      | Some e =>
        (st3, Returns None (Some (Errorf Internal "failed to save posts %v" e)))
      | None => (st3, Returns (Some posts2) None)
      end
    end
  end.

(** func (s *server) CreatePost, on the request [req]. *)
Definition CreatePost (st : State) (req : option CreatePostRequest)
  : State * outcome Post :=
  let '(st1, t1) := Now env st in
  let '(st2, t2) := Now env st1 in
  let newPost :=
    mkPost (GetTitle req) (GetContent req) (Time.Format t1)
           (GetAuthor req) 0 (Time.Format t2) in
  let posts := mkPosts (Some []) in
  let '(st3, posts1, err) := loadPost st2 posts in
  match err with
  | Some e =>
    (st3, Returns None
            (Some (Errorf Internal ("failed to load posts: %v" ++ nl) e)))
  | None =>
    let posts2 := mkPosts (append (Posts_ posts1) (Some newPost)) in
    let '(st4, err) := savePosts st3 posts2 in
    match err with
    | Some e =>
      (st4, Returns None
              (Some (Errorf Internal "failed to save posts: %v" e)))
    | None => (st4, Returns (Some newPost) None)
    end
  end.

End Server.

End Main.

(** ** Well-formed collections *)

Module WellFormed.
Import Pb.

(** A Post as the wire format allows it: proto3 strings are valid UTF-8,
    and the view count is an int64. *)
Definition wf_post (p : Post) : bool :=
  Utf8.ValidString (Title p) && Utf8.ValidString (Content p) &&
  Utf8.ValidString (CreatedAt p) && Utf8.ValidString (Author p) &&
  Strconv.in_int64 (ViewCount p) && Utf8.ValidString (LastViewed p).

Definition wf_elem (e : option Post) : bool :=
  match e with
  | Some p => wf_post p
  | None => true
  end.

Definition wf_slice (sl : PostSlice) : bool :=
  match sl with
  | Some l => forallb wf_elem l
  | None => true
  end.

End WellFormed.

(** ** The vocabulary of the specification *)

Module Spec.
Import Pb Errors Runtime Main Json JsonPosts.

(** The two kinds of Store error, told apart by what [loadPost] wraps:
    both travel as a status of code [Internal]. *)
Inductive StoreErrorKind : Type := IOError | FormatError.

Definition store_error_kind (e : error) : option StoreErrorKind :=
  match e with
  | StatusError Internal _ (PathError _ _ _) => Some IOError
  | StatusError Internal _ (JsonError _) => Some FormatError
  | _ => None
  end.

(** A value of the type of field [f]: a string, or for ViewCount an
    integer literal in the int64 range; [null] counts when [lenient]. *)
Definition value_has_type (lenient : bool) (f : field) (v : jvalue) : bool :=
  match v with
  | JNull => lenient
  | JString _ => match f with FViewCount => false | _ => true end
  | JNumber lit =>
    match f with
    | FViewCount => match Strconv.ParseInt lit with Some _ => true | None => false end
    | _ => false
    end
  | _ => false
  end.

(** A serialized Post record: an object whose Post fields hold values
    of their types (other keys are not looked at). *)
Definition record_shape (lenient : bool) (v : jvalue) : bool :=
  match v with
  | JNull => lenient
  | JObject ms =>
    forallb (fun kv =>
               match find_field (fst kv) with
               | Some f => value_has_type lenient f (snd kv)
               | None => true
               end) ms
  | _ => false
  end.

(** A serialized sequence of Post records: an array of them. *)
Definition sequence_shape (lenient : bool) (v : jvalue) : bool :=
  match v with
  | JNull => lenient
  | JArray vs => forallb (record_shape lenient) vs
  | _ => false
  end.

(** The bytes are a well-formed serialized sequence of Post records;
    with [lenient], [null] may stand for the sequence, for a record and
    for a field value. *)
Definition serialized_sequence (lenient : bool) (data : string) : bool :=
  match parse_json data with
  | Some v => sequence_shape lenient v
  | None => false
  end.

(** The collection [sl] is what a Load in state [st] yields. *)
Definition loads (env : Env) (st : State) (sl : PostSlice) : Prop :=
  exists st1, loadPost env st (mkPosts (Some [])) = (st1, mkPosts sl, None).

(** The backing file holds bytes that deserialize to [sl]. *)
Definition holds (st : State) (sl : PostSlice) : Prop :=
  exists data, file st = Some data /\ Unmarshal data = inr sl.

(** What ListAndTouch does to one post, [d] being the date it reads. *)
Definition touch (d : string) (p : Post) : Post :=
  mkPost (Title p) (Content p) (CreatedAt p) (Author p)
         (int64_add (ViewCount p) 1) d.

(** The date the clock shows at its [k]-th reading. *)
Definition today (env : Env) (k : nat) : string := Time.Format (clock env k).

(** No entry of the slice is a nil pointer. *)
Definition no_nil (sl : PostSlice) : Prop :=
  Forall (fun e : option Post => e <> None) (elems sl).

(** The write of the backing file, if it fails, fails before any byte of
    the file is touched. *)
Definition no_short_write (env : Env) (st : State) : Prop :=
  match write_fault env (writes st) with
  | Some (WWrite _ _) => False
  | _ => True
  end.

(** Two posts describe the same item: the fields fixed at creation
    agree. *)
Definition same_identity (p p' : Post) : Prop :=
  Title p' = Title p /\ Content p' = Content p /\
  CreatedAt p' = CreatedAt p /\ Author p' = Author p.

Definition same_entry (e e' : option Post) : Prop :=
  match e, e' with
  | Some p, Some p' => same_identity p p'
  | None, None => True
  | _, _ => False
  end.

(** [l'] keeps every entry of [l], in order and with its identity, and
    may add entries after them. *)
Definition keeps (l l' : list (option Post)) : Prop :=
  exists kept added, l' = (kept ++ added)%list /\ Forall2 same_entry l kept.

End Spec.

(** ** Sample worlds *)

Module Examples.
Import Pb Errors Runtime Json.

Definition quoted (s : string) : string := String dquote (s ++ String dquote "").

(** A clock that shows 2 November 2026, and no failing file operation. *)
Definition env0 : Env :=
  mkEnv (fun _ => Time.mkTime 2026 11 2) (fun _ => None) (fun _ => None).

(** The same, but every write fails at open(2). *)
Definition env_readonly : Env :=
  mkEnv (fun _ => Time.mkTime 2026 11 2) (fun _ => None)
        (fun _ => Some (WOpen EACCES)).

(** The same, but every write stops after 0 bytes (disk full). *)
Definition env_full : Env :=
  mkEnv (fun _ => Time.mkTime 2026 11 2) (fun _ => None)
        (fun _ => Some (WWrite ENOSPC 0)).

Definition state_of (content : option string) : State := mkState content 0 0 0.

Definition st_missing : State := state_of None.
Definition st_empty : State := state_of (Some "[]").
Definition st_null : State := state_of (Some "null").
Definition st_null_entry : State := state_of (Some "[null]").
Definition st_not_json : State := state_of (Some "not json").

Definition post_A (views : Z) : Post :=
  mkPost "A" "first" "2026-11-01" "ann" views "2026-11-01".

(** A file holding one post, [views] being its ViewCount. *)
Definition text_A (views : string) : string :=
  "[{" ++ quoted "Title" ++ ":" ++ quoted "A" ++ "," ++
  quoted "Content" ++ ":" ++ quoted "first" ++ "," ++
  quoted "CreatedAt" ++ ":" ++ quoted "2026-11-01" ++ "," ++
  quoted "Author" ++ ":" ++ quoted "ann" ++ "," ++
  quoted "ViewCount" ++ ":" ++ views ++ "," ++
  quoted "LastViewed" ++ ":" ++ quoted "2026-11-01" ++ "}]".

Definition st_A : State := state_of (Some (text_A "3")).
Definition st_A_max : State := state_of (Some (text_A "9223372036854775807")).
Definition st_A_near_max : State := state_of (Some (text_A "9223372036854775806")).

Definition req_B : option CreatePostRequest :=
  Some (mkCreatePostRequest "B" "second" "1999-01-01" "bob").

End Examples.

(** * Sessions: requests served one after the other *)

Module Session.
Import Pb Errors Runtime Main.

(** A request to the Blog service: one of its two rpcs. *)
Inductive Call : Type :=
| CallGetPosts
| CallCreatePost (req : option CreatePostRequest).

Inductive Reply : Type :=
| PostsReply (o : outcome Posts)
| PostReply (o : outcome Post).

Definition crashed (r : Reply) : bool :=
  match r with
  | PostsReply (Panics _) | PostReply (Panics _) => true
  | _ => false
  end.

Section Serve.
Variable env : Env.

(** The handler the registered server runs for a request. *)
Definition handle (st : State) (c : Call) : State * Reply :=
  match c with
  | CallGetPosts => let '(st', o) := GetPosts env st in (st', PostsReply o)
  | CallCreatePost req => let '(st', o) := CreatePost env st req in (st', PostReply o)
  end.

(** Requests that arrive one after the other, each answered before the
    next is sent.  The server is built by [grpc.NewServer()] with no
    recovery interceptor, so a handler that panics ends the process:
    the requests after it get no reply. *)
Fixpoint serve (st : State) (calls : list Call) : State * list Reply :=
  match calls with
  | [] => (st, [])
  | c :: rest =>
    let '(st1, r) := handle st c in
    if crashed r then (st1, [r])
    else let '(st2, rs) := serve st1 rest in (st2, r :: rs)
  end.

End Serve.

(** The reply carries a result and no error. *)
Definition succeeded (r : Reply) : Prop :=
  match r with
  | PostsReply (Returns (Some _) None) | PostReply (Returns (Some _) None) => True
  | _ => False
  end.

(** The reply carries no result and a status of code Internal. *)
Definition failed (r : Reply) : Prop :=
  match r with
  | PostsReply (Returns None (Some (StatusError Internal _ _)))
  | PostReply (Returns None (Some (StatusError Internal _ _))) => True
  | _ => False
  end.

Definition is_GetPosts (c : Call) : bool :=
  match c with CallGetPosts => true | CallCreatePost _ => false end.

(** How many of the requests are GetPosts, how many CreatePost. *)
Definition views (calls : list Call) : nat := List.length (filter is_GetPosts calls).
Definition creates (calls : list Call) : nat :=
  List.length (filter (fun c => negb (is_GetPosts c)) calls).

(** The strings of the request are valid UTF-8, as proto3 strings are
    once the transport has accepted the message. *)
Definition valid_call (c : Call) : bool :=
  match c with
  | CallGetPosts => true
  | CallCreatePost req =>
    Utf8.ValidString (GetTitle req) && Utf8.ValidString (GetContent req) &&
    Utf8.ValidString (GetAuthor req)
  end.

(** No read and no write of the file ever fails. *)
Definition fault_free (env : Env) : Prop :=
  forall k, read_fault env k = None /\ write_fault env k = None.

End Session.

(** * Properties of the runtime model *)

(** Arithmetic over [N] with division and remainder by constants. *)
Ltac dlia := zify; Z.to_euclidean_division_equations; lia.

(** ** Byte strings *)

Module BytesFacts.
Import Bytes.

Lemma append_nil_r (s : string) : s ++ "" = s.
Proof. induction s as [|c s IH]; simpl; [reflexivity | now rewrite IH]. Qed.

Lemma append_assoc (a b c : string) : (a ++ b) ++ c = a ++ (b ++ c).
Proof. induction a as [|x a IH]; simpl; [reflexivity | now rewrite IH]. Qed.

Lemma length_append (a b : string) :
  String.length (a ++ b) = String.length a + String.length b.
Proof. induction a as [|x a IH]; simpl; [reflexivity | now rewrite IH]. Qed.

Lemma take_drop (n : nat) (s : string) : take n s ++ drop n s = s.
Proof.
  revert s; induction n as [|n IH]; intros [|c r]; simpl; try reflexivity.
  now rewrite IH.
Qed.

Lemma length_drop (n : nat) (s : string) :
  String.length (drop n s) = String.length s - n.
Proof.
  revert s; induction n as [|n IH]; intros [|c r]; simpl; auto using Nat.sub_0_r.
Qed.

End BytesFacts.

(** ** UTF-8: decoding and encoding are inverse on well-formed input *)

Module Utf8Facts.
Import Bytes BytesFacts Utf8.
Local Open Scope N_scope.

Lemma land_shiftl_low (a b n : N) : b < 2 ^ n -> N.land (N.shiftl a n) b = 0.
Proof.
  intros Hb. apply N.bits_inj; intros i. rewrite N.land_spec, N.bits_0.
  destruct (N.lt_ge_cases i n) as [Hi|Hi].
  - now rewrite N.shiftl_spec_low.
  - destruct (N.eq_dec b 0) as [->|Hb0]; [now rewrite N.bits_0, andb_false_r|].
    rewrite (N.bits_above_log2 b i), andb_false_r; [reflexivity|].
    apply N.log2_lt_pow2 in Hb; lia.
Qed.

(** A bitwise or of two numbers with no common bit is their sum. *)
Lemma lor_add (a b n : N) : a mod 2 ^ n = 0 -> b < 2 ^ n -> N.lor a b = a + b.
Proof.
  intros Ha Hb.
  assert (E : a = N.shiftl (a / 2 ^ n) n).
  { rewrite N.shiftl_mul_pow2.
    pose proof (N.Div0.div_mod a (2 ^ n)) as D. rewrite Ha in D. lia. }
  rewrite E at 1.
  rewrite <- N.lxor_lor, <- N.add_nocarry_lxor by now apply land_shiftl_low.
  now rewrite <- E.
Qed.

Lemma maskx_mod a : N.land a maskx = a mod 64.
Proof. change maskx with (N.ones 6). now rewrite N.land_ones. Qed.
Lemma mask2_mod a : N.land a mask2 = a mod 32.
Proof. change mask2 with (N.ones 5). now rewrite N.land_ones. Qed.
Lemma mask3_mod a : N.land a mask3 = a mod 16.
Proof. change mask3 with (N.ones 4). now rewrite N.land_ones. Qed.
Lemma mask4_mod a : N.land a mask4 = a mod 8.
Proof. change mask4 with (N.ones 3). now rewrite N.land_ones. Qed.
Lemma land_0xF a : N.land a 0xF = a mod 16.
Proof. change 0xF with (N.ones 4). now rewrite N.land_ones. Qed.

Lemma shiftl_6 a : N.shiftl a 6 = a * 64.
Proof. now rewrite N.shiftl_mul_pow2. Qed.
Lemma shiftl_12 a : N.shiftl a 12 = a * 4096.
Proof. now rewrite N.shiftl_mul_pow2. Qed.
Lemma shiftl_18 a : N.shiftl a 18 = a * 262144.
Proof. now rewrite N.shiftl_mul_pow2. Qed.
Lemma shiftr_6 a : N.shiftr a 6 = a / 64.
Proof. now rewrite N.shiftr_div_pow2. Qed.
Lemma shiftr_12 a : N.shiftr a 12 = a / 4096.
Proof. now rewrite N.shiftr_div_pow2. Qed.
Lemma shiftr_18 a : N.shiftr a 18 = a / 262144.
Proof. now rewrite N.shiftr_div_pow2. Qed.

Lemma lor_6 a b : a mod 64 = 0 -> b < 64 -> N.lor a b = a + b.
Proof. intros; now apply (lor_add a b 6). Qed.
Lemma lor_5 a b : a mod 32 = 0 -> b < 32 -> N.lor a b = a + b.
Proof. intros; now apply (lor_add a b 5). Qed.
Lemma lor_4 a b : a mod 16 = 0 -> b < 16 -> N.lor a b = a + b.
Proof. intros; now apply (lor_add a b 4). Qed.
Lemma lor_3 a b : a mod 8 = 0 -> b < 8 -> N.lor a b = a + b.
Proof. intros; now apply (lor_add a b 3). Qed.
Lemma lor_12 a b : a mod 4096 = 0 -> b < 4096 -> N.lor a b = a + b.
Proof. intros; now apply (lor_add a b 12). Qed.
Lemma lor_18 a b : a mod 262144 = 0 -> b < 262144 -> N.lor a b = a + b.
Proof. intros; now apply (lor_add a b 18). Qed.

Lemma byte_of_val (c : ascii) (n : N) : n = byte_val c -> byte_of n = c.
Proof.
  intros ->. unfold byte_of, byte_val.
  rewrite N.mod_small by apply N_ascii_bounded. apply ascii_N_embedding.
Qed.

Lemma byte_val_of (n : N) : n < 256 -> byte_val (byte_of n) = n.
Proof.
  intros H. unfold byte_of, byte_val. rewrite N.mod_small by assumption.
  now apply N_ascii_embedding.
Qed.

Lemma byte_val_lt (c : ascii) : byte_val c < 256.
Proof. apply N_ascii_bounded. Qed.

(** The sequences [DecodeRuneInString] accepts with a width of two or
    more: what it returns depends on these bytes alone, every byte has
    its top bit set, and [EncodeRune] gives the bytes back. *)
Definition multibyte (pre : string) (r : N) (n : nat) : Prop :=
  String.length pre = n /\
  (forall t, DecodeRuneInString (pre ++ t) = (r, n)) /\
  EncodeRune r = pre /\
  (forall t, exists c t', (pre ++ t)%string = String c t' /\ 0x80 <= byte_val c) /\
  0x80 <= r.

Lemma decode_width (s : string) :
  let n := snd (DecodeRuneInString s) in
  (n <= 4)%nat /\ (n = 0%nat <-> s = EmptyString).
Proof.
  unfold DecodeRuneInString.
  destruct s as [|c0 [|c1 [|c2 [|c3 r3]]]]; cbn zeta;
    repeat match goal with
           | |- context [if ?b then _ else _] => destruct b
           | |- context [match ?x with Some _ => _ | None => _ end] => destruct x as [[[? ?] ?]|]
           end; cbn; (split; [lia | split; intros; (reflexivity || discriminate || lia)]).
Qed.

Lemma first_spec (s0 : N) (sz : nat) (lo hi : N) :
  first s0 = Some (sz, lo, hi) ->
  0x80 <= lo /\ hi <= 0xBF /\
  ((sz = 2%nat /\ 0xC2 <= s0 <= 0xDF /\ lo = 0x80 /\ hi = 0xBF) \/
   (sz = 3%nat /\ 0xE0 <= s0 <= 0xEF /\
    (s0 = 0xE0 -> lo = 0xA0) /\ (s0 = 0xED -> hi = 0x9F)) \/
   (sz = 4%nat /\ 0xF0 <= s0 <= 0xF4 /\
    (s0 = 0xF0 -> lo = 0x90) /\ (s0 = 0xF4 -> hi = 0x8F))).
Proof.
  unfold first, locb, hicb.
  repeat match goal with
         | |- context [?a <? ?b] => destruct (N.ltb_spec a b)
         | |- context [?a <=? ?b] => destruct (N.leb_spec a b)
         | |- context [?a =? ?b] => destruct (N.eqb_spec a b)
         end; intros [= <- <- <-] || discriminate; lia.
Qed.

(** The rune of a two-, three- and four-byte sequence, as arithmetic. *)
Lemma rune2_eq (s0 s1 : N) :
  N.lor (N.shiftl (N.land s0 mask2) 6) (N.land s1 maskx)
  = s0 mod 32 * 64 + s1 mod 64.
Proof.
  rewrite mask2_mod, maskx_mod, shiftl_6. apply lor_6; dlia.
Qed.

Lemma rune3_eq (s0 s1 s2 : N) :
  N.lor (N.lor (N.shiftl (N.land s0 mask3) 12) (N.shiftl (N.land s1 maskx) 6))
        (N.land s2 maskx)
  = s0 mod 16 * 4096 + s1 mod 64 * 64 + s2 mod 64.
Proof.
  rewrite mask3_mod, !maskx_mod, shiftl_6, shiftl_12.
  rewrite (lor_12 (s0 mod 16 * 4096)) by dlia. apply lor_6; dlia.
Qed.

Lemma rune4_eq (s0 s1 s2 s3 : N) :
  N.lor (N.lor (N.lor (N.shiftl (N.land s0 mask4) 18)
                      (N.shiftl (N.land s1 maskx) 12))
               (N.shiftl (N.land s2 maskx) 6))
        (N.land s3 maskx)
  = s0 mod 8 * 262144 + s1 mod 64 * 4096 + s2 mod 64 * 64 + s3 mod 64.
Proof.
  rewrite mask4_mod, !maskx_mod, shiftl_6, shiftl_12, shiftl_18.
  rewrite (lor_18 (s0 mod 8 * 262144)) by dlia.
  rewrite (lor_12 (s0 mod 8 * 262144 + s1 mod 64 * 4096)) by dlia.
  apply lor_6; dlia.
Qed.

(** [EncodeRune], as arithmetic on each range of runes. *)
Lemma EncodeRune_1 (r : N) :
  r <= 0x7F -> EncodeRune r = String (byte_of r) EmptyString.
Proof. intros H. unfold EncodeRune. now destruct (N.leb_spec r 0x7F); [|lia]. Qed.

Lemma EncodeRune_2 (r : N) :
  0x80 <= r <= 0x7FF ->
  EncodeRune r =
  String (byte_of (0xC0 + r / 64)) (String (byte_of (0x80 + r mod 64)) EmptyString).
Proof.
  intros H. unfold EncodeRune.
  destruct (N.leb_spec r 0x7F); [lia|]. destruct (N.leb_spec r 0x7FF); [|lia].
  rewrite maskx_mod, shiftr_6, (lor_6 0xC0), (lor_6 0x80) by dlia. reflexivity.
Qed.

Lemma encode3_eq (r : N) :
  r <= 0xFFFF ->
  encode3 r =
  String (byte_of (0xE0 + r / 4096))
    (String (byte_of (0x80 + r / 64 mod 64))
      (String (byte_of (0x80 + r mod 64)) EmptyString)).
Proof.
  intros H. unfold encode3.
  rewrite !maskx_mod, shiftr_6, shiftr_12, (lor_4 0xE0), !(lor_6 0x80) by dlia.
  reflexivity.
Qed.

Lemma EncodeRune_3 (r : N) :
  0x800 <= r <= 0xFFFF -> ~ (0xD800 <= r <= 0xDFFF) ->
  EncodeRune r =
  String (byte_of (0xE0 + r / 4096))
    (String (byte_of (0x80 + r / 64 mod 64))
      (String (byte_of (0x80 + r mod 64)) EmptyString)).
Proof.
  intros H Hs. unfold EncodeRune, MaxRune, surrogateMin, surrogateMax.
  destruct (N.leb_spec r 0x7F); [lia|]. destruct (N.leb_spec r 0x7FF); [lia|].
  destruct (N.ltb_spec 0x10FFFF r); [lia|].
  destruct (N.leb_spec 0xD800 r), (N.leb_spec r 0xDFFF); cbn [orb andb]; try lia;
    (destruct (N.leb_spec r 0xFFFF); [|lia]); now apply encode3_eq.
Qed.

Lemma EncodeRune_invalid (r : N) :
  0x10FFFF < r \/ 0xD800 <= r <= 0xDFFF -> EncodeRune r = encode3 RuneError.
Proof.
  intros H. unfold EncodeRune, MaxRune, surrogateMin, surrogateMax.
  destruct (N.leb_spec r 0x7F); [lia|]. destruct (N.leb_spec r 0x7FF); [lia|].
  destruct (N.ltb_spec 0x10FFFF r); [reflexivity|].
  destruct (N.leb_spec 0xD800 r), (N.leb_spec r 0xDFFF); cbn [orb andb];
    try reflexivity; lia.
Qed.

Lemma EncodeRune_4 (r : N) :
  0x10000 <= r <= 0x10FFFF ->
  EncodeRune r =
  String (byte_of (0xF0 + r / 262144))
    (String (byte_of (0x80 + r / 4096 mod 64))
      (String (byte_of (0x80 + r / 64 mod 64))
        (String (byte_of (0x80 + r mod 64)) EmptyString))).
Proof.
  intros H. unfold EncodeRune, MaxRune, surrogateMin, surrogateMax.
  destruct (N.leb_spec r 0x7F); [lia|]. destruct (N.leb_spec r 0x7FF); [lia|].
  destruct (N.ltb_spec 0x10FFFF r); [lia|].
  destruct (N.leb_spec 0xD800 r), (N.leb_spec r 0xDFFF); cbn [orb andb]; try lia;
    (destruct (N.leb_spec r 0xFFFF); [lia|]);
    rewrite !maskx_mod, shiftr_6, shiftr_12, shiftr_18,
      (lor_3 0xF0), !(lor_6 0x80) by dlia; reflexivity.
Qed.

Lemma range_of_cond (x lo hi : N) :
  (x <? lo) || (hi <? x) = false -> lo <= x <= hi.
Proof.
  intros H. apply orb_false_elim in H as [H1 H2].
  apply N.ltb_ge in H1, H2. lia.
Qed.

(** What [DecodeRuneInString] returns: nothing on the empty string, one
    byte (an ASCII byte, or [RuneError] for a byte that starts no
    well-formed sequence), or a well-formed multi-byte sequence. *)
Lemma decode_cases (s : string) (r : N) (n : nat) :
  DecodeRuneInString s = (r, n) ->
  (n = 0%nat /\ s = EmptyString) \/
  (n = 1%nat /\ exists c t, s = String c t /\
     ((byte_val c < 0x80 /\ r = byte_val c) \/
      (0x80 <= byte_val c /\ r = RuneError))) \/
  ((2 <= n)%nat /\ exists pre t, s = (pre ++ t)%string /\ multibyte pre r n).
Proof.
  destruct s as [|c0 r0]; [intros [= <- <-]; now left|].
  pose proof (byte_val_lt c0) as B0.
  unfold DecodeRuneInString. cbn zeta.
  destruct (byte_val c0 <? RuneSelf) eqn:Ha.
  { intros [= <- <-]. right; left. split; [reflexivity|].
    exists c0, r0. split; [reflexivity|]. left.
    apply N.ltb_lt in Ha. unfold RuneSelf in Ha. now split. }
  apply N.ltb_ge in Ha. unfold RuneSelf in Ha.
  assert (Inv : forall t, (1%nat = 1%nat /\ exists c t', String c0 t = String c t' /\
     ((byte_val c < 0x80 /\ RuneError = byte_val c) \/
      (0x80 <= byte_val c /\ RuneError = RuneError)))).
  { intros t. split; [reflexivity|]. exists c0, t. split; [reflexivity|]. now right. }
  destruct (first (byte_val c0)) as [[[sz lo] hi]|] eqn:Hf;
    [|intros [= <- <-]; right; left; apply Inv].
  pose proof (first_spec _ _ _ _ Hf) as (Hlo & Hhi & Hsz).
  destruct r0 as [|c1 r1]; [intros [= <- <-]; right; left; apply Inv|].
  pose proof (byte_val_lt c1) as B1.
  destruct ((byte_val c1 <? lo) || (hi <? byte_val c1)) eqn:Hc1;
    [intros [= <- <-]; right; left; apply Inv|].
  pose proof (range_of_cond _ _ _ Hc1) as R1.
  destruct (sz <=? 2)%nat eqn:H2.
  { (* two bytes *)
    apply Nat.leb_le in H2.
    assert (R0 : 0xC2 <= byte_val c0 <= 0xDF) by lia.
    intros [= <- <-]. right; right. split; [lia|].
    exists (String c0 (String c1 EmptyString)), r1. split; [reflexivity|].
    unfold multibyte. split; [reflexivity|]. split; [|split; [|split]].
    - intros t. cbn [append]. unfold DecodeRuneInString. cbn zeta.
      apply N.ltb_ge in Ha. unfold RuneSelf. rewrite Ha, Hf, Hc1.
      apply Nat.leb_le in H2. now rewrite H2.
    - rewrite rune2_eq, EncodeRune_2 by dlia.
      f_equal; [|f_equal]; apply byte_of_val; dlia.
    - intros t. exists c0, (String c1 t). split; [reflexivity|lia].
    - rewrite rune2_eq. dlia. }
  apply Nat.leb_gt in H2.
  destruct r1 as [|c2 r2]; [intros [= <- <-]; right; left; apply Inv|].
  pose proof (byte_val_lt c2) as B2.
  destruct ((byte_val c2 <? locb) || (hicb <? byte_val c2)) eqn:Hc2;
    [intros [= <- <-]; right; left; apply Inv|].
  pose proof (range_of_cond _ _ _ Hc2) as R2. unfold locb, hicb in R2.
  destruct (sz <=? 3)%nat eqn:H3.
  { (* three bytes *)
    apply Nat.leb_le in H3.
    assert (R0 : 0xE0 <= byte_val c0 <= 0xEF /\
                 (byte_val c0 = 0xE0 -> lo = 0xA0) /\
                 (byte_val c0 = 0xED -> hi = 0x9F)) by lia.
    intros [= <- <-]. right; right. split; [lia|].
    exists (String c0 (String c1 (String c2 EmptyString))), r2. split; [reflexivity|].
    unfold multibyte. split; [reflexivity|]. split; [|split; [|split]].
    - intros t. cbn [append]. unfold DecodeRuneInString. cbn zeta.
      apply N.ltb_ge in Ha. unfold RuneSelf. rewrite Ha, Hf, Hc1, Hc2.
      apply Nat.leb_gt in H2. apply Nat.leb_le in H3. now rewrite H2, H3.
    - rewrite rune3_eq, EncodeRune_3 by dlia.
      f_equal; [|f_equal; [|f_equal]]; apply byte_of_val; dlia.
    - intros t. exists c0, (String c1 (String c2 t)). split; [reflexivity|lia].
    - rewrite rune3_eq. dlia. }
  apply Nat.leb_gt in H3.
  destruct r2 as [|c3 r3]; [intros [= <- <-]; right; left; apply Inv|].
  pose proof (byte_val_lt c3) as B3.
  destruct ((byte_val c3 <? locb) || (hicb <? byte_val c3)) eqn:Hc3;
    [intros [= <- <-]; right; left; apply Inv|].
  pose proof (range_of_cond _ _ _ Hc3) as R3. unfold locb, hicb in R3.
  assert (R0 : 0xF0 <= byte_val c0 <= 0xF4 /\
               (byte_val c0 = 0xF0 -> lo = 0x90) /\
               (byte_val c0 = 0xF4 -> hi = 0x8F)) by lia.
  intros [= <- <-]. right; right. split; [lia|].
  exists (String c0 (String c1 (String c2 (String c3 EmptyString)))), r3.
  split; [reflexivity|].
  unfold multibyte. split; [reflexivity|]. split; [|split; [|split]].
  - intros t. cbn [append]. unfold DecodeRuneInString. cbn zeta.
    apply N.ltb_ge in Ha. unfold RuneSelf. rewrite Ha, Hf, Hc1, Hc2, Hc3.
    apply Nat.leb_gt in H2, H3. now rewrite H2, H3.
  - rewrite rune4_eq, EncodeRune_4 by dlia.
    f_equal; [|f_equal; [|f_equal; [|f_equal]]]; apply byte_of_val; dlia.
  - intros t. exists c0, (String c1 (String c2 (String c3 t))).
    split; [reflexivity|lia].
  - rewrite rune4_eq. dlia.
Qed.

Lemma first_2 (x : N) : 0xC2 <= x <= 0xDF -> first x = Some (2%nat, locb, hicb).
Proof.
  intros H. unfold first.
  destruct (N.ltb_spec x 0xC2); [lia|]. now destruct (N.leb_spec x 0xDF); [|lia].
Qed.

Lemma first_3 (x : N) :
  0xE0 <= x <= 0xEF ->
  first x = Some (3%nat, if x =? 0xE0 then 0xA0 else locb,
                         if x =? 0xED then 0x9F else hicb).
Proof.
  intros H. unfold first.
  repeat match goal with
         | |- context [?a <? ?b] => destruct (N.ltb_spec a b)
         | |- context [?a <=? ?b] => destruct (N.leb_spec a b)
         | |- context [?a =? ?b] => destruct (N.eqb_spec a b)
         end; try reflexivity; lia.
Qed.

Lemma first_4 (x : N) :
  0xF0 <= x <= 0xF4 ->
  first x = Some (4%nat, if x =? 0xF0 then 0x90 else locb,
                         if x =? 0xF4 then 0x8F else hicb).
Proof.
  intros H. unfold first.
  repeat match goal with
         | |- context [?a <? ?b] => destruct (N.ltb_spec a b)
         | |- context [?a <=? ?b] => destruct (N.leb_spec a b)
         | |- context [?a =? ?b] => destruct (N.eqb_spec a b)
         end; try reflexivity; lia.
Qed.

Lemma cond_of_range (x lo hi : N) :
  lo <= x <= hi -> (x <? lo) || (hi <? x) = false.
Proof.
  intros H. apply orb_false_intro; apply N.ltb_ge; lia.
Qed.

Lemma not_ascii (x : N) : 0x80 <= x -> (x <? RuneSelf) = false.
Proof. intros H. apply N.ltb_ge. exact H. Qed.

Lemma decode_2bytes (c0 c1 : ascii) (t : string) :
  0xC2 <= byte_val c0 <= 0xDF -> 0x80 <= byte_val c1 <= 0xBF ->
  snd (DecodeRuneInString (String c0 (String c1 t))) = 2%nat.
Proof.
  intros H0 H1. unfold DecodeRuneInString. cbn zeta.
  rewrite not_ascii, first_2, cond_of_range by (unfold locb, hicb; lia).
  reflexivity.
Qed.

Lemma decode_3bytes (c0 c1 c2 : ascii) (t : string) :
  0xE0 <= byte_val c0 <= 0xEF ->
  0x80 <= byte_val c1 <= 0xBF ->
  (byte_val c0 = 0xE0 -> 0xA0 <= byte_val c1) ->
  (byte_val c0 = 0xED -> byte_val c1 <= 0x9F) ->
  0x80 <= byte_val c2 <= 0xBF ->
  snd (DecodeRuneInString (String c0 (String c1 (String c2 t)))) = 3%nat.
Proof.
  intros H0 H1 Ha Hb H2. unfold DecodeRuneInString. cbn zeta.
  rewrite not_ascii, first_3 by lia.
  rewrite cond_of_range.
  - rewrite cond_of_range by (unfold locb, hicb; lia). reflexivity.
  - unfold locb, hicb.
    destruct (N.eqb_spec (byte_val c0) 0xE0), (N.eqb_spec (byte_val c0) 0xED); lia.
Qed.

Lemma decode_4bytes (c0 c1 c2 c3 : ascii) (t : string) :
  0xF0 <= byte_val c0 <= 0xF4 ->
  0x80 <= byte_val c1 <= 0xBF ->
  (byte_val c0 = 0xF0 -> 0x90 <= byte_val c1) ->
  (byte_val c0 = 0xF4 -> byte_val c1 <= 0x8F) ->
  0x80 <= byte_val c2 <= 0xBF ->
  0x80 <= byte_val c3 <= 0xBF ->
  snd (DecodeRuneInString (String c0 (String c1 (String c2 (String c3 t))))) = 4%nat.
Proof.
  intros H0 H1 Ha Hb H2 H3. unfold DecodeRuneInString. cbn zeta.
  rewrite not_ascii, first_4 by lia.
  rewrite cond_of_range.
  - rewrite !cond_of_range by (unfold locb, hicb; lia). reflexivity.
  - unfold locb, hicb.
    destruct (N.eqb_spec (byte_val c0) 0xF0), (N.eqb_spec (byte_val c0) 0xF4); lia.
Qed.

Lemma append_length_eq (a b c d : string) :
  (a ++ b = c ++ d)%string -> String.length a = String.length c -> a = c /\ b = d.
Proof.
  revert c. induction a as [|x a IH]; intros [|y c] H L; try discriminate.
  - now split.
  - cbn in H, L. injection H as -> H. injection L as L.
    destruct (IH c H L) as [-> ->]. now split.
Qed.

(** A string that decodes at its full length is a well-formed
    multi-byte sequence. *)
Lemma multibyte_of_width (pre : string) :
  (2 <= snd (DecodeRuneInString pre))%nat ->
  snd (DecodeRuneInString pre) = String.length pre ->
  multibyte pre (fst (DecodeRuneInString pre)) (String.length pre).
Proof.
  destruct (DecodeRuneInString pre) as [r n] eqn:E. cbn [fst snd]. intros H2 L.
  destruct (decode_cases _ _ _ E) as [[-> _]|[[-> _]|(_ & p & t & -> & M)]]; try lia.
  pose proof M as (Lp & _).
  rewrite length_append in L.
  assert (t = EmptyString) by (destruct t; [reflexivity | cbn in L; lia]).
  subst t. rewrite append_nil_r, Lp. exact M.
Qed.

(** [EncodeRune] writes one ASCII byte or a well-formed multi-byte
    sequence, whatever the rune. *)
Lemma EncodeRune_valid (r : N) :
  (exists c, EncodeRune r = String c EmptyString /\ byte_val c < 0x80) \/
  (exists r' n, (2 <= n)%nat /\ multibyte (EncodeRune r) r' n).
Proof.
  assert (W : forall pre, (2 <= snd (DecodeRuneInString pre))%nat ->
                          snd (DecodeRuneInString pre) = String.length pre ->
                          exists r' n, (2 <= n)%nat /\ multibyte pre r' n).
  { intros pre H2 L. eexists _, _. split; [|now apply multibyte_of_width].
    now rewrite <- L. }
  assert (Inv : exists r' n, (2 <= n)%nat /\ multibyte (encode3 RuneError) r' n).
  { apply W; vm_compute; [lia | reflexivity]. }
  destruct (N.le_gt_cases r 0x7F) as [H1|H1].
  { left. rewrite EncodeRune_1 by assumption. eexists; split; [reflexivity|].
    rewrite byte_val_of; lia. }
  right.
  destruct (N.le_gt_cases r 0x7FF) as [H2|H2].
  { rewrite EncodeRune_2 by lia.
    assert (D : snd (DecodeRuneInString
                  (String (byte_of (0xC0 + r / 64))
                     (String (byte_of (0x80 + r mod 64)) EmptyString))) = 2%nat).
    { apply decode_2bytes; rewrite byte_val_of; dlia. }
    apply W; rewrite D; cbn; lia. }
  destruct (N.lt_ge_cases 0x10FFFF r) as [H3|H3];
    [rewrite EncodeRune_invalid by lia; exact Inv|].
  destruct (N.le_gt_cases r 0xFFFF) as [H4|H4].
  { destruct (N.lt_ge_cases r 0xD800) as [H5|H5];
      [|destruct (N.le_gt_cases r 0xDFFF) as [H6|H6];
        [rewrite EncodeRune_invalid by lia; exact Inv|]].
    all: rewrite EncodeRune_3 by lia.
    all: assert (D : snd (DecodeRuneInString
                  (String (byte_of (0xE0 + r / 4096))
                     (String (byte_of (0x80 + r / 64 mod 64))
                        (String (byte_of (0x80 + r mod 64)) EmptyString)))) = 3%nat)
      by (apply decode_3bytes; rewrite ?byte_val_of; dlia).
    all: apply W; rewrite D; cbn; lia. }
  rewrite EncodeRune_4 by lia.
  assert (D : snd (DecodeRuneInString
                (String (byte_of (0xF0 + r / 262144))
                   (String (byte_of (0x80 + r / 4096 mod 64))
                      (String (byte_of (0x80 + r / 64 mod 64))
                         (String (byte_of (0x80 + r mod 64)) EmptyString))))) = 4%nat)
    by (apply decode_4bytes; rewrite ?byte_val_of; dlia).
  apply W; rewrite D; cbn; lia.
Qed.

(** Well-formed UTF-8, as a derivation: the proofs go by induction on
    it; [ValidString] decides it. *)
Inductive Valid : string -> Prop :=
| Valid_nil : Valid EmptyString
| Valid_ascii (c : ascii) (s : string) :
    byte_val c < 0x80 -> Valid s -> Valid (String c s)
| Valid_multi (pre : string) (r : N) (n : nat) (s : string) :
    (2 <= n)%nat -> multibyte pre r n -> Valid s -> Valid (pre ++ s).

Lemma drop_append (a b : string) : drop (String.length a) (a ++ b) = b.
Proof. induction a as [|c a IH]; [reflexivity | exact IH]. Qed.

Lemma take_append (a b : string) : take (String.length a) (a ++ b) = a.
Proof. induction a as [|c a IH]; [reflexivity | cbn; now rewrite IH]. Qed.

Lemma valid_loop_Valid (fuel : nat) (s : string) :
  valid_loop fuel s = true -> Valid s.
Proof.
  revert s. induction fuel as [|f IH]; intros [|c r] H; cbn [valid_loop] in H;
    try apply Valid_nil; try discriminate.
  destruct (byte_val c <? RuneSelf) eqn:Ha.
  - apply Valid_ascii; [now apply N.ltb_lt in Ha | now apply IH].
  - destruct (DecodeRuneInString (String c r)) as [rn size] eqn:E.
    destruct (size =? 1)%nat eqn:E1; [discriminate|]. apply Nat.eqb_neq in E1.
    destruct (decode_cases _ _ _ E) as [[_ ?]|[[-> _]|(H2 & p & t & Hs & M)]];
      [discriminate | lia |].
    rewrite Hs in *. pose proof M as (Lp & _). rewrite <- Lp in H.
    rewrite drop_append in H.
    eapply Valid_multi; eauto.
Qed.

Lemma ValidString_Valid (s : string) : ValidString s = true -> Valid s.
Proof. apply valid_loop_Valid. Qed.

Lemma Valid_valid_loop (s : string) :
  Valid s -> forall fuel, (String.length s <= fuel)%nat -> valid_loop fuel s = true.
Proof.
  induction 1 as [|c s Hc Hs IH|pre r n s H2 M Hs IH]; intros fuel L.
  - now destruct fuel.
  - destruct fuel as [|f]; [cbn in L; lia|]. cbn [valid_loop].
    apply N.ltb_lt in Hc. unfold RuneSelf. rewrite Hc. apply IH. cbn in L. lia.
  - destruct M as (Lp & D & _ & Hi & _).
    destruct (Hi s) as (c & t' & E & Hc).
    rewrite length_append in L.
    destruct fuel as [|f]; [lia|].
    specialize (D s). rewrite E in *. cbn [valid_loop].
    rewrite not_ascii by assumption. rewrite D.
    replace (n =? 1)%nat with false by (symmetry; apply Nat.eqb_neq; lia).
    rewrite <- E, <- Lp, drop_append. apply IH. lia.
Qed.

Lemma Valid_ValidString (s : string) : Valid s -> ValidString s = true.
Proof. intros H. now apply Valid_valid_loop. Qed.

Lemma Valid_app (a b : string) : Valid a -> Valid b -> Valid (a ++ b).
Proof.
  induction 1 as [|c s Hc Hs IH|pre r n s H2 M Hs IH]; intros Hb; cbn [append].
  - exact Hb.
  - apply Valid_ascii; auto.
  - rewrite append_assoc. eapply Valid_multi; eauto.
Qed.

Lemma ValidString_app (a b : string) :
  ValidString a = true -> ValidString b = true -> ValidString (a ++ b) = true.
Proof.
  intros Ha Hb. apply Valid_ValidString, Valid_app; now apply ValidString_Valid.
Qed.

Lemma Valid_EncodeRune (r : N) : Valid (EncodeRune r).
Proof.
  destruct (EncodeRune_valid r) as [(c & -> & Hc)|(r' & n & H2 & M)].
  - apply Valid_ascii; [assumption | constructor].
  - rewrite <- (append_nil_r (EncodeRune r)). eapply Valid_multi; eauto. constructor.
Qed.

End Utf8Facts.

(** ** JSON string literals: quoting and unquoting *)

Module JsonStringFacts.
Import Bytes BytesFacts Utf8 Utf8Facts Json.
Local Open Scope N_scope.

Lemma prepend_Some (a s rest : string) :
  prepend a (Some (s, rest)) = Some ((a ++ s)%string, rest).
Proof. reflexivity. Qed.

(** One ASCII byte, as [appendString] writes it, reads back as itself. *)
Lemma scan_ascii (c : ascii) (f : nat) (X : string) :
  byte_val c < 0x80 ->
  scan_string_loop (S f)
    ((if htmlSafeSet (byte_val c) then String c EmptyString else escape_ascii c) ++ X)
  = prepend (String c EmptyString) (scan_string_loop f X).
Proof.
  destruct c as [[] [] [] [] [] [] [] []]; intros H;
    try (exfalso; vm_compute in H; discriminate H); simpl; reflexivity.
Qed.

(** A well-formed multi-byte sequence, copied raw, reads back as itself. *)
Lemma scan_multibyte (pre : string) (r : N) (n : nat) (f : nat) (X : string) :
  (2 <= n)%nat -> multibyte pre r n ->
  scan_string_loop (S f) (pre ++ X) = prepend pre (scan_string_loop f X).
Proof.
  intros H2 (Lp & D & Enc & Hi & _).
  destruct (Hi X) as (c & t' & E & Hc).
  specialize (D X). rewrite E in *. cbn [scan_string_loop].
  pose proof (byte_val_lt c) as B.
  replace (byte_val c =? 0x22) with false by (symmetry; apply N.eqb_neq; lia).
  replace (byte_val c =? 0x5C) with false by (symmetry; apply N.eqb_neq; lia).
  replace (byte_val c <? 0x20) with false by (symmetry; apply N.ltb_ge; lia).
  rewrite not_ascii by assumption. rewrite D, Enc.
  now rewrite <- E, <- Lp, drop_append.
Qed.

(** The two separators that [appendString] escapes. *)
Lemma scan_u202x (pre : string) (r : N) (n : nat) (f : nat) (X : string) :
  multibyte pre r n -> r = 0x2028 \/ r = 0x2029 ->
  scan_string_loop (S f) ("\u202" ++ String (hex_digit (N.land r 0xF)) X)
  = prepend pre (scan_string_loop f X).
Proof.
  intros (_ & _ & Enc & _) [-> | ->]; rewrite <- Enc; simpl; reflexivity.
Qed.

(** The body of a literal written by [appendString] reads back as the
    string it came from, when that string is well-formed UTF-8. *)
Lemma scan_appendString_loop (s : string) :
  Valid s ->
  forall (f1 f2 : nat) (rest : string),
    (String.length s <= f1)%nat -> (String.length s < f2)%nat ->
    scan_string_loop f2 (appendString_loop f1 s ++ String dquote rest)
    = Some (s, rest).
Proof.
  induction 1 as [|c s Hc Hs IH|pre r n s H2 M Hs IH]; intros f1 f2 rest L1 L2.
  - destruct f2 as [|f2]; [cbn in L2; lia|]. now destruct f1.
  - cbn [String.length] in L1, L2.
    destruct f1 as [|f1]; [lia|]. destruct f2 as [|f2]; [lia|].
    cbn [appendString_loop]. cbn zeta.
    apply N.ltb_lt in Hc. unfold RuneSelf. rewrite Hc. apply N.ltb_lt in Hc.
    pose proof (scan_ascii c f2 (appendString_loop f1 s ++ String dquote rest) Hc) as E.
    destruct (htmlSafeSet (byte_val c)); cbn [append] in E |- *;
      rewrite ?append_assoc; rewrite E, IH by lia; reflexivity.
  - pose proof M as (Lp & D & Enc & Hi & _).
    rewrite length_append in L1, L2.
    destruct (Hi s) as (c & t' & E & Hc).
    destruct f1 as [|f1]; [lia|]. destruct f2 as [|f2]; [lia|].
    rewrite E. cbn [appendString_loop]. cbn zeta. rewrite <- E.
    rewrite not_ascii by assumption. rewrite (D s).
    replace ((r =? RuneError) && (n =? 1)%nat) with false
      by (symmetry; apply andb_false_intro2, Nat.eqb_neq; lia).
    rewrite <- Lp, drop_append, take_append.
    destruct ((r =? 0x2028) || (r =? 0x2029)) eqn:Esep.
    + apply orb_true_iff in Esep. rewrite !N.eqb_eq in Esep.
      pose proof (scan_u202x pre r n f2
                    (appendString_loop f1 s ++ String dquote rest) M Esep) as U.
      rewrite append_assoc. cbn [append] in U |- *.
      rewrite U, IH by lia. reflexivity.
    + rewrite append_assoc, (scan_multibyte pre r n) by assumption.
      rewrite IH by lia. reflexivity.
Qed.

Lemma length_appendString_loop (s : string) (f : nat) :
  (String.length s <= f)%nat -> Valid s ->
  (String.length s <= String.length (appendString_loop f s))%nat.
Proof.
  intros L V. revert f L.
  induction V as [|c s Hc Hs IH|pre r n s H2 M Hs IH]; intros f L.
  - cbn. lia.
  - cbn [String.length] in L. destruct f as [|f]; [lia|].
    cbn [appendString_loop]. cbn zeta.
    apply N.ltb_lt in Hc. unfold RuneSelf. rewrite Hc.
    specialize (IH f ltac:(lia)).
    destruct (htmlSafeSet (byte_val c)).
    + cbn [String.length]. lia.
    + rewrite length_append. cbn [String.length].
      assert (1 <= String.length (escape_ascii c))%nat; [|lia].
      unfold escape_ascii.
      repeat match goal with |- context [if ?b then _ else _] => destruct b end;
        cbn; lia.
  - pose proof M as (Lp & D & Enc & Hi & _).
    rewrite length_append in L |- *.
    destruct (Hi s) as (c & t' & E & Hc).
    destruct f as [|f]; [lia|].
    rewrite E. cbn [appendString_loop]. cbn zeta. rewrite <- E.
    rewrite not_ascii by assumption. rewrite (D s).
    replace ((r =? RuneError) && (n =? 1)%nat) with false
      by (symmetry; apply andb_false_intro2, Nat.eqb_neq; lia).
    rewrite <- Lp, drop_append, take_append.
    specialize (IH f ltac:(lia)).
    destruct ((r =? 0x2028) || (r =? 0x2029)) eqn:Esep.
    + rewrite length_append. cbn [String.length].
      assert (String.length pre <= 4)%nat; [|lia].
      pose proof (decode_width (pre ++ s)) as W. rewrite (D s) in W. cbn in W. lia.
    + rewrite length_append. lia.
Qed.

(** [appendString] then the scanner: a quoted string, followed by
    anything, unquotes to the string and leaves what follows. *)
Lemma scan_appendString (s rest : string) :
  ValidString s = true ->
  exists body,
    (appendString s ++ rest)%string = String dquote body /\
    scan_string body = Some (s, rest).
Proof.
  intros V. apply ValidString_Valid in V.
  unfold appendString. cbn [append]. eexists; split; [reflexivity|].
  unfold scan_string. rewrite append_assoc. cbn [append].
  apply scan_appendString_loop; [assumption | lia |].
  rewrite length_append. cbn [String.length].
  pose proof (length_appendString_loop s (String.length s) (le_n _) V). lia.
Qed.

Lemma prepend_inv (a : string) (res : option (string * string)) (str rest : string) :
  prepend a res = Some (str, rest) ->
  exists s', res = Some (s', rest) /\ str = (a ++ s')%string.
Proof.
  destruct res as [[s' r']|]; cbn; [|discriminate].
  intros [= <- <-]. now exists s'.
Qed.

Lemma unescape_ascii (e ch : ascii) : unescape e = Some ch -> byte_val ch < 0x80.
Proof.
  unfold unescape.
  repeat match goal with
         | |- context [if ?b then _ else _] => destruct b eqn:?
         end; intros [= <-]; try (vm_compute; reflexivity).
  repeat match goal with
         | H : (_ || _)%bool = true |- _ => apply orb_true_iff in H as [H|H]
         | H : (_ =? _)%char = true |- _ => apply Ascii.eqb_eq in H; subst
         end; vm_compute; reflexivity.
Qed.

(** Whatever the scanner unquotes is well-formed UTF-8: raw bytes that
    are not are replaced by U+FFFD. *)
Lemma scan_string_loop_Valid (f : nat) (s str rest : string) :
  scan_string_loop f s = Some (str, rest) -> Valid str.
Proof.
  revert s str rest. induction f as [|f IH]; intros s str rest; [discriminate|].
  destruct s as [|c r]; [discriminate|]. cbn [scan_string_loop]. cbn zeta.
  destruct (byte_val c =? 0x22); [intros [= <- <-]; constructor|].
  assert (P : forall a x, Valid a -> prepend a (scan_string_loop f x) = Some (str, rest) ->
                          Valid str).
  { intros a x Va E. apply prepend_inv in E as (s' & E & ->).
    apply Valid_app; [assumption | eapply IH; eassumption]. }
  destruct (byte_val c =? 0x5C).
  - destruct r as [|e r1]; [discriminate|].
    destruct (e =? "u")%char.
    + destruct (getu4 (String c (String e r1))) as [rr|]; [|discriminate].
      destruct (IsSurrogate rr).
      * match goal with |- context [negb ?b] => destruct b end; cbn [negb];
          apply P, Valid_EncodeRune.
      * apply P, Valid_EncodeRune.
    + destruct (unescape e) as [ch|] eqn:U; [|discriminate].
      apply P. apply Valid_ascii; [now apply unescape_ascii in U | constructor].
  - destruct (byte_val c <? 0x20); [discriminate|].
    destruct (byte_val c <? RuneSelf) eqn:A.
    + apply P. apply Valid_ascii; [now apply N.ltb_lt in A | constructor].
    + destruct (DecodeRuneInString (String c r)) as [rr size].
      apply P, Valid_EncodeRune.
Qed.

Lemma scan_string_Valid (s str rest : string) :
  scan_string s = Some (str, rest) -> ValidString str = true.
Proof. intros H. eapply Valid_ValidString, scan_string_loop_Valid, H. Qed.

End JsonStringFacts.

(** ** Decimal integers: FormatInt, ParseInt and the number scanner *)

Module NumberFacts.
Import Bytes BytesFacts Json Strconv.

(** The digits of a positive number do not start with a zero. *)
Lemma to_uint_head (p : positive) :
  match Pos.to_uint p with
  | Nil | D0 _ => False
  | _ => True
  end.
Proof.
  assert (U : unorm (Pos.to_uint p) = Pos.to_uint p).
  { rewrite <- DecimalPos.Unsigned.to_of, DecimalPos.Unsigned.of_to. reflexivity. }
  pose proof (DecimalPos.Unsigned.to_uint_nonzero p) as NZ.
  pose proof (DecimalPos.Unsigned.to_uint_nonnil p) as NN.
  destruct (Pos.to_uint p) as [|d| | | | | | | | |] eqn:E; try exact I; [congruence|].
  rewrite DecimalFacts.unorm_D0 in U.
  destruct d as [| | | | | | | | | |] eqn:Ed; [now apply NZ|..];
    match type of U with
    | unorm ?u = _ =>
      assert (L : (nb_digits (unorm u) <= nb_digits u)%nat)
        by (apply DecimalFacts.nb_digits_unorm; discriminate);
      rewrite U in L; cbn [nb_digits] in L; lia
    end.
Qed.

Lemma string_of_uint_digits (d : uint) (rest : string) :
  match rest with
  | EmptyString => True
  | String c _ => is_digit c = false
  end ->
  span_digits (NilEmpty.string_of_uint d ++ rest) = (NilEmpty.string_of_uint d, rest).
Proof.
  intros Hr. induction d; cbn [NilEmpty.string_of_uint append span_digits];
    try (change (is_digit _) with true; cbv iota; rewrite IHd; reflexivity).
  destruct rest as [|c r]; [reflexivity|]. cbn [span_digits]. now rewrite Hr.
Qed.

(** What may follow a number literal in a JSON text written by the
    encoder: nothing, or a character that cannot continue the number. *)
Definition ends_number (rest : string) : Prop :=
  match rest with
  | EmptyString => True
  | String c _ =>
    is_digit c = false /\ c <> "."%char /\ c <> "e"%char /\ c <> "E"%char
  end.

Lemma scan_frac_end (lit rest : string) :
  ends_number rest -> scan_frac lit rest = Some (lit, rest).
Proof.
  destruct rest as [|c r]; [reflexivity|]. intros (Hd & H1 & H2 & H3).
  unfold scan_frac, scan_exp.
  apply Ascii.eqb_neq in H1, H2, H3. now rewrite H1, H2, H3.
Qed.

Lemma scan_number_uint (p : positive) (sign rest : string) :
  ends_number rest ->
  match NilEmpty.string_of_uint (Pos.to_uint p) ++ rest with
  | String c r =>
    is_digit c = true /\ (c =? "0")%char = false /\
    (let '(ds, r1) := span_digits r in scan_frac (sign ++ String c ds) r1)
    = Some (sign ++ NilEmpty.string_of_uint (Pos.to_uint p), rest)
  | EmptyString => False
  end.
Proof.
  intros Hr. pose proof (to_uint_head p) as Hh.
  assert (Hd : match rest with EmptyString => True | String c _ => is_digit c = false end)
    by (destruct rest; [exact I | apply Hr]).
  destruct (Pos.to_uint p) as [|d|d|d|d|d|d|d|d|d|d]; try contradiction;
    cbn [NilEmpty.string_of_uint append];
    (split; [reflexivity|split; [reflexivity|]]);
    rewrite string_of_uint_digits by assumption; now apply scan_frac_end.
Qed.

(** The scanner reads back the literal [FormatInt] writes, up to what
    follows it. *)
Lemma scan_number_FormatInt (z : Z) (rest : string) :
  ends_number rest ->
  scan_number (FormatInt z ++ rest) = Some (FormatInt z, rest).
Proof.
  intros Hr. unfold FormatInt. destruct z as [|p|p]; cbn [Z.to_int NilZero.string_of_int].
  - cbn. now apply scan_frac_end.
  - pose proof (scan_number_uint p "" rest Hr) as H.
    pose proof (DecimalPos.Unsigned.to_uint_nonnil p) as NN.
    unfold NilZero.string_of_uint.
    destruct (Pos.to_uint p) eqn:E; try congruence;
      rewrite <- E in *; clear E;
      destruct (NilEmpty.string_of_uint (Pos.to_uint p) ++ rest) as [|c r] eqn:E';
      try contradiction; destruct H as (Hd & H0 & H);
      unfold scan_number;
      (replace (c =? "-")%char with false
        by (destruct c as [[] [] [] [] [] [] [] []]; try reflexivity; discriminate Hd));
      rewrite H0, Hd; exact H.
  - pose proof (scan_number_uint p "-" rest Hr) as H.
    pose proof (DecimalPos.Unsigned.to_uint_nonnil p) as NN.
    unfold NilZero.string_of_uint.
    destruct (Pos.to_uint p) eqn:E; try congruence;
      rewrite <- E in *; clear E;
      destruct (NilEmpty.string_of_uint (Pos.to_uint p) ++ rest) as [|c r] eqn:E';
      try contradiction; destruct H as (Hd & H0 & H);
      unfold scan_number; cbn [append]; rewrite E';
      change ("-" =? "-")%char with true; cbv iota;
      rewrite H0, Hd; exact H.
Qed.

Lemma uint_of_string_of_uint (p : positive) :
  NilZero.uint_of_string (NilEmpty.string_of_uint (Pos.to_uint p))
  = Some (Pos.to_uint p).
Proof.
  pose proof (DecimalPos.Unsigned.to_uint_nonnil p) as NN.
  unfold NilZero.uint_of_string.
  destruct (NilEmpty.string_of_uint (Pos.to_uint p)) eqn:E.
  - destruct (Pos.to_uint p); try discriminate; congruence.
  - rewrite <- E. apply NilEmpty.usu.
Qed.

Lemma of_uint_to_uint (p : positive) : Z.of_uint (Pos.to_uint p) = Z.pos p.
Proof.
  unfold Z.of_uint. now rewrite DecimalPos.Unsigned.of_to.
Qed.

(** [ParseInt] inverts [FormatInt] on int64. *)
Lemma ParseInt_FormatInt (z : Z) :
  in_int64 z = true -> ParseInt (FormatInt z) = Some z.
Proof.
  intros R. unfold FormatInt.
  destruct z as [|p|p]; cbn [Z.to_int NilZero.string_of_int].
  - reflexivity.
  - pose proof (to_uint_head p) as Hh.
    unfold ParseInt, NilZero.string_of_uint.
    pose proof (uint_of_string_of_uint p) as U.
    pose proof (of_uint_to_uint p) as V.
    destruct (Pos.to_uint p) as [|d|d|d|d|d|d|d|d|d|d]; try contradiction;
      cbn [NilEmpty.string_of_uint] in U |- *;
      match goal with
      | |- context [(?c =? "-")%char] => change (c =? "-")%char with false
      end;
      match goal with
      | |- context [(?c =? "+")%char] => change (c =? "+")%char with false
      end; cbv iota; rewrite U, V, R; reflexivity.
  - unfold ParseInt, NilZero.string_of_uint.
    pose proof (uint_of_string_of_uint p) as U.
    pose proof (of_uint_to_uint p) as V.
    pose proof (DecimalPos.Unsigned.to_uint_nonnil p) as NN.
    destruct (Pos.to_uint p) eqn:E; try congruence; rewrite <- E in *;
      change ("-" =? "-")%char with true; cbv iota;
      rewrite U, V; change (- Z.pos p)%Z with (Z.neg p); rewrite R; reflexivity.
Qed.

End NumberFacts.

(** ** Fuel: the loops over a string never run out *)

Module FuelFacts.
Import Bytes BytesFacts Utf8 Utf8Facts Json JsonStringFacts.
Local Open Scope N_scope.

Lemma decode_width_pos (c : ascii) (r : string) :
  (1 <= snd (DecodeRuneInString (String c r)))%nat.
Proof.
  pose proof (decode_width (String c r)) as W. cbv zeta in W.
  destruct W as (_ & H). revert H.
  destruct (snd (DecodeRuneInString (String c r))); intros H; [|lia].
  discriminate (proj1 H eq_refl).
Qed.

Lemma length_drop_decoded (c : ascii) (r : string) (rn : N) (size : nat) :
  DecodeRuneInString (String c r) = (rn, size) ->
  (String.length (drop size (String c r)) <= String.length r)%nat.
Proof.
  intros E. pose proof (decode_width_pos c r) as H. rewrite E in H. cbn [snd] in H.
  rewrite length_drop. cbn [String.length]. lia.
Qed.

(** [utf8.ValidString] is a loop over the whole string: more fuel than
    its length changes nothing. *)
Lemma valid_loop_fuel (f1 f2 : nat) (s : string) :
  (String.length s <= f1)%nat -> (String.length s <= f2)%nat ->
  valid_loop f1 s = valid_loop f2 s.
Proof.
  revert f2 s. induction f1 as [|f1 IH]; intros f2 s L1 L2.
  - destruct s; [now destruct f2 | cbn in L1; lia].
  - destruct s as [|c r]; [now destruct f2|]. cbn [String.length] in L1, L2.
    destruct f2 as [|f2]; [lia|]. cbn [valid_loop].
    destruct (byte_val c <? RuneSelf); [apply IH; lia|].
    destruct (DecodeRuneInString (String c r)) as [rn size] eqn:E.
    destruct (size =? 1)%nat; [reflexivity|].
    pose proof (length_drop_decoded c r rn size E). apply IH; lia.
Qed.

(** The same for the loop of [appendString]. *)
Lemma appendString_loop_fuel (f1 f2 : nat) (s : string) :
  (String.length s <= f1)%nat -> (String.length s <= f2)%nat ->
  appendString_loop f1 s = appendString_loop f2 s.
Proof.
  revert f2 s. induction f1 as [|f1 IH]; intros f2 s L1 L2.
  - destruct s; [now destruct f2 | cbn in L1; lia].
  - destruct s as [|c r]; [now destruct f2|]. cbn [String.length] in L1, L2.
    destruct f2 as [|f2]; [lia|]. cbn [appendString_loop]. cbn zeta.
    destruct (byte_val c <? RuneSelf).
    + rewrite (IH f2 r) by lia. reflexivity.
    + destruct (DecodeRuneInString (String c r)) as [rn size] eqn:E.
      pose proof (length_drop_decoded c r rn size E).
      rewrite (IH f2 r), (IH f2 (drop size (String c r))) by lia. reflexivity.
Qed.

(** And for the scanner of string literals, which may stop early at the
    closing quote. *)
Lemma scan_string_loop_fuel (f1 f2 : nat) (s : string) :
  (String.length s <= f1)%nat -> (String.length s <= f2)%nat ->
  scan_string_loop f1 s = scan_string_loop f2 s.
Proof.
  revert f2 s. induction f1 as [|f1 IH]; intros f2 s L1 L2.
  - destruct s; [now destruct f2 | cbn in L1; lia].
  - destruct s as [|c r]; [now destruct f2|]. cbn [String.length] in L1, L2.
    destruct f2 as [|f2]; [lia|]. cbn [scan_string_loop]. cbn zeta.
    destruct (byte_val c =? 0x22); [reflexivity|].
    destruct (byte_val c =? 0x5C).
    + destruct r as [|e r1]; [reflexivity|]. cbn [String.length] in L1, L2.
      destruct (e =? "u")%char.
      * destruct (getu4 (String c (String e r1))) as [rr|]; [|reflexivity].
        assert (D6 : (String.length (drop 6 (String c (String e r1))) <= f1)%nat /\
                     (String.length (drop 6 (String c (String e r1))) <= f2)%nat)
          by (rewrite length_drop; cbn [String.length]; lia).
        assert (D12 : (String.length (drop 6 (drop 6 (String c (String e r1)))) <= f1)%nat /\
                      (String.length (drop 6 (drop 6 (String c (String e r1)))) <= f2)%nat)
          by (rewrite !length_drop; cbn [String.length]; lia).
        rewrite (IH f2 (drop 6 (String c (String e r1)))) by apply D6.
        rewrite (IH f2 (drop 6 (drop 6 (String c (String e r1))))) by apply D12.
        reflexivity.
      * rewrite (IH f2 r1) by lia. reflexivity.
    + destruct (byte_val c <? 0x20); [reflexivity|].
      destruct (byte_val c <? RuneSelf).
      * rewrite (IH f2 r) by lia. reflexivity.
      * destruct (DecodeRuneInString (String c r)) as [rn size] eqn:E.
        pose proof (length_drop_decoded c r rn size E).
        rewrite (IH f2 (drop size (String c r))) by lia. reflexivity.
Qed.

End FuelFacts.

(** ** The parser on the text the encoder writes *)

Module ParserFacts.
Import Bytes BytesFacts Utf8 Utf8Facts Json JsonStringFacts NumberFacts Strconv.

Fixpoint all_space (s : string) : Prop :=
  match s with
  | EmptyString => True
  | String c r => isSpace c = true /\ all_space r
  end.

Lemma all_space_app (a b : string) : all_space a -> all_space b -> all_space (a ++ b).
Proof. induction a as [|c a IH]; cbn; [auto|]. intros [H1 H2] Hb. auto. Qed.

Lemma all_space_repeat (n : nat) : all_space (repeat "  " n).
Proof. induction n as [|n IH]; cbn; auto. Qed.

Lemma all_space_newline (depth : nat) : all_space (newline depth).
Proof. split; [reflexivity | apply all_space_repeat]. Qed.

Lemma skip_ws_app (ws s : string) : all_space ws -> skip_ws (ws ++ s) = skip_ws s.
Proof. induction ws as [|c ws IH]; cbn; [auto|]. intros [-> H]. auto. Qed.

Lemma skip_ws_head (c : ascii) (r : string) :
  isSpace c = false -> skip_ws (String c r) = String c r.
Proof. intros H. cbn. now rewrite H. Qed.

Lemma parse_value_eq (f : nat) (d : N) (s : string) :
  parse_value (S f) d s =
  match skip_ws s with
  | EmptyString => None
  | String c r =>
    if (c =? "{")%char then
      if (maxNestingDepth <? N.succ d)%N then None
      else
        match skip_ws r with
        | String c' r' =>
          if (c' =? "}")%char then Some (JObject [], r')
          else
            match parse_members f (N.succ d) (String c' r') with
            | Some (ms, rest) => Some (JObject ms, rest)
            | None => None
            end
        | EmptyString => None
        end
    else if (c =? "[")%char then
      if (maxNestingDepth <? N.succ d)%N then None
      else
        match skip_ws r with
        | String c' r' =>
          if (c' =? "]")%char then Some (JArray [], r')
          else
            match parse_elems f (N.succ d) (String c' r') with
            | Some (vs, rest) => Some (JArray vs, rest)
            | None => None
            end
        | EmptyString => None
        end
    else if (c =? dquote)%char then
      match scan_string r with
      | Some (str, rest) => Some (JString str, rest)
      | None => None
      end
    else if ((c =? "-")%char || is_digit c) then
      match scan_number (String c r) with
      | Some (lit, rest) => Some (JNumber lit, rest)
      | None => None
      end
    else if (c =? "t")%char then
      option_map (fun rest => (JTrue, rest)) (strip_prefix "true" (String c r))
    else if (c =? "f")%char then
      option_map (fun rest => (JFalse, rest)) (strip_prefix "false" (String c r))
    else if (c =? "n")%char then
      option_map (fun rest => (JNull, rest)) (strip_prefix "null" (String c r))
    else None
  end.
Proof. reflexivity. Qed.

Lemma parse_elems_eq (f : nat) (d : N) (s : string) :
  parse_elems (S f) d s =
  match parse_value f d s with
  | None => None
  | Some (v, r) =>
    match skip_ws r with
    | String c r' =>
      if (c =? ",")%char then
        match parse_elems f d r' with
        | Some (vs, rest) => Some (v :: vs, rest)
        | None => None
        end
      else if (c =? "]")%char then Some ([v], r')
      else None
    | EmptyString => None
    end
  end.
Proof. reflexivity. Qed.

Lemma parse_members_eq (f : nat) (d : N) (s : string) :
  parse_members (S f) d s =
  match skip_ws s with
  | String q r0 =>
    if (q =? dquote)%char then
      match scan_string r0 with
      | None => None
      | Some (key, r1) =>
        match skip_ws r1 with
        | String c1 r2 =>
          if (c1 =? ":")%char then
            match parse_value f d r2 with
            | None => None
            | Some (v, r3) =>
              match skip_ws r3 with
              | String c r' =>
                if (c =? ",")%char then
                  match parse_members f d r' with
                  | Some (ms, rest) => Some ((key, v) :: ms, rest)
                  | None => None
                  end
                else if (c =? "}")%char then Some ([(key, v)], r')
                else None
              | EmptyString => None
              end
            end
          else None
        | EmptyString => None
        end
      end
    else None
  | EmptyString => None
  end.
Proof. reflexivity. Qed.

(** The values of a Post's members: a string, or an integer as
    [FormatInt] prints it. *)
Inductive simple : jvalue -> Prop :=
| simple_string (s : string) : ValidString s = true -> simple (JString s)
| simple_number (z : Z) : simple (JNumber (FormatInt z)).

Lemma FormatInt_head (z : Z) :
  exists c r, FormatInt z = String c r /\ ((c =? "-")%char || is_digit c) = true /\
              isSpace c = false /\ (c =? "{")%char = false /\
              (c =? "[")%char = false /\ (c =? dquote)%char = false.
Proof.
  unfold FormatInt. destruct z as [|p|p]; cbn [Z.to_int NilZero.string_of_int].
  - eexists _, _. split; [reflexivity|]. repeat split.
  - pose proof (to_uint_head p) as Hh. unfold NilZero.string_of_uint.
    destruct (Pos.to_uint p) as [|d|d|d|d|d|d|d|d|d|d]; try contradiction;
      cbn [NilEmpty.string_of_uint]; eexists _, _; (split; [reflexivity|]);
      repeat split.
  - eexists _, _. split; [reflexivity|]. repeat split.
Qed.

Lemma parse_simple (v : jvalue) (rest : string) :
  simple v -> ends_number rest ->
  forall (f : nat) (d : N) (dd : nat) (ws : string),
    all_space ws ->
    parse_value (S f) d (ws ++ render dd v ++ rest) = Some (v, rest).
Proof.
  intros [s Hs|z] Hr f d dd ws Hws; rewrite parse_value_eq, skip_ws_app by assumption;
    cbn [render].
  - destruct (scan_appendString s rest Hs) as (body & -> & E).
    rewrite skip_ws_head by reflexivity.
    change (dquote =? "{")%char with false. change (dquote =? "[")%char with false.
    change (dquote =? dquote)%char with true. cbv iota. now rewrite E.
  - destruct (FormatInt_head z) as (c & r & E & H1 & H2 & H3 & H4 & H5).
    pose proof (scan_number_FormatInt z rest Hr) as Sn.
    rewrite E in *. cbn [append] in *.
    rewrite skip_ws_head by assumption. rewrite H3, H4, H5, H1, Sn. reflexivity.
Qed.

Definition member_text (dd : nat) (kv : string * jvalue) : string :=
  appendString (fst kv) ++ ": " ++ render dd (snd kv).

Definition wf_member (kv : string * jvalue) : Prop :=
  ValidString (fst kv) = true /\ simple (snd kv).

Lemma ends_number_newline (dd : nat) (rest : string) :
  ends_number (newline dd ++ rest).
Proof. cbn. repeat split; discriminate. Qed.

Lemma ends_number_comma (rest : string) : ends_number ("," ++ rest).
Proof. cbn. repeat split; discriminate. Qed.

Lemma skip_ws_newline (dd : nat) (s : string) : skip_ws (newline dd ++ s) = skip_ws s.
Proof. apply skip_ws_app, all_space_newline. Qed.

(** The members of an object, one per line, read back in order. *)
Lemma parse_members_text (ms : list (string * jvalue)) :
  ms <> [] -> Forall wf_member ms ->
  forall (f : nat) (d : N) (dd : nat) (ws rest : string),
    all_space ws ->
    parse_members (List.length ms + S f) d
      (ws ++ String.concat ("," ++ newline (S dd)) (map (member_text (S dd)) ms)
          ++ newline dd ++ "}" ++ rest)
    = Some (ms, rest).
Proof.
  induction ms as [|[k v] ms IH]; [congruence|].
  intros _ W f d dd ws rest Hws.
  apply Forall_cons_iff in W as [[Hk Hv] W]. cbn [fst snd] in Hk, Hv.
  cbn [List.length Nat.add]. rewrite parse_members_eq, skip_ws_app by assumption.
  destruct ms as [|kv' ms'].
  - cbn [map String.concat]. unfold member_text at 1. cbn [fst snd].
    rewrite !append_assoc.
    destruct (scan_appendString k (": " ++ render (S dd) v ++ newline dd ++ "}" ++ rest) Hk)
      as (body & -> & E).
    rewrite skip_ws_head by reflexivity.
    change (dquote =? dquote)%char with true. cbv iota. rewrite E.
    cbn [append]. rewrite skip_ws_head by reflexivity.
    change (":" =? ":")%char with true. cbv iota.
    change (String " " (render (S dd) v ++ newline dd ++ String "}" rest))
      with (" " ++ render (S dd) v ++ newline dd ++ String "}" rest).
    cbn [List.length Nat.add].
    rewrite (parse_simple v _ Hv (ends_number_newline dd _)) by (now split).
    rewrite skip_ws_newline, skip_ws_head by reflexivity.
    reflexivity.
  - remember (kv' :: ms') as ms eqn:Ems.
    assert (Hne : ms <> []) by (subst; discriminate).
    assert (Ec : forall x, String.concat ("," ++ newline (S dd)) (x :: map (member_text (S dd)) ms)
                 = x ++ ("," ++ newline (S dd)) ++
                   String.concat ("," ++ newline (S dd)) (map (member_text (S dd)) ms)).
    { intros x. subst ms. reflexivity. }
    cbn [map]. rewrite Ec. unfold member_text at 1. cbn [fst snd].
    rewrite !append_assoc.
    match goal with
    | |- context [appendString k ++ ?X] =>
      destruct (scan_appendString k X Hk) as (body & -> & E)
    end.
    rewrite skip_ws_head by reflexivity.
    change (dquote =? dquote)%char with true. cbv iota. rewrite E.
    cbn [append]. rewrite skip_ws_head by reflexivity.
    change (":" =? ":")%char with true. cbv iota.
    match goal with
    | |- context [parse_value _ _ (String " " (render (S dd) v ++ ?X))] =>
      change (String " " (render (S dd) v ++ X)) with (" " ++ render (S dd) v ++ X);
      replace (List.length ms + S f)%nat with (S (List.length ms + f))%nat by lia;
      rewrite (parse_simple v X Hv) by (cbn; repeat split; discriminate)
    end.
    rewrite skip_ws_head by reflexivity.
    change ("," =? ",")%char with true. cbv iota.
    replace (S (List.length ms + f))%nat with (List.length ms + S f)%nat by lia.
    pose proof (IH Hne W f d dd (newline (S dd)) rest (all_space_newline _)) as R.
    cbn [append] in R. rewrite R.
    reflexivity.
Qed.

(** The elements of the array written for a [[]*Post]: [null] for a nil
    pointer, an object of simple members for a Post. *)
Inductive elem_shape : jvalue -> Prop :=
| elem_null : elem_shape JNull
| elem_object (ms : list (string * jvalue)) :
    Forall wf_member ms -> elem_shape (JObject ms).

(** Fuel that reads an element. *)
Definition need (v : jvalue) : nat :=
  match v with
  | JObject ms => List.length ms + 2
  | _ => 1
  end.

Lemma concat_members_head (sep : string) (dd : nat) (kv : string * jvalue)
      (ms : list (string * jvalue)) (X : string) :
  exists body,
    (String.concat sep (map (member_text dd) (kv :: ms)) ++ X)%string
    = String dquote body.
Proof.
  destruct ms; cbn [map String.concat]; unfold member_text at 1;
    unfold appendString; cbn [append]; eexists; reflexivity.
Qed.

Lemma parse_elem (v : jvalue) :
  elem_shape v ->
  forall (F : nat) (d : N) (dd : nat) (ws rest : string),
    (need v <= F)%nat -> (d < 10000)%N -> all_space ws ->
    parse_value F d (ws ++ render dd v ++ rest) = Some (v, rest).
Proof.
  intros [|ms W] F d dd ws rest HF Hd Hws; cbn [need] in HF.
  - destruct F as [|f]; [lia|]. rewrite parse_value_eq, skip_ws_app by assumption.
    reflexivity.
  - destruct F as [|f]; [lia|]. rewrite parse_value_eq, skip_ws_app by assumption.
    assert (Dp : (maxNestingDepth <? N.succ d)%N = false)
      by (apply N.ltb_ge; unfold maxNestingDepth; lia).
    destruct ms as [|kv ms'].
    + cbn [render append]. rewrite skip_ws_head by reflexivity.
      change ("{" =? "{")%char with true. cbv iota. rewrite Dp.
      rewrite skip_ws_head by reflexivity. reflexivity.
    + remember (kv :: ms') as ms eqn:Ems.
      assert (Hne : ms <> []) by (subst; discriminate).
      assert (Er : render dd (JObject ms) =
                   "{" ++ newline (S dd) ++
                   String.concat ("," ++ newline (S dd)) (map (member_text (S dd)) ms) ++
                   newline dd ++ "}") by (subst ms; reflexivity).
      rewrite Er, !append_assoc. cbn [append]. rewrite skip_ws_head by reflexivity.
      change ("{" =? "{")%char with true. cbv iota. rewrite Dp.
      pose proof (parse_members_text ms Hne W (f - S (List.length ms)) (N.succ d) dd
                    EmptyString rest I) as R.
      replace (List.length ms + S (f - S (List.length ms)))%nat with f in R by lia.
      cbn [append] in R.
      change (String LF (repeat "  " (S dd) ++ ?X)) with (newline (S dd) ++ X).
      rewrite skip_ws_newline.
      destruct (concat_members_head (String "," (newline (S dd))) (S dd) kv ms'
                  (newline dd ++ String "}" rest)) as (body & Eb).
      rewrite <- Ems in Eb. rewrite Eb in *.
      rewrite skip_ws_head by reflexivity.
      change (dquote =? "}")%char with false. cbv iota. now rewrite R.
Qed.

Lemma render_elem_head (v : jvalue) (dd : nat) (X : string) :
  elem_shape v ->
  exists c r, (render dd v ++ X)%string = String c r /\
              isSpace c = false /\ (c =? "]")%char = false.
Proof.
  intros [|ms W].
  - eexists _, _. split; [reflexivity|]. now split.
  - destruct ms; eexists _, _; (split; [reflexivity|]); now split.
Qed.

(** The elements of an array, one per line, read back in order. *)
Lemma parse_elems_text (B : nat) (vs : list jvalue) :
  vs <> [] -> Forall elem_shape vs -> Forall (fun v => need v <= B)%nat vs ->
  forall (f : nat) (d : N) (dd : nat) (ws rest : string),
    all_space ws -> (d < 10000)%N ->
    parse_elems (List.length vs + B + f) d
      (ws ++ String.concat ("," ++ newline (S dd)) (map (render (S dd)) vs)
          ++ newline dd ++ "]" ++ rest)
    = Some (vs, rest).
Proof.
  induction vs as [|v vs IH]; [congruence|].
  intros _ W HB f d dd ws rest Hws Hd.
  apply Forall_cons_iff in W as [Hv W]. apply Forall_cons_iff in HB as [Bv HB].
  cbn [List.length Nat.add]. rewrite parse_elems_eq.
  destruct vs as [|v' vs'].
  - cbn [map String.concat].
    rewrite (parse_elem v Hv) by (assumption || cbn [List.length]; lia).
    rewrite skip_ws_newline. cbn [append]. rewrite skip_ws_head by reflexivity.
    reflexivity.
  - remember (v' :: vs') as l eqn:El.
    assert (Hne : l <> []) by (subst; discriminate).
    assert (Ec : String.concat ("," ++ newline (S dd)) (map (render (S dd)) (v :: l))
                 = render (S dd) v ++ ("," ++ newline (S dd)) ++
                   String.concat ("," ++ newline (S dd)) (map (render (S dd)) l))
      by (subst l; reflexivity).
    rewrite Ec, !append_assoc.
    rewrite (parse_elem v Hv) by (assumption || lia).
    cbn [append]. rewrite skip_ws_head by reflexivity.
    change ("," =? ",")%char with true. cbv iota.
    pose proof (IH Hne W HB f d dd (newline (S dd)) rest (all_space_newline _) Hd) as R.
    cbn [append] in R. now rewrite R.
Qed.

(** A non-empty array of elements, as [render] lays it out, is read
    back by the parser given fuel in proportion to its length. *)
Lemma parse_array_text (B : nat) (vs : list jvalue) :
  vs <> [] -> Forall elem_shape vs -> Forall (fun v => need v <= B)%nat vs ->
  parse_value (S (List.length vs + B)) 0 (render 0 (JArray vs)) = Some (JArray vs, EmptyString).
Proof.
  intros Hne W HB.
  assert (Er : render 0 (JArray vs) =
               "[" ++ newline 1 ++
               String.concat ("," ++ newline 1) (map (render 1) vs) ++
               newline 0 ++ "]") by (destruct vs; [congruence | reflexivity]).
  rewrite Er, parse_value_eq. cbn [append]. rewrite skip_ws_head by reflexivity.
  change ("[" =? "{")%char with false. change ("[" =? "[")%char with true. cbv iota.
  change (maxNestingDepth <? N.succ 0)%N with false. cbv iota.
  change (String LF (repeat "  " 1 ++ ?X)) with (newline 1 ++ X).
  rewrite skip_ws_newline.
  pose proof (parse_elems_text B vs Hne W HB 0 1%N 0%nat EmptyString EmptyString I
                ltac:(reflexivity)) as R.
  rewrite Nat.add_0_r in R. cbn [append] in R.
  destruct vs as [|v vs']; [congruence|].
  apply Forall_cons_iff in W as [Hv W].
  assert (Ec : forall X, exists c r,
               (String.concat (String "," (newline 1)) (map (render 1) (v :: vs')) ++ X)%string
               = String c r /\ isSpace c = false /\ (c =? "]")%char = false).
  { intros X. destruct vs' as [|v' vs'']; cbn [map String.concat].
    - now apply render_elem_head.
    - rewrite append_assoc. now apply render_elem_head. }
  destruct (Ec (String LF (String "]" EmptyString))) as (c & r & E & Hc & Hb).
  cbn [newline repeat append] in R |- *. change (N.succ 0) with 1%N.
  rewrite E in *. rewrite skip_ws_head by assumption. rewrite Hb, R. reflexivity.
Qed.

(** *** Fuel: the parser's answer does not depend on it *)

Lemma skip_ws_length (s : string) : (String.length (skip_ws s) <= String.length s)%nat.
Proof.
  induction s as [|c r IH]; cbn; [lia|]. destruct (isSpace c); cbn; lia.
Qed.

Lemma length_drop_le (n : nat) (s : string) :
  (String.length (drop n s) <= String.length s)%nat.
Proof. rewrite length_drop. lia. Qed.

Lemma scan_string_loop_length (f : nat) (s str rest : string) :
  scan_string_loop f s = Some (str, rest) ->
  (String.length rest < String.length s)%nat.
Proof.
  revert s str rest. induction f as [|f IH]; intros s str rest; [discriminate|].
  destruct s as [|c r]; [discriminate|]. cbn [scan_string_loop]. cbn zeta.
  destruct (byte_val c =? 0x22)%N; [intros [= <- <-]; cbn; lia|].
  assert (P : forall a x, (String.length x <= String.length (String c r))%nat ->
                          prepend a (scan_string_loop f x) = Some (str, rest) ->
                          (String.length rest < String.length (String c r))%nat).
  { intros a x Lx E. apply prepend_inv in E as (s' & E & _).
    apply IH in E. lia. }
  destruct (byte_val c =? 0x5C)%N.
  - destruct r as [|e r1]; [discriminate|].
    destruct (e =? "u")%char.
    + destruct (getu4 (String c (String e r1))) as [rr|]; [|discriminate].
      destruct (IsSurrogate rr).
      * match goal with |- context [negb ?b] => destruct b end; cbn [negb];
          apply P; rewrite ?length_drop; cbn [String.length]; lia.
      * apply P. apply length_drop_le.
    + destruct (unescape e) as [ch|]; [|discriminate].
      apply P. cbn. lia.
  - destruct (byte_val c <? 0x20)%N; [discriminate|].
    destruct (byte_val c <? RuneSelf)%N.
    + apply P. cbn. lia.
    + destruct (DecodeRuneInString (String c r)) as [rr size].
      apply P. apply length_drop_le.
Qed.

Lemma span_digits_length (s ds rest : string) :
  span_digits s = (ds, rest) ->
  (String.length rest <= String.length s)%nat.
Proof.
  revert ds rest. induction s as [|c r IH]; intros ds rest; cbn [span_digits].
  - intros [= <- <-]. lia.
  - destruct (is_digit c).
    + destruct (span_digits r) as [d r'] eqn:E. intros [= <- <-].
      specialize (IH _ _ eq_refl). cbn. lia.
    + intros [= <- <-]. lia.
Qed.

Lemma scan_exp_length (lit s l rest : string) :
  scan_exp lit s = Some (l, rest) -> (String.length rest <= String.length s)%nat.
Proof.
  unfold scan_exp. destruct s as [|e r]; [intros [= <- <-]; lia|].
  destruct ((e =? "e")%char || (e =? "E")%char); [|intros [= <- <-]; lia].
  destruct r as [|g r'].
  - cbn. discriminate.
  - destruct ((g =? "+")%char || (g =? "-")%char).
    + destruct (span_digits r') as [ds r2] eqn:E. apply span_digits_length in E.
      destruct ds; [discriminate|]. intros [= <- <-]. cbn. lia.
    + destruct (span_digits (String g r')) as [ds r2] eqn:E.
      apply span_digits_length in E.
      destruct ds; [discriminate|]. intros [= <- <-]. cbn in *. lia.
Qed.

Lemma scan_frac_length (lit s l rest : string) :
  scan_frac lit s = Some (l, rest) -> (String.length rest <= String.length s)%nat.
Proof.
  unfold scan_frac. destruct s as [|c r]; [intros [= <- <-]; lia|].
  destruct (c =? ".")%char; [|apply scan_exp_length].
  destruct (span_digits r) as [ds r1] eqn:E. apply span_digits_length in E.
  destruct ds; [discriminate|]. intros H. apply scan_exp_length in H. cbn. lia.
Qed.

Lemma scan_number_length (s l rest : string) :
  scan_number s = Some (l, rest) -> (String.length rest < String.length s)%nat.
Proof.
  unfold scan_number.
  assert (P : forall sign s1, (String.length s1 <= String.length s)%nat ->
    match s1 with
    | String c r =>
      if (c =? "0")%char then scan_frac (sign ++ "0") r
      else if is_digit c then
        let '(ds, r1) := span_digits r in scan_frac (sign ++ String c ds) r1
      else None
    | EmptyString => None
    end = Some (l, rest) -> (String.length rest < String.length s)%nat).
  { intros sign [|c r] L; [discriminate|]. cbn [String.length] in L.
    destruct (c =? "0")%char; [intros H; apply scan_frac_length in H; lia|].
    destruct (is_digit c); [|discriminate].
    destruct (span_digits r) as [ds r1] eqn:E. apply span_digits_length in E.
    intros H; apply scan_frac_length in H; lia. }
  destruct s as [|c r]; [discriminate|].
  destruct (c =? "-")%char; intros H.
  - apply (P "-" r); [cbn; lia | exact H].
  - apply (P "" (String c r)); [cbn; lia | exact H].
Qed.

Lemma strip_prefix_length (p s rest : string) :
  strip_prefix p s = Some rest ->
  String.length s = (String.length p + String.length rest)%nat.
Proof.
  revert s. induction p as [|a p IH]; intros s; cbn [strip_prefix].
  - now intros [= <-].
  - destruct s as [|b s']; [discriminate|]. destruct (a =? b)%char; [|discriminate].
    intros H. apply IH in H. cbn. lia.
Qed.

Definition fuel_ok_value (f : nat) : Prop :=
  forall d s v rest,
    parse_value f d s = Some (v, rest) ->
    (String.length rest < String.length s)%nat /\
    forall f', (2 * (String.length s - String.length rest) <= f')%nat ->
               parse_value f' d s = Some (v, rest).

Definition fuel_ok_elems (f : nat) : Prop :=
  forall d s vs rest,
    parse_elems f d s = Some (vs, rest) ->
    (String.length rest < String.length s)%nat /\
    forall f', (2 * (String.length s - String.length rest) + 1 <= f')%nat ->
               parse_elems f' d s = Some (vs, rest).

Definition fuel_ok_members (f : nat) : Prop :=
  forall d s ms rest,
    parse_members f d s = Some (ms, rest) ->
    (String.length rest < String.length s)%nat /\
    forall f', (2 * (String.length s - String.length rest) + 1 <= f')%nat ->
               parse_members f' d s = Some (ms, rest).

Lemma skip_ws_cons_length (s r : string) (c : ascii) :
  skip_ws s = String c r -> (String.length r < String.length s)%nat.
Proof.
  intros E. pose proof (skip_ws_length s) as L. rewrite E in L. cbn in L. lia.
Qed.

Lemma fuel_value_step (f : nat) :
  fuel_ok_elems f -> fuel_ok_members f -> fuel_ok_value (S f).
Proof.
  intros IHe IHm d s v rest. rewrite parse_value_eq.
  destruct (skip_ws s) as [|c r] eqn:Es; [discriminate|].
  pose proof (skip_ws_cons_length _ _ _ Es) as Ls.
  assert (Tok : forall (res : option (jvalue * string)),
    res = Some (v, rest) ->
    (forall f', parse_value (S f') d s = res) ->
    (String.length rest <= String.length r)%nat ->
    (String.length rest < String.length s)%nat /\
    forall f', (2 * (String.length s - String.length rest) <= f')%nat ->
               parse_value f' d s = Some (v, rest)).
  { intros res E Hres L. split; [lia|]. intros [|f'] Hf'; [lia|].
    now rewrite Hres. }
  destruct (c =? "{")%char eqn:E1.
  { destruct (maxNestingDepth <? N.succ d)%N eqn:Ed; [discriminate|].
    destruct (skip_ws r) as [|c' r'] eqn:Er; [discriminate|].
    pose proof (skip_ws_cons_length _ _ _ Er) as Lr.
    destruct (c' =? "}")%char eqn:E2.
    - intros [= <- <-]. split; [lia|]. intros [|f'] Hf'; [lia|].
      now rewrite parse_value_eq, Es, E1, Ed, Er, E2.
    - destruct (parse_members f (N.succ d) (String c' r')) as [[ms rest']|] eqn:Em;
        [|discriminate].
      intros [= <- <-]. destruct (IHm _ _ _ _ Em) as [L Hm]. cbn [String.length] in L, Hm.
      split; [lia|]. intros [|f'] Hf'; [lia|].
      rewrite parse_value_eq, Es, E1, Ed, Er, E2, Hm by lia. reflexivity. }
  destruct (c =? "[")%char eqn:E2.
  { destruct (maxNestingDepth <? N.succ d)%N eqn:Ed; [discriminate|].
    destruct (skip_ws r) as [|c' r'] eqn:Er; [discriminate|].
    pose proof (skip_ws_cons_length _ _ _ Er) as Lr.
    destruct (c' =? "]")%char eqn:E3.
    - intros [= <- <-]. split; [lia|]. intros [|f'] Hf'; [lia|].
      now rewrite parse_value_eq, Es, E1, E2, Ed, Er, E3.
    - destruct (parse_elems f (N.succ d) (String c' r')) as [[vs rest']|] eqn:Ee;
        [|discriminate].
      intros [= <- <-]. destruct (IHe _ _ _ _ Ee) as [L He]. cbn [String.length] in L, He.
      split; [lia|]. intros [|f'] Hf'; [lia|].
      rewrite parse_value_eq, Es, E1, E2, Ed, Er, E3, He by lia. reflexivity. }
  destruct (c =? dquote)%char eqn:E3.
  { destruct (scan_string r) as [[str rest']|] eqn:Ss; [|discriminate].
    intros H. apply (Tok _ H).
    - intros f'. now rewrite parse_value_eq, Es, E1, E2, E3, Ss.
    - injection H as _ <-. apply scan_string_loop_length in Ss. lia. }
  destruct ((c =? "-")%char || is_digit c) eqn:E4.
  { destruct (scan_number (String c r)) as [[lit rest']|] eqn:Sn; [|discriminate].
    intros H. apply (Tok _ H).
    - intros f'. now rewrite parse_value_eq, Es, E1, E2, E3, E4, Sn.
    - injection H as _ <-. apply scan_number_length in Sn. cbn in Sn. lia. }
  assert (Lit : forall p w, option_map (fun rest => (w, rest)) (strip_prefix p (String c r))
                            = Some (v, rest) ->
                            (1 <= String.length p)%nat ->
                            (String.length rest <= String.length r)%nat).
  { intros p w H Lp. destruct (strip_prefix p (String c r)) as [x|] eqn:Ex; [|discriminate].
    injection H as _ <-. apply strip_prefix_length in Ex. cbn in Ex. lia. }
  destruct (c =? "t")%char eqn:E5.
  { intros H. apply (Tok _ H).
    - intros f'. now rewrite parse_value_eq, Es, E1, E2, E3, E4, E5.
    - apply (Lit _ _ H). cbn. lia. }
  destruct (c =? "f")%char eqn:E6.
  { intros H. apply (Tok _ H).
    - intros f'. now rewrite parse_value_eq, Es, E1, E2, E3, E4, E5, E6.
    - apply (Lit _ _ H). cbn. lia. }
  destruct (c =? "n")%char eqn:E7; [|discriminate].
  intros H. apply (Tok _ H).
  - intros f'. now rewrite parse_value_eq, Es, E1, E2, E3, E4, E5, E6, E7.
  - apply (Lit _ _ H). cbn. lia.
Qed.

Lemma fuel_elems_step (f : nat) :
  fuel_ok_value f -> fuel_ok_elems f -> fuel_ok_elems (S f).
Proof.
  intros IHv IHe d s vs rest. rewrite parse_elems_eq.
  destruct (parse_value f d s) as [[v r]|] eqn:Ev; [|discriminate].
  destruct (IHv _ _ _ _ Ev) as [Lv Hv].
  destruct (skip_ws r) as [|c r'] eqn:Er; [discriminate|].
  pose proof (skip_ws_cons_length _ _ _ Er) as Lr.
  destruct (c =? ",")%char eqn:E1.
  - destruct (parse_elems f d r') as [[vs' rest']|] eqn:Ee; [|discriminate].
    intros [= <- <-]. destruct (IHe _ _ _ _ Ee) as [L He].
    split; [lia|]. intros [|f'] Hf'; [lia|].
    rewrite parse_elems_eq, Hv, Er, E1, He by lia. reflexivity.
  - destruct (c =? "]")%char eqn:E2; [|discriminate].
    intros [= <- <-]. split; [lia|]. intros [|f'] Hf'; [lia|].
    rewrite parse_elems_eq, Hv, Er, E1, E2 by lia. reflexivity.
Qed.

Lemma fuel_members_step (f : nat) :
  fuel_ok_value f -> fuel_ok_members f -> fuel_ok_members (S f).
Proof.
  intros IHv IHm d s ms rest. rewrite parse_members_eq.
  destruct (skip_ws s) as [|q r0] eqn:Es; [discriminate|].
  pose proof (skip_ws_cons_length _ _ _ Es) as Ls.
  destruct (q =? dquote)%char eqn:Eq; [|discriminate].
  destruct (scan_string r0) as [[key r1]|] eqn:Ss; [|discriminate].
  pose proof (scan_string_loop_length _ _ _ _ Ss) as L1.
  destruct (skip_ws r1) as [|c1 r2] eqn:E1; [discriminate|].
  pose proof (skip_ws_cons_length _ _ _ E1) as L2.
  destruct (c1 =? ":")%char eqn:Ec; [|discriminate].
  destruct (parse_value f d r2) as [[v r3]|] eqn:Ev; [|discriminate].
  destruct (IHv _ _ _ _ Ev) as [Lv Hv].
  destruct (skip_ws r3) as [|c r'] eqn:E3; [discriminate|].
  pose proof (skip_ws_cons_length _ _ _ E3) as L3.
  destruct (c =? ",")%char eqn:E4.
  - destruct (parse_members f d r') as [[ms' rest']|] eqn:Em; [|discriminate].
    intros [= <- <-]. destruct (IHm _ _ _ _ Em) as [L Hm].
    split; [lia|]. intros [|f'] Hf'; [lia|].
    rewrite parse_members_eq, Es, Eq, Ss, E1, Ec, Hv, E3, E4, Hm by lia. reflexivity.
  - destruct (c =? "}")%char eqn:E5; [|discriminate].
    intros [= <- <-]. split; [lia|]. intros [|f'] Hf'; [lia|].
    rewrite parse_members_eq, Es, Eq, Ss, E1, Ec, Hv, E3, E4, E5 by lia. reflexivity.
Qed.

Lemma fuel_ok (f : nat) : fuel_ok_value f /\ fuel_ok_elems f /\ fuel_ok_members f.
Proof.
  induction f as [|f (IHv & IHe & IHm)].
  - split; [|split]; intros d s x rest E; discriminate E.
  - split; [|split].
    + now apply fuel_value_step.
    + now apply fuel_elems_step.
    + now apply fuel_members_step.
Qed.

(** If some amount of fuel lets the parser read a whole text, the fuel
    [parse_json] gives it does; so [parse_json] answers [None] only for
    the texts that no amount of fuel parses. *)
Theorem parse_json_complete (f : nat) (data : string) (v : jvalue) (rest : string) :
  parse_value f 0 data = Some (v, rest) -> skip_ws rest = EmptyString ->
  parse_json data = Some v.
Proof.
  intros H Hr. destruct (fuel_ok f) as (Hv & _). destruct (Hv _ _ _ _ H) as [L Hf].
  unfold parse_json. rewrite Hf by lia. now rewrite Hr.
Qed.

End ParserFacts.

(** ** Marshal and Unmarshal at [[]*pb.Post] *)

Module CodecFacts.
Import Bytes BytesFacts Utf8 Utf8Facts Json JsonStringFacts NumberFacts Strconv.
Import ParserFacts Pb JsonPosts WellFormed.

Lemma wf_post_iff (p : Post) :
  wf_post p = true <->
  ValidString (Title p) = true /\ ValidString (Content p) = true /\
  ValidString (CreatedAt p) = true /\ ValidString (Author p) = true /\
  in_int64 (ViewCount p) = true /\ ValidString (LastViewed p) = true.
Proof. unfold wf_post. rewrite !andb_true_iff. tauto. Qed.

Lemma wf_elems_iff (l : list (option Post)) :
  forallb wf_elem l = true <-> Forall (fun e => wf_elem e = true) l.
Proof. rewrite forallb_forall, Forall_forall. reflexivity. Qed.

(** *** What the encoder produces *)

Lemma wf_string_member (name value : string) :
  ValidString name = true -> ValidString value = true ->
  Forall wf_member (string_member name value).
Proof.
  intros Hn Hv. unfold string_member. destruct (value =? "")%string; constructor.
  - split; [exact Hn | now constructor].
  - constructor.
Qed.

Lemma wf_int_member (name : string) (value : Z) :
  ValidString name = true -> Forall wf_member (int_member name value).
Proof.
  intros Hn. unfold int_member. destruct (value =? 0)%Z; constructor.
  - split; [exact Hn | constructor].
  - constructor.
Qed.

Lemma length_string_member (name value : string) :
  (List.length (string_member name value) <= 1)%nat.
Proof. unfold string_member. destruct (value =? "")%string; cbn; lia. Qed.

Lemma length_int_member (name : string) (value : Z) :
  (List.length (int_member name value) <= 1)%nat.
Proof. unfold int_member. destruct (value =? 0)%Z; cbn; lia. Qed.

Lemma encode_elem_shape (e : option Post) :
  wf_elem e = true -> elem_shape (encode_elem e) /\ (need (encode_elem e) <= 8)%nat.
Proof.
  destruct e as [p|]; cbn [wf_elem encode_elem]; [|split; [constructor | cbn; lia]].
  intros W. apply wf_post_iff in W as (H1 & H2 & H3 & H4 & H5 & H6).
  unfold encode_post. split.
  - constructor.
    repeat (apply Forall_app; split);
      (apply wf_string_member || apply wf_int_member); (reflexivity || assumption).
  - cbn [need]. rewrite !length_app.
    pose proof (length_string_member "Title" (Title p)).
    pose proof (length_string_member "Content" (Content p)).
    pose proof (length_string_member "CreatedAt" (CreatedAt p)).
    pose proof (length_string_member "Author" (Author p)).
    pose proof (length_int_member "ViewCount" (ViewCount p)).
    pose proof (length_string_member "LastViewed" (LastViewed p)).
    lia.
Qed.

(** The parser reads the text of [MarshalIndent] back to the value tree
    it was rendered from. *)
Lemma parse_json_MarshalIndent (sl : PostSlice) :
  wf_slice sl = true -> parse_json (MarshalIndent sl) = Some (encode_slice sl).
Proof.
  unfold MarshalIndent. destruct sl as [l|]; [|reflexivity].
  cbn [wf_slice encode_slice]. intros W. apply wf_elems_iff in W.
  destruct l as [|e l]; [reflexivity|].
  remember (e :: l) as es eqn:Ees.
  assert (Hne : map encode_elem es <> []) by (subst es; discriminate).
  apply (parse_json_complete (S (List.length (map encode_elem es) + 8)) _ _ EmptyString);
    [|reflexivity].
  apply parse_array_text; [assumption | |]; apply Forall_map;
    eapply Forall_impl; [|exact W| |exact W]; intros x Hx; now apply encode_elem_shape.
Qed.

(** *** Decoding what was encoded *)

Lemma decode_object_app (a b : list (string * jvalue)) (p : Post) :
  decode_object (a ++ b) p =
  match decode_object a p with
  | Some p' => decode_object b p'
  | None => None
  end.
Proof.
  revert p. induction a as [|[k v] a IH]; intros p; cbn [decode_object List.app];
    [reflexivity|].
  destruct (find_field k); [|apply IH]. destruct (set_field _ v p); [apply IH | reflexivity].
Qed.

Lemma find_Title : find_field "Title" = Some FTitle.
Proof. vm_compute. reflexivity. Qed.
Lemma find_Content : find_field "Content" = Some FContent.
Proof. vm_compute. reflexivity. Qed.
Lemma find_CreatedAt : find_field "CreatedAt" = Some FCreatedAt.
Proof. vm_compute. reflexivity. Qed.
Lemma find_Author : find_field "Author" = Some FAuthor.
Proof. vm_compute. reflexivity. Qed.
Lemma find_ViewCount : find_field "ViewCount" = Some FViewCount.
Proof. vm_compute. reflexivity. Qed.
Lemma find_LastViewed : find_field "LastViewed" = Some FLastViewed.
Proof. vm_compute. reflexivity. Qed.

Lemma decode_string_member (name value : string) (f : field) (p p' : Post) :
  find_field name = Some f ->
  set_field f (JString value) p = Some p' ->
  (value = EmptyString -> p' = p) ->
  decode_object (string_member name value) p = Some p'.
Proof.
  intros Hf Hs He. unfold string_member.
  destruct (String.eqb_spec value ""); cbn [decode_object].
  - now rewrite He.
  - now rewrite Hf, Hs.
Qed.

Lemma decode_int_member (name : string) (value : Z) (p : Post) :
  find_field name = Some FViewCount -> in_int64 value = true -> ViewCount p = 0%Z ->
  decode_object (int_member name value) p = Some (set_ViewCount value p).
Proof.
  intros Hf Hr Hz. unfold int_member.
  destruct (Z.eqb_spec value 0); cbn [decode_object].
  - subst value. destruct p; cbn in *; now subst.
  - rewrite Hf. cbn [set_field]. now rewrite ParseInt_FormatInt.
Qed.

Lemma decode_encode_post (p : Post) :
  in_int64 (ViewCount p) = true ->
  decode_object
    (string_member "Title" (Title p) ++ string_member "Content" (Content p) ++
     string_member "CreatedAt" (CreatedAt p) ++ string_member "Author" (Author p) ++
     int_member "ViewCount" (ViewCount p) ++
     string_member "LastViewed" (LastViewed p))%list zero_post
  = Some p.
Proof.
  intros R. destruct p as [t c ca a v l]. cbn [Title Content CreatedAt Author ViewCount LastViewed] in *.
  rewrite decode_object_app,
    (decode_string_member "Title" t FTitle zero_post (mkPost t "" "" "" 0 ""))
    by (reflexivity || (intros ->; reflexivity)).
  rewrite decode_object_app,
    (decode_string_member "Content" c FContent _ (mkPost t c "" "" 0 ""))
    by (reflexivity || (intros ->; reflexivity)).
  rewrite decode_object_app,
    (decode_string_member "CreatedAt" ca FCreatedAt _ (mkPost t c ca "" 0 ""))
    by (reflexivity || (intros ->; reflexivity)).
  rewrite decode_object_app,
    (decode_string_member "Author" a FAuthor _ (mkPost t c ca a 0 ""))
    by (reflexivity || (intros ->; reflexivity)).
  rewrite decode_object_app, decode_int_member by (reflexivity || assumption).
  apply (decode_string_member "LastViewed" l FLastViewed); try reflexivity.
  intros ->; reflexivity.
Qed.

Lemma decode_encode_elems (l : list (option Post)) :
  Forall (fun e => wf_elem e = true) l ->
  decode_elems (map encode_elem l) = Some l.
Proof.
  induction 1 as [|e l He Hl IH]; cbn [map decode_elems]; [reflexivity|].
  rewrite IH. destruct e as [p|]; cbn [encode_elem decode_elem]; [|reflexivity].
  unfold encode_post. cbn [decode_elem].
  cbn [wf_elem] in He. apply wf_post_iff in He.
  rewrite decode_encode_post by tauto. reflexivity.
Qed.

Lemma decode_encode_slice (sl : PostSlice) :
  wf_slice sl = true -> decode_slice (encode_slice sl) = Some sl.
Proof.
  destruct sl as [l|]; [|reflexivity]. cbn [wf_slice encode_slice decode_slice].
  intros W. apply wf_elems_iff in W. now rewrite decode_encode_elems.
Qed.

(** Unmarshal inverts MarshalIndent on well-formed slices. *)
Theorem Unmarshal_MarshalIndent (sl : PostSlice) :
  wf_slice sl = true -> Unmarshal (MarshalIndent sl) = inr sl.
Proof.
  intros W. unfold Unmarshal.
  now rewrite parse_json_MarshalIndent, decode_encode_slice.
Qed.

(** *** Whatever Unmarshal returns is well-formed *)

Definition str_ok (v : jvalue) : Prop :=
  match v with
  | JString s => ValidString s = true
  | _ => True
  end.

Definition obj_ok (v : jvalue) : Prop :=
  match v with
  | JObject ms => Forall (fun kv => str_ok (snd kv)) ms
  | _ => True
  end.

Definition arr_ok (v : jvalue) : Prop :=
  match v with
  | JArray vs => Forall obj_ok vs
  | _ => True
  end.

Lemma parse_ok (f : nat) :
  (forall d s v rest, parse_value f d s = Some (v, rest) ->
                      str_ok v /\ obj_ok v /\ arr_ok v) /\
  (forall d s vs rest, parse_elems f d s = Some (vs, rest) -> Forall obj_ok vs) /\
  (forall d s ms rest, parse_members f d s = Some (ms, rest) ->
                       Forall (fun kv => str_ok (snd kv)) ms).
Proof.
  induction f as [|f (IHv & IHe & IHm)]; [repeat split; discriminate|].
  split; [|split].
  - intros d s v rest. rewrite parse_value_eq.
    destruct (skip_ws s) as [|c r]; [discriminate|].
    destruct (c =? "{")%char.
    { destruct (maxNestingDepth <? N.succ d)%N; [discriminate|].
      destruct (skip_ws r) as [|c' r']; [discriminate|].
      destruct (c' =? "}")%char; [intros [= <- <-]; cbn; auto|].
      destruct (parse_members f (N.succ d) (String c' r')) as [[ms rest']|] eqn:Em;
        [|discriminate].
      intros [= <- <-]. cbn. eauto. }
    destruct (c =? "[")%char.
    { destruct (maxNestingDepth <? N.succ d)%N; [discriminate|].
      destruct (skip_ws r) as [|c' r']; [discriminate|].
      destruct (c' =? "]")%char; [intros [= <- <-]; cbn; auto|].
      destruct (parse_elems f (N.succ d) (String c' r')) as [[vs rest']|] eqn:Ee;
        [|discriminate].
      intros [= <- <-]. cbn. eauto. }
    destruct (c =? dquote)%char.
    { destruct (scan_string r) as [[str rest']|] eqn:Ss; [|discriminate].
      intros [= <- <-]. cbn. split; [|auto]. eapply scan_string_Valid, Ss. }
    destruct ((c =? "-")%char || is_digit c).
    { destruct (scan_number (String c r)) as [[lit rest']|]; [|discriminate].
      intros [= <- <-]. cbn. auto. }
    destruct (c =? "t")%char.
    { destruct (strip_prefix "true" (String c r)); [|discriminate].
      intros [= <- <-]. cbn. auto. }
    destruct (c =? "f")%char.
    { destruct (strip_prefix "false" (String c r)); [|discriminate].
      intros [= <- <-]. cbn. auto. }
    destruct (c =? "n")%char; [|discriminate].
    destruct (strip_prefix "null" (String c r)); [|discriminate].
    intros [= <- <-]. cbn. auto.
  - intros d s vs rest. rewrite parse_elems_eq.
    destruct (parse_value f d s) as [[v r]|] eqn:Ev; [|discriminate].
    destruct (IHv _ _ _ _ Ev) as (_ & Ho & _).
    destruct (skip_ws r) as [|c r']; [discriminate|].
    destruct (c =? ",")%char.
    + destruct (parse_elems f d r') as [[vs' rest']|] eqn:Ee; [|discriminate].
      intros [= <- <-]. constructor; eauto.
    + destruct (c =? "]")%char; [|discriminate].
      intros [= <- <-]. constructor; auto.
  - intros d s ms rest. rewrite parse_members_eq.
    destruct (skip_ws s) as [|q r0]; [discriminate|].
    destruct (q =? dquote)%char; [|discriminate].
    destruct (scan_string r0) as [[key r1]|]; [|discriminate].
    destruct (skip_ws r1) as [|c1 r2]; [discriminate|].
    destruct (c1 =? ":")%char; [|discriminate].
    destruct (parse_value f d r2) as [[v r3]|] eqn:Ev; [|discriminate].
    destruct (IHv _ _ _ _ Ev) as (Hs & _).
    destruct (skip_ws r3) as [|c r']; [discriminate|].
    destruct (c =? ",")%char.
    + destruct (parse_members f d r') as [[ms' rest']|] eqn:Em; [|discriminate].
      intros [= <- <-]. constructor; eauto.
    + destruct (c =? "}")%char; [|discriminate].
      intros [= <- <-]. constructor; auto.
Qed.

Lemma parse_json_ok (data : string) (v : jvalue) :
  parse_json data = Some v -> arr_ok v.
Proof.
  unfold parse_json.
  destruct (parse_value _ 0 data) as [[v' rest]|] eqn:E; [|discriminate].
  destruct (skip_ws rest); [|discriminate]. intros [= <-].
  destruct (parse_ok (2 * String.length data + 2)) as (Hv & _).
  now apply Hv in E.
Qed.

Lemma ParseInt_in_int64 (lit : string) (n : Z) :
  ParseInt lit = Some n -> in_int64 n = true.
Proof.
  unfold ParseInt.
  destruct (match lit with
            | String c r =>
              if (c =? "-")%char then (true, r)
              else if (c =? "+")%char then (false, r) else (false, lit)
            | EmptyString => (false, lit)
            end) as [neg digits].
  destruct (NilZero.uint_of_string digits) as [d|]; [|discriminate].
  destruct (in_int64 (if neg then (- Z.of_uint d)%Z else Z.of_uint d)) eqn:R;
    [|discriminate].
  now intros [= <-].
Qed.

Lemma set_field_wf (f : field) (v : jvalue) (p p' : Post) :
  set_field f v p = Some p' -> str_ok v -> wf_post p = true -> wf_post p' = true.
Proof.
  intros H Hv W. apply wf_post_iff in W as (H1 & H2 & H3 & H4 & H5 & H6).
  apply wf_post_iff.
  destruct f, v; cbn [set_field] in H; try discriminate;
    try (injection H as <-; cbn; tauto).
  destruct (ParseInt lit) as [n|] eqn:E; [|discriminate].
  injection H as <-. apply ParseInt_in_int64 in E. cbn. tauto.
Qed.

Lemma decode_object_wf (ms : list (string * jvalue)) (p p' : Post) :
  decode_object ms p = Some p' -> Forall (fun kv => str_ok (snd kv)) ms ->
  wf_post p = true -> wf_post p' = true.
Proof.
  revert p. induction ms as [|[k v] ms IH]; intros p; cbn [decode_object].
  - now intros [= <-].
  - intros H F W. apply Forall_cons_iff in F as [Hv F]. cbn [snd] in Hv.
    destruct (find_field k) as [f|]; [|now apply (IH p)].
    destruct (set_field f v p) as [p1|] eqn:E; [|discriminate].
    apply (IH p1); [assumption | assumption |]. eapply set_field_wf; eauto.
Qed.

Lemma decode_elems_wf (vs : list jvalue) (l : list (option Post)) :
  decode_elems vs = Some l -> Forall obj_ok vs -> forallb wf_elem l = true.
Proof.
  revert l. induction vs as [|v vs IH]; intros l; cbn [decode_elems].
  - now intros [= <-].
  - intros H F. apply Forall_cons_iff in F as [Hv F].
    destruct (decode_elem v) as [e|] eqn:Ee; [|discriminate].
    destruct (decode_elems vs) as [es|]; [|discriminate].
    injection H as <-. cbn [forallb]. rewrite (IH es eq_refl F), andb_true_r.
    destruct v as [| | | | | |ms]; cbn [decode_elem] in Ee; try discriminate.
    + now injection Ee as <-.
    + destruct (decode_object ms zero_post) as [p|] eqn:Ed; [|discriminate].
      injection Ee as <-. cbn [wf_elem]. eapply decode_object_wf; eauto.
Qed.

(** The strings Unmarshal stores are valid UTF-8 and the view counts
    are int64 values, whatever the text was. *)
Theorem Unmarshal_wf (data : string) (sl : PostSlice) :
  Unmarshal data = inr sl -> wf_slice sl = true.
Proof.
  unfold Unmarshal. destruct (parse_json data) as [v|] eqn:Ep; [|discriminate].
  apply parse_json_ok in Ep.
  destruct (decode_slice v) as [sl'|] eqn:Ed; [|discriminate].
  intros [= <-]. destruct v as [| | | | |vs|]; cbn [decode_slice] in Ed;
    try discriminate.
  - now injection Ed as <-.
  - destruct (decode_elems vs) as [l|] eqn:El; [|discriminate].
    injection Ed as <-. cbn [wf_slice]. eapply decode_elems_wf; eauto.
Qed.

End CodecFacts.

(** ** The codec on sample texts *)

Module CodecExamples.
Import Utf8 Json Pb JsonPosts Main Examples.

Example MarshalIndent_layout :
  MarshalIndent (Some [Some (mkPost "A" "x<y" "" "" 3 ""); None; Some zero_post])
  = "[" ++ nl ++
    "  {" ++ nl ++
    "    " ++ quoted "Title" ++ ": " ++ quoted "A" ++ "," ++ nl ++
    "    " ++ quoted "Content" ++ ": " ++ quoted "x\u003cy" ++ "," ++ nl ++
    "    " ++ quoted "ViewCount" ++ ": 3" ++ nl ++
    "  }," ++ nl ++
    "  null," ++ nl ++
    "  {}" ++ nl ++
    "]".
Proof. vm_compute. reflexivity. Qed.

Example MarshalIndent_nil_slice : MarshalIndent None = "null".
Proof. reflexivity. Qed.

Example MarshalIndent_empty_slice : MarshalIndent (Some []) = "[]".
Proof. reflexivity. Qed.

Example Unmarshal_folds_keys :
  Unmarshal ("[{" ++ quoted "title" ++ ":" ++ quoted "A" ++ "," ++
             quoted "VIEWCOUNT" ++ ": 7, " ++ quoted "extra" ++ ": [1, {}]}]")
  = inr (Some [Some (mkPost "A" "" "" "" 7 "")]).
Proof. vm_compute. reflexivity. Qed.

Example Unmarshal_last_duplicate_wins :
  Unmarshal ("[{" ++ quoted "Title" ++ ":" ++ quoted "A" ++ "," ++
             quoted "Title" ++ ":" ++ quoted "B" ++ "," ++
             quoted "Title" ++ ": null}]")
  = inr (Some [Some (mkPost "B" "" "" "" 0 "")]).
Proof. vm_compute. reflexivity. Qed.

Example Unmarshal_unescapes :
  Unmarshal ("[{" ++ quoted "Title" ++ ":" ++ quoted "é\n😀\ud83d" ++ "}]")
  = inr (Some [Some (mkPost (EncodeRune 0xE9 ++ nl ++ EncodeRune 0x1F600 ++
                             EncodeRune RuneError) "" "" "" 0 "")]).
Proof. vm_compute. reflexivity. Qed.

Example Unmarshal_rejects :
  Unmarshal "" = inl SyntaxError /\
  Unmarshal "[" = inl SyntaxError /\
  Unmarshal "[{}] x" = inl SyntaxError /\
  Unmarshal "[01]" = inl SyntaxError /\
  Unmarshal "{}" = inl UnmarshalTypeError /\
  Unmarshal "[1]" = inl UnmarshalTypeError /\
  Unmarshal ("[{" ++ quoted "Title" ++ ": 1}]") = inl UnmarshalTypeError /\
  Unmarshal ("[{" ++ quoted "ViewCount" ++ ": 1.0}]") = inl UnmarshalTypeError /\
  Unmarshal ("[{" ++ quoted "ViewCount" ++ ": 9223372036854775808}]")
  = inl UnmarshalTypeError.
Proof. vm_compute. repeat split. Qed.

End CodecExamples.

(** ** Dates and counters *)

Module ValueFacts.
Import Bytes BytesFacts Utf8 Utf8Facts Strconv Pb WellFormed Main Spec.

Fixpoint all_ascii (s : string) : Prop :=
  match s with
  | EmptyString => True
  | String c r => (byte_val c < 0x80)%N /\ all_ascii r
  end.

Lemma all_ascii_Valid (s : string) : all_ascii s -> Valid s.
Proof.
  induction s as [|c r IH]; cbn; [constructor|].
  intros [Hc Hr]. apply Valid_ascii; auto.
Qed.

Lemma all_ascii_cons (c : ascii) (r : string) :
  (byte_val c < 0x80)%N -> all_ascii r -> all_ascii (String c r).
Proof. now split. Qed.

Lemma all_ascii_app (a b : string) : all_ascii a -> all_ascii b -> all_ascii (a ++ b).
Proof. induction a as [|c a IH]; cbn; [auto|]. intros [H1 H2] Hb. auto. Qed.

Lemma all_ascii_uint (d : uint) : all_ascii (NilEmpty.string_of_uint d).
Proof. induction d; cbn; auto; split; auto; reflexivity. Qed.

Lemma all_ascii_FormatInt (z : Z) : all_ascii (FormatInt z).
Proof.
  unfold FormatInt.
  assert (U : forall d, all_ascii (NilZero.string_of_uint d)).
  { intros d. unfold NilZero.string_of_uint.
    destruct d; try apply all_ascii_uint. cbn. split; [reflexivity | exact I]. }
  destruct (Z.to_int z); cbn [NilZero.string_of_int]; [apply U|].
  split; [reflexivity | apply U].
Qed.

Lemma all_ascii_zeros (n : nat) : all_ascii (repeat "0" n).
Proof. induction n as [|n IH]; cbn; auto. split; [reflexivity | exact IH]. Qed.

Lemma all_ascii_appendInt (x : Z) (width : nat) : all_ascii (appendInt x width).
Proof.
  unfold appendInt. cbv zeta. apply all_ascii_app.
  - destruct (x <? 0)%Z; cbn; [split; [reflexivity | exact I] | exact I].
  - apply all_ascii_app; [apply all_ascii_zeros | apply all_ascii_FormatInt].
Qed.

(** A formatted date is ASCII, hence valid UTF-8. *)
Lemma Format_valid (t : Time.t) : ValidString (Time.Format t) = true.
Proof.
  apply Valid_ValidString, all_ascii_Valid. unfold Time.Format.
  apply all_ascii_app; [apply all_ascii_appendInt|].
  apply (all_ascii_cons "-"); [reflexivity|].
  apply all_ascii_app; [apply all_ascii_appendInt|].
  apply (all_ascii_cons "-"); [reflexivity|]. apply all_ascii_appendInt.
Qed.

Lemma int64_add_range (a b : Z) : in_int64 (int64_add a b) = true.
Proof.
  unfold in_int64, int64_add, minInt64, maxInt64.
  pose proof (Z.mod_pos_bound (a + b + 2 ^ 63) (2 ^ 64) ltac:(lia)).
  apply andb_true_iff. split; apply Z.leb_le; lia.
Qed.

(** The increment, on an int64 below the maximum, is the successor; at
    the maximum it wraps to the minimum. *)
Lemma int64_incr (a : Z) :
  in_int64 a = true ->
  int64_add a 1 = (if (a =? maxInt64)%Z then minInt64 else a + 1)%Z.
Proof.
  unfold in_int64, int64_add, minInt64, maxInt64. intros R.
  apply andb_true_iff in R as [R1 R2]. apply Z.leb_le in R1, R2.
  destruct (Z.eqb_spec a (2 ^ 63 - 1)) as [->|N]; [reflexivity|].
  rewrite Z.mod_small by lia. lia.
Qed.

Lemma wf_touch (d : string) (p : Post) :
  ValidString d = true -> wf_post p = true -> wf_post (touch d p) = true.
Proof.
  intros Hd W. apply CodecFacts.wf_post_iff in W as (H1 & H2 & H3 & H4 & H5 & H6).
  apply CodecFacts.wf_post_iff. cbn. rewrite int64_add_range. tauto.
Qed.

End ValueFacts.

(** ** The server operations, step by step *)

Module ServerFacts.
Import Bytes Utf8 Strconv Pb JsonPosts Errors Runtime Main WellFormed Spec.
Import CodecFacts ValueFacts.

Section WithEnv.
Variable env : Env.

(** The posts of [l] after the loop of GetPosts that starts at clock
    reading [t]. *)
Fixpoint touch_from (t : nat) (l : list (option Post)) : list (option Post) :=
  match l with
  | [] => []
  | e :: r => option_map (touch (today env t)) e :: touch_from (S t) r
  end.

Definition touched (t : nat) (sl : PostSlice) : PostSlice :=
  option_map (touch_from t) sl.

Lemma length_touch_from (t : nat) (l : list (option Post)) :
  List.length (touch_from t l) = List.length l.
Proof. revert t. induction l as [|e r IH]; intros t; cbn; [reflexivity | now rewrite IH]. Qed.

Lemma len_touched (t : nat) (sl : PostSlice) : len (touched t sl) = len sl.
Proof. destruct sl; [apply length_touch_from | reflexivity]. Qed.

Lemma nth_touch_from (t : nat) (l : list (option Post)) (i : nat) :
  nth_error (touch_from t l) i =
  option_map (option_map (touch (today env (t + i)))) (nth_error l i).
Proof.
  revert t i. induction l as [|e r IH]; intros t [|i]; cbn; try reflexivity.
  - now rewrite Nat.add_0_r.
  - rewrite IH. now rewrite Nat.add_succ_r.
Qed.

Lemma nth_touched (t : nat) (sl : PostSlice) (i : nat) :
  nth_error (elems (touched t sl)) i =
  option_map (option_map (touch (today env (t + i)))) (nth_error (elems sl) i).
Proof.
  destruct sl as [l|]; cbn [touched option_map elems]; [apply nth_touch_from|].
  now destruct i.
Qed.

Lemma wf_touch_from (t : nat) (l : list (option Post)) :
  forallb wf_elem l = true -> forallb wf_elem (touch_from t l) = true.
Proof.
  revert t. induction l as [|e r IH]; intros t; cbn [touch_from forallb]; [auto|].
  intros H. apply andb_true_iff in H as [He Hr]. rewrite IH by assumption.
  rewrite andb_true_r. destruct e as [p|]; [|reflexivity].
  cbn. apply wf_touch; [apply Format_valid | exact He].
Qed.

Lemma wf_touched (t : nat) (sl : PostSlice) :
  wf_slice sl = true -> wf_slice (touched t sl) = true.
Proof. destruct sl; [apply wf_touch_from | reflexivity]. Qed.

(** The loop of GetPosts runs to its end when no entry is nil. *)
Lemma touch_loop_ok (l : list (option Post)) (st : State) :
  Forall (fun e : option Post => e <> None) l ->
  touch_loop env st l =
  (mkState (file st) (ticks st + List.length l) (reads st) (writes st),
   Some (touch_from (ticks st) l)).
Proof.
  intros H. revert st. induction H as [|e r He Hr IH]; intros st; cbn [touch_loop].
  - rewrite Nat.add_0_r. now destruct st.
  - destruct e as [p|]; [|congruence]. unfold Now. rewrite IH. cbn.
    now rewrite Nat.add_succ_r.
Qed.

(** It panics at the first nil entry, the file untouched. *)
Lemma touch_loop_nil (l : list (option Post)) (st : State) :
  ~ Forall (fun e : option Post => e <> None) l ->
  exists st', touch_loop env st l = (st', None) /\ file st' = file st /\
              writes st' = writes st.
Proof.
  revert st. induction l as [|e r IH]; intros st H.
  - exfalso. apply H. constructor.
  - cbn [touch_loop]. destruct e as [p|]; [|now exists st].
    unfold Now. cbn zeta.
    destruct (IH (mkState (file st) (S (ticks st)) (reads st) (writes st)))
      as (st' & E & Hf & Hw).
    { intros F. apply H. constructor; [discriminate | exact F]. }
    rewrite E. exists st'. now split.
Qed.

Lemma touch_slice_ok (sl : PostSlice) (st : State) :
  no_nil sl ->
  touch_slice env st sl =
  (mkState (file st) (ticks st + len sl) (reads st) (writes st),
   Some (touched (ticks st) sl)).
Proof.
  intros H. destruct sl as [l|]; cbn [touch_slice touched option_map].
  - unfold no_nil in H. cbn [elems] in H. now rewrite touch_loop_ok.
  - unfold len. cbn. rewrite Nat.add_0_r. now destruct st.
Qed.

(** *** Load and Save *)

Definition after_read (st : State) : State :=
  mkState (file st) (ticks st) (S (reads st)) (writes st).

Lemma loadPost_ok (st : State) (posts : Posts) (data : string) (sl : PostSlice) :
  read_fault env (reads st) = None -> file st = Some data ->
  Unmarshal data = inr sl ->
  loadPost env st posts = (after_read st, mkPosts sl, None).
Proof.
  intros Hr Hf Hu. unfold loadPost, ReadFile, after_read. now rewrite Hr, Hf, Hu.
Qed.

Lemma loadPost_inv (st st1 : State) (posts posts1 : Posts) :
  loadPost env st posts = (st1, posts1, None) ->
  st1 = after_read st /\ read_fault env (reads st) = None /\
  exists data, file st = Some data /\ Unmarshal data = inr (Posts_ posts1).
Proof.
  unfold loadPost, ReadFile, after_read.
  destruct (read_fault env (reads st)) as [[e|e]|] eqn:Hr; try discriminate.
  destruct (file st) as [data|] eqn:Hf; [|discriminate].
  destruct (Unmarshal data) as [e|sl] eqn:E; [discriminate|].
  intros [= <- <-]. split; [reflexivity|]. split; [reflexivity|].
  exists data. split; [reflexivity | exact E].
Qed.

Lemma loads_iff (st : State) (sl : PostSlice) :
  loads env st sl <-> read_fault env (reads st) = None /\ holds st sl.
Proof.
  unfold loads, holds. split.
  - intros (st1 & H). apply loadPost_inv in H as (_ & Hr & data & Hf & Hu). eauto.
  - intros (Hr & data & Hf & Hu). eexists. now apply loadPost_ok with (data := data).
Qed.

Lemma loads_loadPost (st : State) (sl : PostSlice) (posts : Posts) :
  loads env st sl -> loadPost env st posts = (after_read st, mkPosts sl, None).
Proof.
  intros H. apply loads_iff in H as (Hr & data & Hf & Hu). now apply loadPost_ok with (data := data).
Qed.

Lemma loads_wf (st : State) (sl : PostSlice) : loads env st sl -> wf_slice sl = true.
Proof.
  intros H. apply loads_iff in H as (_ & data & _ & Hu). now apply Unmarshal_wf in Hu.
Qed.

Lemma loads_ticks (st : State) (sl : PostSlice) (t : nat) :
  loads env st sl ->
  loads env (mkState (file st) t (reads st) (writes st)) sl.
Proof. rewrite !loads_iff. unfold holds. cbn. auto. Qed.

Lemma holds_MarshalIndent (st : State) (sl : PostSlice) :
  file st = Some (MarshalIndent sl) -> wf_slice sl = true -> holds st sl.
Proof.
  intros Hf W. exists (MarshalIndent sl). split; [assumption|].
  now apply Unmarshal_MarshalIndent.
Qed.

Lemma savePosts_ok (st : State) (posts : Posts) :
  write_fault env (writes st) = None ->
  savePosts env st posts =
  (mkState (Some (MarshalIndent (Posts_ posts))) (ticks st) (reads st) (S (writes st)),
   None).
Proof. intros H. unfold savePosts, WriteFile. now rewrite H. Qed.

(** *** The two operations on their success path *)

Lemma GetPosts_ok (st : State) (sl : PostSlice) :
  loads env st sl -> no_nil sl -> write_fault env (writes st) = None ->
  GetPosts env st =
  (mkState (Some (MarshalIndent (touched (ticks st) sl)))
           (ticks st + len sl) (S (reads st)) (S (writes st)),
   Returns (Some (mkPosts (touched (ticks st) sl))) None).
Proof.
  intros L N W. unfold GetPosts. rewrite (loads_loadPost _ _ _ L).
  cbn [Posts_]. rewrite touch_slice_ok by assumption. cbn [after_read ticks].
  rewrite savePosts_ok by exact W. reflexivity.
Qed.

Definition new_post (t : nat) (req : option CreatePostRequest) : Post :=
  mkPost (GetTitle req) (GetContent req) (today env t)
         (GetAuthor req) 0 (today env (S t)).

Lemma CreatePost_ok (st : State) (sl : PostSlice) (req : option CreatePostRequest) :
  loads env st sl -> write_fault env (writes st) = None ->
  CreatePost env st req =
  (mkState (Some (MarshalIndent (append sl (Some (new_post (ticks st) req)))))
           (S (S (ticks st))) (S (reads st)) (S (writes st)),
   Returns (Some (new_post (ticks st) req)) None).
Proof.
  intros L W. unfold CreatePost, Now. cbn zeta. cbn [ticks file reads writes].
  rewrite (loads_loadPost _ _ _ (loads_ticks st sl (S (S (ticks st))) L)).
  cbn [Posts_ after_read file ticks reads writes].
  rewrite savePosts_ok by exact W. reflexivity.
Qed.

End WithEnv.

End ServerFacts.

(** ** Which texts Unmarshal accepts *)

Module ShapeFacts.
Import Json Pb JsonPosts WellFormed Spec NumberFacts CodecFacts.

Definition is_some {A : Type} (o : option A) : bool :=
  match o with Some _ => true | None => false end.

Lemma set_field_shape (f : field) (v : jvalue) (p : Post) :
  is_some (set_field f v p) = value_has_type true f v.
Proof.
  destruct f, v; cbn; try reflexivity; now destruct (Strconv.ParseInt lit).
Qed.

Lemma decode_object_shape (ms : list (string * jvalue)) (p : Post) :
  is_some (decode_object ms p) = record_shape true (JObject ms).
Proof.
  cbn [record_shape]. revert p.
  induction ms as [|[k v] ms IH]; intros p; cbn [decode_object forallb fst snd];
    [reflexivity|].
  destruct (find_field k) as [f|]; [|apply IH].
  rewrite <- (set_field_shape f v p).
  destruct (set_field f v p) as [p'|]; cbn [is_some andb]; [apply IH | reflexivity].
Qed.

Lemma decode_elem_shape (v : jvalue) :
  is_some (decode_elem v) = record_shape true v.
Proof.
  destruct v as [| | | | | |ms]; try reflexivity.
  rewrite <- (decode_object_shape ms zero_post). cbn [decode_elem].
  now destruct (decode_object ms zero_post).
Qed.

Lemma decode_elems_shape (vs : list jvalue) :
  is_some (decode_elems vs) = forallb (record_shape true) vs.
Proof.
  induction vs as [|v vs IH]; cbn [decode_elems forallb]; [reflexivity|].
  rewrite <- IH, <- decode_elem_shape.
  destruct (decode_elem v), (decode_elems vs); reflexivity.
Qed.

Lemma decode_slice_shape (v : jvalue) :
  is_some (decode_slice v) = sequence_shape true v.
Proof.
  destruct v as [| | | | |vs|]; try reflexivity.
  cbn [decode_slice sequence_shape]. rewrite <- decode_elems_shape.
  now destruct (decode_elems vs).
Qed.

(** Unmarshal succeeds exactly on the texts that are a serialized
    sequence of Post records in which [null] may stand for the
    sequence, for a record or for a field value. *)
Lemma Unmarshal_accepts (data : string) :
  match Unmarshal data with
  | inr _ => serialized_sequence true data = true
  | inl _ => serialized_sequence true data = false
  end.
Proof.
  unfold Unmarshal, serialized_sequence.
  destruct (parse_json data) as [v|]; [|reflexivity].
  rewrite <- decode_slice_shape. now destruct (decode_slice v).
Qed.

(** What the server writes is a serialized sequence of Post records in
    the strict sense too, as long as no entry is nil. *)
Lemma written_text_is_strict (l : list (option Post)) :
  wf_slice (Some l) = true -> no_nil (Some l) ->
  serialized_sequence false (MarshalIndent (Some l)) = true.
Proof.
  intros Wf N. unfold serialized_sequence.
  rewrite parse_json_MarshalIndent by exact Wf.
  cbn [encode_slice sequence_shape]. cbn [wf_slice] in Wf.
  unfold no_nil in N. cbn [elems] in N.
  induction N as [|e l He Hl IH]; [reflexivity|].
  cbn [forallb] in Wf. apply andb_true_iff in Wf as [We Wl].
  cbn [map forallb]. rewrite (IH Wl), andb_true_r.
  destruct e as [p|]; [|congruence]. cbn [wf_elem] in We.
  apply wf_post_iff in We as (_ & _ & _ & _ & R & _).
  cbn [encode_elem]. unfold encode_post. cbn [record_shape].
  rewrite !forallb_app. unfold string_member, int_member.
  repeat match goal with
         | |- context [if ?b then _ else _] => destruct b
         end; cbn [forallb fst snd andb];
    rewrite ?find_Title, ?find_Content, ?find_CreatedAt, ?find_Author,
      ?find_ViewCount, ?find_LastViewed;
    cbn [value_has_type andb]; rewrite ?ParseInt_FormatInt by exact R; reflexivity.
Qed.

End ShapeFacts.

(** ** The operations, read backwards *)

Module OutcomeFacts.
Import Bytes Utf8 Strconv Json Pb JsonPosts Errors Runtime Main WellFormed Spec.
Import CodecFacts ValueFacts ServerFacts.

Lemma no_nil_dec (l : list (option Post)) :
  {Forall (fun e : option Post => e <> None) l} +
  {~ Forall (fun e : option Post => e <> None) l}.
Proof.
  apply Forall_dec. intros [p|]; [left; discriminate | right; congruence].
Qed.

Lemma touch_slice_cases (env : Env) (st : State) (sl : PostSlice) :
  (no_nil sl /\
   touch_slice env st sl =
   (mkState (file st) (ticks st + len sl) (reads st) (writes st),
    Some (touched env (ticks st) sl))) \/
  (~ no_nil sl /\
   exists st', touch_slice env st sl = (st', None) /\ file st' = file st /\
               writes st' = writes st).
Proof.
  destruct sl as [l|].
  - destruct (no_nil_dec l) as [N|N].
    + left. split; [exact N | now apply touch_slice_ok].
    + right. split; [exact N|]. cbn [touch_slice].
      destruct (touch_loop_nil env l st N) as (st' & E & Hf & Hw).
      rewrite E. now exists st'.
  - left. split; [constructor | apply touch_slice_ok; constructor].
Qed.

(** A call of GetPosts that returns a collection loaded one, met no nil
    entry, and wrote the touched collection. *)
Lemma GetPosts_returns (env : Env) (st st' : State) (sl' : PostSlice) :
  GetPosts env st = (st', Returns (Some (mkPosts sl')) None) ->
  exists sl,
    loads env st sl /\ no_nil sl /\ write_fault env (writes st) = None /\
    sl' = touched env (ticks st) sl /\
    st' = mkState (Some (MarshalIndent sl')) (ticks st + len sl)
                  (S (reads st)) (S (writes st)).
Proof.
  unfold GetPosts.
  destruct (loadPost env st (mkPosts (Some []))) as [[st1 posts1] [e|]] eqn:L;
    [discriminate|].
  destruct posts1 as [sl]. cbn [Posts_].
  assert (Ls : loads env st sl) by (now exists st1).
  apply loadPost_inv in L as (-> & _).
  destruct (touch_slice_cases env (after_read st) sl) as [[N T]|[N (st2 & T & _)]];
    rewrite T; [|discriminate].
  unfold savePosts, WriteFile. cbn [after_read writes ticks reads file Posts_].
  destruct (write_fault env (writes st)) as [[e|e n]|] eqn:W; try discriminate.
  intros [= <- <-]. exists sl. repeat split; assumption.
Qed.

Lemma holds_unique (st : State) (a b : PostSlice) : holds st a -> holds st b -> a = b.
Proof.
  intros (d1 & F1 & U1) (d2 & F2 & U2). congruence.
Qed.

Lemma Forall2_touch_from (env : Env) (t : nat) (l : list (option Post)) :
  Forall2 same_entry l (touch_from env t l).
Proof.
  revert t. induction l as [|e l IH]; intros t; cbn [touch_from]; constructor;
    [|apply IH].
  destruct e as [p|]; cbn; [|exact I]. now repeat split.
Qed.

Lemma loadPost_keeps_file (env : Env) (st : State) (posts : Posts) :
  file (fst (fst (loadPost env st posts))) = file st.
Proof.
  unfold loadPost, ReadFile.
  destruct (read_fault env (reads st)) as [[e|e]|]; try reflexivity.
  destruct (file st) as [data|]; [|reflexivity].
  now destruct (Unmarshal data).
Qed.

Lemma loaded_in_int64 (env : Env) (st : State) (sl : PostSlice) (i : nat) (p : Post) :
  wf_slice sl = true -> nth_error (elems sl) i = Some (Some p) ->
  in_int64 (ViewCount p) = true.
Proof.
  intros Wf Hi.
  assert (We : wf_elem (Some p) = true).
  { destruct sl as [l|]; cbn [elems] in Hi; [|now destruct i].
    cbn [wf_slice] in Wf. rewrite forallb_forall in Wf.
    apply Wf. eapply nth_error_In, Hi. }
  cbn in We. now apply wf_post_iff in We.
Qed.

(** GetPosts on a loaded collection without nil entry, the write
    succeeding: what it returns and what it leaves in the file. *)
Lemma GetPosts_spec (env : Env) (st : State) (sl : PostSlice) :
  loads env st sl -> no_nil sl -> write_fault env (writes st) = None ->
  exists st' sl',
    GetPosts env st = (st', Returns (Some (mkPosts sl')) None) /\
    len sl' = len sl /\
    (forall i p,
        nth_error (elems sl) i = Some (Some p) ->
        exists p',
          nth_error (elems sl') i = Some (Some p') /\
          ViewCount p' = int64_add (ViewCount p) 1 /\
          (ViewCount p <> maxInt64 -> ViewCount p' = (ViewCount p + 1)%Z) /\
          LastViewed p' = today env (ticks st + i) /\
          Title p' = Title p /\ Content p' = Content p /\
          CreatedAt p' = CreatedAt p /\ Author p' = Author p) /\
    file st' = Some (MarshalIndent sl') /\
    holds st' sl'.
Proof.
  intros L N W. pose proof (loads_wf env st sl L) as Wf.
  eexists _, (touched env (ticks st) sl).
  split; [now apply GetPosts_ok|]. split; [apply len_touched|].
  split; [|split; [reflexivity|]].
  - intros i p Hi. exists (touch (today env (ticks st + i)) p).
    rewrite nth_touched, Hi. cbn.
    split; [reflexivity|]. split; [reflexivity|]. split; [|repeat split].
    intros Hm. rewrite int64_incr by (eapply loaded_in_int64; eauto).
    now destruct (Z.eqb_spec (ViewCount p) maxInt64).
  - apply holds_MarshalIndent; [reflexivity | now apply wf_touched].
Qed.

End OutcomeFacts.

(** ** One request *)

Module HandlerFacts.
Import Bytes Utf8 Strconv Json Pb JsonPosts Errors Runtime Main WellFormed Spec.
Import CodecFacts ValueFacts ServerFacts OutcomeFacts.

Section WithEnv.
Variable env : Env.

(** Load, read backwards: it fails exactly when the read fails or the
    file holds no collection. *)
Lemma loadPost_fails (st : State) (posts : Posts) :
  (forall sl, ~ loads env st sl) ->
  exists f e,
    loadPost env st posts = (after_read st, posts, Some (StatusError Internal f e)).
Proof.
  intros N. unfold loadPost, ReadFile, after_read.
  destruct (read_fault env (reads st)) as [[e|e]|] eqn:R.
  - now eexists _, _.
  - now eexists _, _.
  - destruct (file st) as [data|] eqn:F; [|now eexists _, _].
    destruct (Unmarshal data) as [e|sl] eqn:U; [now eexists _, _|].
    exfalso. apply (N sl). apply loads_iff. split; [exact R|]. now exists data.
Qed.

Lemma loads_dec (st : State) : (exists sl, loads env st sl) \/ (forall sl, ~ loads env st sl).
Proof.
  destruct (read_fault env (reads st)) as [f|] eqn:R.
  - right. intros sl L. apply loads_iff in L as [L _]. congruence.
  - destruct (file st) as [data|] eqn:F.
    + destruct (Unmarshal data) as [e|sl] eqn:U.
      * right. intros sl L. apply loads_iff in L as [_ (d & Fd & Ud)]. congruence.
      * left. exists sl. apply loads_iff. split; [exact R|]. now exists data.
    + right. intros sl L. apply loads_iff in L as [_ (d & Fd & _)]. congruence.
Qed.

Lemma loads_unique (st : State) (a b : PostSlice) : loads env st a -> loads env st b -> a = b.
Proof.
  intros A B. apply loads_iff in A as [_ A]. apply loads_iff in B as [_ B].
  exact (holds_unique st a b A B).
Qed.

(** The state in which CreatePost loads: the clock read twice. *)
Definition stamped (st : State) : State :=
  mkState (file st) (S (S (ticks st))) (reads st) (writes st).

Lemma loads_stamped (st : State) (sl : PostSlice) :
  loads env (stamped st) sl <-> loads env st sl.
Proof. rewrite !loads_iff. unfold holds, stamped. cbn. tauto. Qed.

(** GetPosts when the load fails. *)
Lemma GetPosts_load_fails (st : State) :
  (forall sl, ~ loads env st sl) ->
  exists f e,
    GetPosts env st = (after_read st, Returns None (Some (StatusError Internal f e))).
Proof.
  intros N. destruct (loadPost_fails st (mkPosts (Some [])) N) as (f & e & L).
  exists f, e. unfold GetPosts. now rewrite L.
Qed.

(** CreatePost when the load fails. *)
Lemma CreatePost_load_fails (st : State) (req : option CreatePostRequest) :
  (forall sl, ~ loads env st sl) ->
  exists e,
    CreatePost env st req
    = (after_read (stamped st),
       Returns None (Some (StatusError Internal ("failed to load posts: %v" ++ nl) e))).
Proof.
  intros N.
  assert (N' : forall sl, ~ loads env (stamped st) sl)
    by (intros sl L; apply (N sl), loads_stamped, L).
  destruct (loadPost_fails (stamped st) (mkPosts (Some [])) N') as (f & e & L).
  eexists. unfold CreatePost, Now. cbn zeta. cbn [file ticks reads writes]. fold (stamped st). now rewrite L.
Qed.

(** The entries the loop of GetPosts passes before it meets a nil
    pointer. *)
Fixpoint live_prefix (l : list (option Post)) : nat :=
  match l with
  | Some _ :: r => S (live_prefix r)
  | _ => 0
  end.

Lemma touch_loop_stops (l : list (option Post)) (st : State) :
  ~ Forall (fun e : option Post => e <> None) l ->
  touch_loop env st l =
  (mkState (file st) (ticks st + live_prefix l) (reads st) (writes st), None).
Proof.
  revert st. induction l as [|e r IH]; intros st H.
  - exfalso. apply H. constructor.
  - cbn [touch_loop live_prefix]. destruct e as [p|].
    + unfold Now. cbn zeta. rewrite IH.
      * cbn [file ticks reads writes]. do 2 f_equal. lia.
      * intros F. apply H. constructor; [discriminate | exact F].
    + destruct st. cbn. do 2 f_equal. lia.
Qed.

(** GetPosts on a loaded collection with a nil entry. *)
Lemma GetPosts_nil_entry (st : State) (sl : PostSlice) :
  loads env st sl -> ~ no_nil sl ->
  GetPosts env st =
  (mkState (file st) (ticks st + live_prefix (elems sl)) (S (reads st)) (writes st),
   Panics "invalid memory address or nil pointer dereference").
Proof.
  intros L N. unfold GetPosts. rewrite (loads_loadPost env st sl _ L). cbn [Posts_].
  destruct sl as [l|]; [|exfalso; apply N; constructor].
  cbn [touch_slice elems]. rewrite touch_loop_stops by exact N. reflexivity.
Qed.

(** GetPosts on a loaded collection without nil entry, in the three
    cases of the write. *)
Lemma GetPosts_write_cases (st : State) (sl : PostSlice) :
  loads env st sl -> no_nil sl ->
  let sl' := touched env (ticks st) sl in
  let put f := mkState f (ticks st + len sl) (S (reads st)) (S (writes st)) in
  GetPosts env st =
  match write_fault env (writes st) with
  | None => (put (Some (MarshalIndent sl')), Returns (Some (mkPosts sl')) None)
  | Some (WOpen e) =>
    (put (file st),
     Returns None (Some (StatusError Internal "failed to save posts %v"
                                     (PathError "open" filePath e))))
  | Some (WWrite e n) =>
    (put (Some (take n (MarshalIndent sl'))),
     Returns None (Some (StatusError Internal "failed to save posts %v"
                                     (PathError "write" filePath e))))
  end.
Proof.
  intros L N. cbv zeta. unfold GetPosts. rewrite (loads_loadPost env st sl _ L). cbn [Posts_].
  rewrite (touch_slice_ok env sl (after_read st) N).
  unfold savePosts, WriteFile. cbn [after_read writes ticks reads file Posts_].
  destruct (write_fault env (writes st)) as [[e|e n]|]; reflexivity.
Qed.

Lemma CreatePost_write_cases (st : State) (sl : PostSlice) (req : option CreatePostRequest) :
  loads env st sl ->
  let p := new_post env (ticks st) req in
  let text := MarshalIndent (append sl (Some p)) in
  let put f := mkState f (S (S (ticks st))) (S (reads st)) (S (writes st)) in
  CreatePost env st req =
  match write_fault env (writes st) with
  | None => (put (Some text), Returns (Some p) None)
  | Some (WOpen e) =>
    (put (file st),
     Returns None (Some (StatusError Internal "failed to save posts: %v"
                                     (PathError "open" filePath e))))
  | Some (WWrite e n) =>
    (put (Some (take n text)),
     Returns None (Some (StatusError Internal "failed to save posts: %v"
                                     (PathError "write" filePath e))))
  end.
Proof.
  intros L. cbv zeta. unfold CreatePost, Now. cbn zeta. cbn [file ticks reads writes]. fold (stamped st).
  apply loads_stamped in L. rewrite (loads_loadPost env _ sl _ L). cbn [Posts_].
  unfold savePosts, WriteFile. cbn [after_read stamped writes ticks reads file Posts_].
  destruct (write_fault env (writes st)) as [[e|e n]|]; reflexivity.
Qed.

End WithEnv.

End HandlerFacts.

(** ** Sessions *)

Module SessionFacts.
Import Bytes Utf8 Strconv Json Pb JsonPosts Errors Runtime Main WellFormed Spec.
Import CodecFacts ValueFacts ServerFacts OutcomeFacts HandlerFacts Session.

Section WithEnv.
Variable env : Env.

(** The collection a session leaves, computed on the list alone: [t] is
    the number of clock readings made before the session. *)
Fixpoint replay (t : nat) (l : list (option Post)) (calls : list Call)
  : list (option Post) :=
  match calls with
  | [] => l
  | CallGetPosts :: rest => replay (t + List.length l) (touch_from env t l) rest
  | CallCreatePost req :: rest =>
    replay (S (S t)) (l ++ [Some (new_post env t req)])%list rest
  end.

Lemma length_replay (calls : list Call) (t : nat) (l : list (option Post)) :
  List.length (replay t l calls) = (List.length l + creates calls)%nat.
Proof.
  revert t l. induction calls as [|[|req] calls IH]; intros t l; cbn [replay].
  - unfold creates. cbn. lia.
  - rewrite IH, length_touch_from. reflexivity.
  - rewrite IH, length_app. unfold creates. cbn. lia.
Qed.

Lemma int64_add_assoc (a : Z) (n : nat) :
  int64_add (int64_add a 1) (Z.of_nat n) = int64_add a (Z.of_nat (S n)).
Proof.
  unfold int64_add. rewrite Nat2Z.inj_succ.
  replace ((a + 1 + 2 ^ 63) mod 2 ^ 64 - 2 ^ 63 + Z.of_nat n + 2 ^ 63)%Z
    with ((a + 1 + 2 ^ 63) mod 2 ^ 64 + Z.of_nat n)%Z by lia.
  rewrite Zplus_mod_idemp_l. f_equal. f_equal. lia.
Qed.

Lemma int64_add_0 (a : Z) : in_int64 a = true -> int64_add a 0 = a.
Proof.
  unfold in_int64, int64_add, minInt64, maxInt64. intros R.
  apply andb_true_iff in R as [R1 R2]. apply Z.leb_le in R1, R2.
  rewrite Z.mod_small by lia. lia.
Qed.

Lemma int64_add_small (a b : Z) :
  in_int64 a = true -> (0 <= b)%Z -> (a + b <= maxInt64)%Z -> int64_add a b = (a + b)%Z.
Proof.
  unfold in_int64, int64_add, minInt64, maxInt64. intros R Hb Hs.
  apply andb_true_iff in R as [R1 R2]. apply Z.leb_le in R1, R2.
  rewrite Z.mod_small by lia. lia.
Qed.

(** What a session does to an entry that was there at its start. *)
Lemma replay_old (calls : list Call) (t : nat) (l : list (option Post)) (i : nat) (p : Post) :
  nth_error l i = Some (Some p) -> in_int64 (ViewCount p) = true ->
  exists p',
    nth_error (replay t l calls) i = Some (Some p') /\
    same_identity p p' /\
    ViewCount p' = int64_add (ViewCount p) (Z.of_nat (views calls)) /\
    (views calls = 0%nat -> p' = p).
Proof.
  revert t l p. induction calls as [|[|req] calls IH]; intros t l p Hn Hv; cbn [replay].
  - exists p. split; [exact Hn|]. split; [now repeat split|].
    split; [now rewrite int64_add_0 | reflexivity].
  - assert (Ht : nth_error (touch_from env t l) i = Some (Some (touch (today env (t + i)) p)))
      by (rewrite nth_touch_from, Hn; reflexivity).
    destruct (IH (t + List.length l)%nat _ _ Ht) as (p' & H1 & H2 & H3 & _).
    { cbn. apply int64_add_range. }
    exists p'. split; [exact H1|]. split.
    + destruct H2 as (A & B & C & D). cbn in A, B, C, D. now repeat split.
    + split; [|unfold views; cbn; discriminate].
      rewrite H3. cbn [touch ViewCount].
      change (views (CallGetPosts :: calls)) with (S (views calls)).
      apply int64_add_assoc.
  - assert (Ht : nth_error (l ++ [Some (new_post env t req)]) i = Some (Some p)).
    { rewrite nth_error_app1; [exact Hn|]. apply nth_error_Some. congruence. }
    destruct (IH (S (S t)) _ _ Ht Hv) as (p' & H1 & H2 & H3 & H4).
    exists p'. split; [exact H1|]. split; [exact H2|]. split; [exact H3 | exact H4].
Qed.

Lemma no_nil_touch_from (t : nat) (l : list (option Post)) :
  Forall (fun e : option Post => e <> None) l ->
  Forall (fun e : option Post => e <> None) (touch_from env t l).
Proof.
  revert t. induction l as [|e r IH]; intros t H; cbn; [constructor|].
  apply Forall_cons_iff in H as [He Hr].
  constructor; [destruct e; [discriminate | contradiction] | now apply IH].
Qed.

Lemma holds_wf (st : State) (sl : PostSlice) : holds st sl -> wf_slice sl = true.
Proof. intros (data & _ & U). exact (Unmarshal_wf data sl U). Qed.

Lemma wf_new_post (t : nat) (req : option CreatePostRequest) :
  valid_call (CallCreatePost req) = true -> wf_post (new_post env t req) = true.
Proof.
  cbn [valid_call]. rewrite !andb_true_iff. intros [[V1 V2] V3].
  apply wf_post_iff. unfold new_post, today.
  cbn [Title Content CreatedAt Author ViewCount LastViewed].
  rewrite !Format_valid. now repeat split.
Qed.

Lemma wf_elems (sl : PostSlice) : wf_slice sl = true -> forallb wf_elem (elems sl) = true.
Proof. destruct sl; [auto | reflexivity]. Qed.

Hypothesis no_fault : fault_free env.

Lemma holds_loads (st : State) (sl : PostSlice) : holds st sl -> loads env st sl.
Proof. intros H. apply loads_iff. split; [apply no_fault | exact H]. Qed.

(** One request of a session without faults. *)
Lemma handle_ok (st : State) (sl : PostSlice) (c : Call) :
  holds st sl -> no_nil sl -> valid_call c = true ->
  exists st' r sl',
    handle env st c = (st', r) /\ succeeded r /\ holds st' sl' /\ no_nil sl' /\
    elems sl' = replay (ticks st) (elems sl) [c] /\
    ticks st' = (match c with
                 | CallGetPosts => ticks st + len sl
                 | CallCreatePost _ => S (S (ticks st))
                 end)%nat.
Proof.
  intros H N V. pose proof (holds_loads st sl H) as L.
  pose proof (holds_wf st sl H) as W.
  destruct c as [|req]; cbn [handle replay].
  - rewrite (GetPosts_ok env st sl L N (proj2 (no_fault _))).
    eexists _, _, (touched env (ticks st) sl). split; [reflexivity|].
    split; [exact I|]. split; [|split; [|split]].
    + apply holds_MarshalIndent; [reflexivity | now apply wf_touched].
    + destruct sl as [l|]; [apply no_nil_touch_from, N | constructor].
    + destruct sl; reflexivity.
    + reflexivity.
  - rewrite (CreatePost_ok env st sl req L (proj2 (no_fault _))).
    eexists _, _, (append sl (Some (new_post env (ticks st) req))).
    split; [reflexivity|]. split; [exact I|]. split; [|split; [|split]].
    + apply holds_MarshalIndent; [reflexivity|].
      cbn [append wf_slice]. rewrite forallb_app, (wf_elems sl W).
      cbn [forallb wf_elem]. now rewrite wf_new_post.
    + unfold no_nil. cbn [append elems]. apply Forall_app. split; [exact N|].
      constructor; [discriminate | constructor].
    + reflexivity.
    + reflexivity.
Qed.

Lemma succeeded_not_crashed (r : Reply) : succeeded r -> crashed r = false.
Proof. destruct r as [[[x|] [e|]|m]|[[x|] [e|]|m]]; cbn; tauto. Qed.

(** A session without faults, on a file that holds a collection without
    nil entry: every request succeeds, and the file ends up holding
    the replayed collection. *)
Lemma serve_replay (calls : list Call) (st : State) (sl : PostSlice) :
  holds st sl -> no_nil sl -> forallb valid_call calls = true ->
  exists sl',
    holds (fst (serve env st calls)) sl' /\ no_nil sl' /\
    elems sl' = replay (ticks st) (elems sl) calls /\
    List.length (snd (serve env st calls)) = List.length calls /\
    Forall succeeded (snd (serve env st calls)).
Proof.
  revert st sl. induction calls as [|c calls IH]; intros st sl H N V.
  - exists sl. cbn. repeat split; [exact H | exact N | constructor].
  - cbn [forallb] in V. apply andb_true_iff in V as [Vc V].
    destruct (handle_ok st sl c H N Vc) as (st1 & r & sl1 & E & S1 & H1 & N1 & R1 & T1).
    destruct (IH st1 sl1 H1 N1 V) as (sl2 & H2 & N2 & R2 & Ln & F2).
    cbn [serve]. rewrite E, (succeeded_not_crashed r S1).
    destruct (serve env st1 calls) as [st2 rs]. cbn [fst snd] in *.
    exists sl2. split; [exact H2|]. split; [exact N2|]. split; [|split].
    + rewrite R2, R1, T1. destruct c; reflexivity.
    + cbn [List.length]. now rewrite Ln.
    + constructor; assumption.
Qed.

Lemma serve_cons (c : Call) (rest : list Call) (st : State) :
  serve env st (c :: rest) =
  (if crashed (snd (handle env st c)) then (fst (handle env st c), [snd (handle env st c)])
   else (fst (serve env (fst (handle env st c)) rest),
         snd (handle env st c) :: snd (serve env (fst (handle env st c)) rest))).
Proof.
  cbn [serve]. destruct (handle env st c) as [st1 r]. cbn [fst snd].
  destruct (crashed r); [reflexivity|]. now destruct (serve env st1 rest).
Qed.

(** A session in two parts. *)
Lemma serve_app (a b : list Call) (st : State) :
  Forall succeeded (snd (serve env st a)) ->
  serve env st (a ++ b) =
  (fst (serve env (fst (serve env st a)) b),
   snd (serve env st a) ++ snd (serve env (fst (serve env st a)) b))%list.
Proof.
  revert st. induction a as [|c a IH]; intros st F.
  - cbn. now destruct (serve env st b).
  - rewrite <- app_comm_cons, !serve_cons. rewrite serve_cons in F.
    destruct (crashed (snd (handle env st c))) eqn:C.
    + exfalso. cbn in F. apply Forall_inv in F.
      apply succeeded_not_crashed in F. congruence.
    + cbn [fst snd] in F |- *. apply Forall_inv_tail in F.
      rewrite (IH _ F). reflexivity.
Qed.

End WithEnv.

(** ** A file that holds no collection *)

Lemma failed_not_crashed (r : Reply) : failed r -> crashed r = false.
Proof. destruct r as [[[x|] [e|]|m]|[[x|] [e|]|m]]; cbn; tauto. Qed.

Lemma handle_unusable (env : Env) (st : State) (c : Call) :
  (forall sl, ~ holds st sl) ->
  failed (snd (handle env st c)) /\
  file (fst (handle env st c)) = file st /\
  writes (fst (handle env st c)) = writes st.
Proof.
  intros N.
  assert (N' : forall sl, ~ loads env st sl)
    by (intros sl L; apply loads_iff in L as [_ L]; exact (N sl L)).
  destruct c as [|req]; cbn [handle].
  - destruct (GetPosts_load_fails env st N') as (f & e & ->). now cbn.
  - destruct (CreatePost_load_fails env st req N') as (e & ->). now cbn.
Qed.

Lemma serve_unusable (env : Env) (calls : list Call) (st : State) :
  (forall sl, ~ holds st sl) ->
  file (fst (serve env st calls)) = file st /\
  writes (fst (serve env st calls)) = writes st /\
  List.length (snd (serve env st calls)) = List.length calls /\
  Forall failed (snd (serve env st calls)).
Proof.
  revert st. induction calls as [|c calls IH]; intros st N.
  - cbn. repeat split. constructor.
  - destruct (handle_unusable env st c N) as (F & Hf & Hw).
    rewrite serve_cons, (failed_not_crashed _ F). cbn [fst snd].
    destruct (IH (fst (handle env st c))) as (A & B & C & D).
    { intros sl (data & Fd & U). apply (N sl). exists data. split; [congruence | exact U]. }
    repeat split.
    + congruence.
    + congruence.
    + cbn [List.length]. now rewrite C.
    + now constructor.
Qed.

(** ** A collection with a nil entry *)

Section Poisoned.
Variable env : Env.
Hypothesis no_fault : fault_free env.

Lemma serve_poisoned (before rest : list Call) (st : State) (sl : PostSlice) :
  holds st sl -> ~ no_nil sl ->
  forallb valid_call before = true -> views before = 0%nat ->
  exists rs,
    snd (serve env st (before ++ CallGetPosts :: rest))
    = (rs ++ [PostsReply (Panics "invalid memory address or nil pointer dereference")])%list /\
    List.length rs = List.length before /\ Forall succeeded rs.
Proof.
  revert st sl. induction before as [|c before IH]; intros st sl H N V G.
  - exists []. split; [|split; [reflexivity | constructor]].
    rewrite !app_nil_l, serve_cons. cbn [handle].
    rewrite (GetPosts_nil_entry env st sl (holds_loads env no_fault st sl H) N).
    reflexivity.
  - cbn [forallb] in V. apply andb_true_iff in V as [Vc V].
    destruct c as [|req]; [discriminate G|].
    pose proof (holds_loads env no_fault st sl H) as L.
    pose proof (CreatePost_ok env st sl req L (proj2 (no_fault _))) as E.
    set (sl1 := append sl (Some (new_post env (ticks st) req))) in *.
    assert (H1 : holds (fst (handle env st (CallCreatePost req))) sl1).
    { cbn [handle]. rewrite E. cbn [fst]. apply holds_MarshalIndent; [reflexivity|].
      unfold sl1. cbn [append wf_slice].
      rewrite forallb_app, (wf_elems sl (holds_wf st sl H)).
      cbn [forallb wf_elem]. now rewrite wf_new_post. }
    assert (N1 : ~ no_nil sl1).
    { unfold sl1, no_nil. cbn [append elems]. intros F.
      apply Forall_app in F as [F _]. exact (N F). }
    destruct (IH _ sl1 H1 N1 V G) as (rs & Er & Ln & Fs).
    rewrite <- app_comm_cons, serve_cons.
    cbn [handle] in Er |- *. rewrite E in Er |- *. cbn [fst snd crashed] in Er |- *.
    rewrite Er.
    exists (PostReply (Returns (Some (new_post env (ticks st) req)) None) :: rs).
    split; [reflexivity|]. split; [cbn [List.length]; now rewrite Ln|].
    constructor; [exact I | exact Fs].
Qed.

End Poisoned.

(** ** A write cut short *)

(** The text a request writes when it reaches its Save step, [sl]
    being the collection it loaded. *)
Definition written (env : Env) (st : State) (sl : PostSlice) (c : Call) : string :=
  match c with
  | CallGetPosts => MarshalIndent (touched env (ticks st) sl)
  | CallCreatePost req => MarshalIndent (append sl (Some (new_post env (ticks st) req)))
  end.

Lemma handle_short_write (env : Env) (st : State) (sl : PostSlice) (c : Call)
      (e : Errno) (n : nat) :
  loads env st sl -> (is_GetPosts c = true -> no_nil sl) ->
  write_fault env (writes st) = Some (WWrite e n) ->
  failed (snd (handle env st c)) /\
  file (fst (handle env st c)) = Some (take n (written env st sl c)).
Proof.
  intros L N W. destruct c as [|req]; cbn [handle written].
  - rewrite (GetPosts_write_cases env st sl L (N eq_refl)), W. now cbn.
  - rewrite (CreatePost_write_cases env st sl req L), W. now cbn.
Qed.

Lemma wf_written (env : Env) (st : State) (sl : PostSlice) (c : Call) :
  loads env st sl -> valid_call c = true ->
  exists sl', written env st sl c = MarshalIndent sl' /\ wf_slice sl' = true.
Proof.
  intros L V. pose proof (loads_wf env st sl L) as W.
  destruct c as [|req]; cbn [written]; eexists; (split; [reflexivity|]).
  - now apply wf_touched.
  - cbn [append wf_slice]. rewrite forallb_app, (wf_elems sl W).
    cbn [forallb wf_elem]. now rewrite wf_new_post.
Qed.

End SessionFacts.

(** ** Reading a text that goes on *)

Module ExtensionFacts.
Import Bytes BytesFacts Utf8 Utf8Facts Json JsonStringFacts ParserFacts.

Lemma drop_app (n : nat) (s q : string) :
  (n <= String.length s)%nat -> drop n (s ++ q) = drop n s ++ q.
Proof.
  revert s. induction n as [|n IH]; intros s L; [reflexivity|].
  destruct s as [|c r]; cbn [String.length] in L; [lia|].
  cbn [append drop]. apply IH. lia.
Qed.

Lemma skip_ws_ext (p q : string) (c : ascii) (r : string) :
  skip_ws p = String c r -> skip_ws (p ++ q) = String c (r ++ q).
Proof.
  induction p as [|a p IH]; cbn [skip_ws append]; [discriminate|].
  destruct (isSpace a); [exact IH | intros [= -> ->]; reflexivity].
Qed.

Lemma skip_ws_all_space (s : string) : skip_ws s = EmptyString -> all_space s.
Proof.
  induction s as [|c s IH]; cbn [skip_ws all_space]; [auto|].
  destruct (isSpace c) eqn:E; [auto | discriminate].
Qed.

Lemma all_space_skip_ws (s : string) : all_space s -> skip_ws s = EmptyString.
Proof.
  induction s as [|c s IH]; cbn [skip_ws all_space]; [auto|]. intros [-> H]. auto.
Qed.

Lemma strip_prefix_ext (lit p q r : string) :
  strip_prefix lit p = Some r -> strip_prefix lit (p ++ q) = Some (r ++ q).
Proof.
  revert p. induction lit as [|a lit IH]; intros p; cbn [strip_prefix].
  - intros [= ->]. reflexivity.
  - destruct p as [|b p]; [discriminate|]. cbn [append].
    destruct (a =? b)%char; [apply IH | discriminate].
Qed.

(** *** Numbers *)

Lemma span_digits_ext (p q ds r : string) :
  span_digits p = (ds, r) -> r <> EmptyString -> span_digits (p ++ q) = (ds, r ++ q).
Proof.
  revert ds. induction p as [|c p IH]; intros ds; cbn [span_digits append].
  - intros [= <- <-] N. congruence.
  - destruct (is_digit c).
    + destruct (span_digits p) as [d r'] eqn:E. intros [= <- <-] N.
      now rewrite (IH d eq_refl N).
    + intros [= <- <-] _. reflexivity.
Qed.

Lemma scan_exp_ext (lit s q l r : string) :
  scan_exp lit s = Some (l, r) -> r <> EmptyString ->
  scan_exp lit (s ++ q) = Some (l, r ++ q).
Proof.
  unfold scan_exp. destruct s as [|e r0]; [intros [= <- <-] N; congruence|].
  cbn [append]. destruct ((e =? "e") || (e =? "E"))%char; [|now intros [= <- <-] _].
  destruct r0 as [|g r'].
  - cbn [span_digits]. discriminate.
  - cbn [append]. destruct ((g =? "+") || (g =? "-"))%char.
    + destruct (span_digits r') as [ds r2] eqn:E.
      destruct ds as [|d ds]; [discriminate|]. intros [= <- <-] N.
      now rewrite (span_digits_ext r' q _ _ E N).
    + destruct (span_digits (String g r')) as [ds r2] eqn:E.
      destruct ds as [|d ds]; [discriminate|]. intros [= <- <-] N.
      change (String g (r' ++ q)) with (String g r' ++ q).
      now rewrite (span_digits_ext _ q _ _ E N).
Qed.

Lemma scan_frac_ext (lit s q l r : string) :
  scan_frac lit s = Some (l, r) -> r <> EmptyString ->
  scan_frac lit (s ++ q) = Some (l, r ++ q).
Proof.
  unfold scan_frac. destruct s as [|c r0]; [intros [= <- <-] N; congruence|].
  cbn [append]. destruct (c =? ".")%char.
  - destruct (span_digits r0) as [ds r1] eqn:E.
    destruct ds as [|d ds]; [discriminate|]. intros H N.
    assert (N1 : r1 <> EmptyString).
    { intros ->. cbn in H. injection H as <- <-. congruence. }
    rewrite (span_digits_ext r0 q _ _ E N1). now apply scan_exp_ext.
  - intros H N. change (String c (r0 ++ q)) with (String c r0 ++ q).
    now apply scan_exp_ext.
Qed.

Lemma scan_frac_rest (lit s l r : string) :
  scan_frac lit s = Some (l, r) -> r <> EmptyString -> s <> EmptyString.
Proof. intros H N ->. cbn in H. injection H as <- <-. congruence. Qed.

Lemma scan_number_ext (p q lit r : string) :
  scan_number p = Some (lit, r) -> r <> EmptyString ->
  scan_number (p ++ q) = Some (lit, r ++ q).
Proof.
  assert (B : forall sign s1,
             match s1 with
             | String c r0 =>
               if (c =? "0")%char then scan_frac (sign ++ "0") r0
               else if is_digit c then
                      let '(ds, r1) := span_digits r0 in scan_frac (sign ++ String c ds) r1
                    else None
             | EmptyString => None
             end = Some (lit, r) -> r <> EmptyString ->
             match (s1 ++ q) with
             | String c r0 =>
               if (c =? "0")%char then scan_frac (sign ++ "0") r0
               else if is_digit c then
                      let '(ds, r1) := span_digits r0 in scan_frac (sign ++ String c ds) r1
                    else None
             | EmptyString => None
             end = Some (lit, r ++ q)).
  { intros sign [|c r0]; [discriminate|]. cbn [append].
    destruct (c =? "0")%char; [apply scan_frac_ext|].
    destruct (is_digit c); [|discriminate].
    destruct (span_digits r0) as [ds r1] eqn:E. intros H N.
    pose proof (scan_frac_rest _ _ _ _ H N) as N1.
    rewrite (span_digits_ext r0 q _ _ E N1). now apply scan_frac_ext. }
  unfold scan_number. destruct p as [|c r0]; [discriminate|].
  cbn [append]. destruct (c =? "-")%char.
  - exact (B "-" r0).
  - exact (B "" (String c r0)).
Qed.

(** *** Strings *)

(** Every byte is outside ASCII. *)
Fixpoint no_ascii (s : string) : bool :=
  match s with
  | EmptyString => true
  | String c r => (0x80 <=? byte_val c)%N && no_ascii r
  end.

Lemma no_ascii_drop (n : nat) (s : string) : no_ascii s = true -> no_ascii (drop n s) = true.
Proof.
  revert s. induction n as [|n IH]; intros s H; [exact H|].
  destruct s as [|c r]; [reflexivity|]. cbn [drop]. apply IH.
  cbn [no_ascii] in H. now apply andb_true_iff in H.
Qed.

(** A string without an ASCII byte holds no closing quote. *)
Lemma scan_no_ascii (f : nat) (s : string) :
  no_ascii s = true -> scan_string_loop f s = None.
Proof.
  revert s. induction f as [|f IH]; intros s H; [reflexivity|].
  destruct s as [|c r]; [reflexivity|].
  pose proof H as H0. cbn [no_ascii] in H0. apply andb_true_iff in H0 as [Hc Hr].
  apply N.leb_le in Hc. cbn [scan_string_loop]. cbn zeta.
  replace (byte_val c =? 0x22)%N with false by (symmetry; apply N.eqb_neq; lia).
  replace (byte_val c =? 0x5C)%N with false by (symmetry; apply N.eqb_neq; lia).
  replace (byte_val c <? 0x20)%N with false by (symmetry; apply N.ltb_ge; lia).
  rewrite not_ascii by assumption.
  destruct (DecodeRuneInString (String c r)) as [rr size].
  now rewrite (IH _ (no_ascii_drop size _ H)).
Qed.

Lemma range_high (x lo hi : N) :
  (0x80 <= lo)%N -> ((x <? lo) || (hi <? x))%N = false -> (0x80 <=? x)%N = true.
Proof.
  intros L H. apply orb_false_iff in H as [H _]. apply N.ltb_ge in H.
  apply N.leb_le. lia.
Qed.

(** Decoding the first rune looks at no more than the sequence it
    decodes, unless the string ends inside one. *)
Lemma decode_ext (s q : string) :
  DecodeRuneInString (s ++ q) = DecodeRuneInString s \/ no_ascii s = true.
Proof.
  destruct s as [|c0 r0]; [now right|].
  unfold DecodeRuneInString. cbn [append]. cbn zeta.
  destruct (byte_val c0 <? RuneSelf)%N eqn:A; [now left|].
  destruct (first (byte_val c0)) as [[[sz lo] hi]|] eqn:F; [|now left].
  apply first_spec in F as (Hlo & _ & _).
  assert (H0 : (0x80 <=? byte_val c0)%N = true)
    by (apply N.leb_le; apply N.ltb_ge in A; exact A).
  destruct r0 as [|c1 r1]; [right; cbn [no_ascii]; now rewrite H0|]. cbn [append].
  destruct ((byte_val c1 <? lo) || (hi <? byte_val c1))%N eqn:R1; [now left|].
  pose proof (range_high _ _ _ Hlo R1) as H1.
  destruct (sz <=? 2)%nat; [now left|].
  destruct r1 as [|c2 r2]; [right; cbn [no_ascii]; now rewrite H0, H1|]. cbn [append].
  destruct ((byte_val c2 <? locb) || (hicb <? byte_val c2))%N eqn:R2; [now left|].
  pose proof (range_high _ _ _ (N.le_refl _) R2) as H2.
  destruct (sz <=? 3)%nat; [now left|].
  destruct r2 as [|c3 r3]; [right; cbn [no_ascii]; now rewrite H0, H1, H2|].
  now left.
Qed.

Lemma decode_size_le (s : string) :
  (snd (DecodeRuneInString s) <= String.length s)%nat.
Proof.
  destruct (DecodeRuneInString s) as [r n] eqn:E. cbn [snd].
  apply decode_cases in E as [(-> & _)|[(-> & c & t & -> & _)|(_ & pre & t & -> & M)]].
  - lia.
  - cbn. lia.
  - destruct M as (<- & _). rewrite length_append. lia.
Qed.

Lemma getu4_ext (s q : string) (v : N) : getu4 s = Some v -> getu4 (s ++ q) = Some v.
Proof.
  destruct s as [|b0 [|b1 [|h1 [|h2 [|h3 [|h4 r]]]]]]; try discriminate.
  intros H. exact H.
Qed.

Lemma getu4_length (s : string) (v : N) : getu4 s = Some v -> (6 <= String.length s)%nat.
Proof.
  destruct s as [|b0 [|b1 [|h1 [|h2 [|h3 [|h4 r]]]]]]; try discriminate.
  intros _. cbn. lia.
Qed.

(** Where the scanner goes on after failing to read an escape, no
    escape appears when the text goes on. *)
Lemma getu4_scanned (f : nat) (s q : string) (res : string * string) :
  scan_string_loop f s = Some res -> getu4 s = None -> getu4 (s ++ q) = None.
Proof.
  destruct f as [|f]; [discriminate|].
  destruct s as [|b0 r]; [discriminate|]. cbn [scan_string_loop]. cbn zeta.
  destruct (byte_val b0 =? 0x5C)%N eqn:B.
  - assert (b0 = backslash) as ->.
    { apply N.eqb_eq in B. unfold byte_val in B.
      rewrite <- (ascii_N_embedding b0), B. reflexivity. }
    change (byte_val backslash =? 0x22)%N with false. cbv iota.
    destruct r as [|e r1]; [discriminate|].
    destruct (e =? "u")%char eqn:U.
    + intros H G. rewrite G in H. discriminate.
    + intros _ _. cbn [append getu4].
      destruct (r1 ++ q) as [|h1 [|h2 [|h3 [|h4 t]]]]; try reflexivity.
      rewrite U, andb_false_r. reflexivity.
  - intros _ _. cbn [append getu4].
    destruct (r ++ q) as [|b1 [|h1 [|h2 [|h3 [|h4 t]]]]]; try reflexivity.
    replace (b0 =? backslash)%char with false; [reflexivity|].
    symmetry. apply Ascii.eqb_neq. intros ->. discriminate B.
Qed.

(** A string literal that was read to its closing quote is read the
    same when the text goes on. *)
Lemma scan_string_loop_ext (f : nat) :
  forall (s str rest : string),
    scan_string_loop f s = Some (str, rest) ->
    forall (f' : nat) (q : string),
      (f <= f')%nat -> scan_string_loop f' (s ++ q) = Some (str, rest ++ q).
Proof.
  induction f as [|f IH]; intros s str rest H f' q L; [discriminate|].
  destruct f' as [|f']; [lia|]. apply le_S_n in L.
  destruct s as [|c r]; [discriminate|].
  assert (P : forall a x,
             prepend a (scan_string_loop f x) = Some (str, rest) ->
             prepend a (scan_string_loop f' (x ++ q)) = Some (str, rest ++ q)).
  { intros a x E. apply prepend_inv in E as (s' & E & ->).
    now rewrite (IH _ _ _ E f' q L). }
  revert H. cbn [append]. cbn [scan_string_loop]. cbn zeta.
  destruct (byte_val c =? 0x22)%N; [intros [= <- <-]; reflexivity|].
  destruct (byte_val c =? 0x5C)%N.
  - destruct r as [|e r1]; [discriminate|]. cbn [append].
    destruct (e =? "u")%char.
    + change (String c (String e (r1 ++ q))) with (String c (String e r1) ++ q).
      destruct (getu4 (String c (String e r1))) as [rr|] eqn:G; [|discriminate].
      rewrite (getu4_ext _ q _ G).
      pose proof (getu4_length _ _ G) as L6.
      rewrite (drop_app 6 _ q L6).
      set (s6 := drop 6 (String c (String e r1))).
      destruct (IsSurrogate rr); [|apply P].
      destruct (getu4 s6) as [rr1|] eqn:G1.
      * rewrite (getu4_ext _ q _ G1).
        rewrite (drop_app 6 _ q (getu4_length _ _ G1)).
        destruct (negb (utf16_DecodeRune rr rr1 =? RuneError)%N); apply P.
      * change (negb (RuneError =? RuneError)%N) with false. cbv iota.
        intros H. pose proof H as H'.
        apply prepend_inv in H' as (s' & E & _).
        rewrite (getu4_scanned f s6 q _ E G1).
        change (negb (RuneError =? RuneError)%N) with false. cbv iota.
        now apply P.
    + destruct (unescape e); [apply P | discriminate].
  - destruct (byte_val c <? 0x20)%N; [discriminate|].
    destruct (byte_val c <? RuneSelf)%N; [apply P|].
    change (String c (r ++ q)) with (String c r ++ q).
    destruct (DecodeRuneInString (String c r)) as [rr size] eqn:D.
    intros H. pose proof H as H'. apply prepend_inv in H' as (s' & E & _).
    destruct (decode_ext (String c r) q) as [X|X].
    + rewrite X, D.
      pose proof (decode_size_le (String c r)) as Ls. rewrite D in Ls. cbn [snd] in Ls.
      rewrite (drop_app size _ q Ls). now apply P.
    + rewrite (scan_no_ascii f _ (no_ascii_drop size _ X)) in E. discriminate.
Qed.

Lemma scan_string_ext (s q str rest : string) :
  scan_string s = Some (str, rest) -> scan_string (s ++ q) = Some (str, rest ++ q).
Proof.
  unfold scan_string. intros H. apply (scan_string_loop_ext _ _ _ _ H).
  rewrite length_append. lia.
Qed.

(** *** Values *)

Definition is_number (v : jvalue) : bool :=
  match v with JNumber _ => true | _ => false end.

Definition ext_value (f : nat) : Prop :=
  forall (d : N) (p : string) (v : jvalue) (r : string),
    parse_value f d p = Some (v, r) -> r <> EmptyString \/ is_number v = false ->
    forall (f' : nat) (q : string),
      (f <= f')%nat -> parse_value f' d (p ++ q) = Some (v, r ++ q).

Definition ext_elems (f : nat) : Prop :=
  forall (d : N) (p : string) (vs : list jvalue) (r : string),
    parse_elems f d p = Some (vs, r) ->
    forall (f' : nat) (q : string),
      (f <= f')%nat -> parse_elems f' d (p ++ q) = Some (vs, r ++ q).

Definition ext_members (f : nat) : Prop :=
  forall (d : N) (p : string) (ms : list (string * jvalue)) (r : string),
    parse_members f d p = Some (ms, r) ->
    forall (f' : nat) (q : string),
      (f <= f')%nat -> parse_members f' d (p ++ q) = Some (ms, r ++ q).

Lemma skip_ws_nonempty (s : string) (c : ascii) (r : string) :
  skip_ws s = String c r -> s <> EmptyString.
Proof. intros H ->. discriminate H. Qed.

Lemma ext_value_step (f : nat) :
  ext_elems f -> ext_members f -> ext_value (S f).
Proof.
  intros IHe IHm d p v r H Hr f' q L.
  destruct f' as [|f']; [lia|]. apply le_S_n in L.
  rewrite parse_value_eq in H |- *.
  destruct (skip_ws p) as [|c r0] eqn:S0; [discriminate|].
  rewrite (skip_ws_ext p q c r0 S0).
  destruct (c =? "{")%char.
  { destruct (maxNestingDepth <? N.succ d)%N; [discriminate|].
    destruct (skip_ws r0) as [|c' r'] eqn:S1; [discriminate|].
    rewrite (skip_ws_ext r0 q c' r' S1).
    destruct (c' =? "}")%char; [now injection H as <- <-|].
    destruct (parse_members f (N.succ d) (String c' r')) as [[ms rest]|] eqn:E;
      [|discriminate].
    injection H as <- <-.
    change (String c' (r' ++ q)) with (String c' r' ++ q).
    now rewrite (IHm _ _ _ _ E f' q L). }
  destruct (c =? "[")%char.
  { destruct (maxNestingDepth <? N.succ d)%N; [discriminate|].
    destruct (skip_ws r0) as [|c' r'] eqn:S1; [discriminate|].
    rewrite (skip_ws_ext r0 q c' r' S1).
    destruct (c' =? "]")%char; [now injection H as <- <-|].
    destruct (parse_elems f (N.succ d) (String c' r')) as [[vs rest]|] eqn:E;
      [|discriminate].
    injection H as <- <-.
    change (String c' (r' ++ q)) with (String c' r' ++ q).
    now rewrite (IHe _ _ _ _ E f' q L). }
  destruct (c =? dquote)%char.
  { destruct (scan_string r0) as [[str rest]|] eqn:E; [|discriminate].
    injection H as <- <-. now rewrite (scan_string_ext _ q _ _ E). }
  destruct ((c =? "-")%char || is_digit c).
  { destruct (scan_number (String c r0)) as [[lit rest]|] eqn:E; [|discriminate].
    injection H as <- <-. destruct Hr as [Hr|Hr]; [|discriminate Hr].
    change (String c (r0 ++ q)) with (String c r0 ++ q).
    now rewrite (scan_number_ext _ q _ _ E Hr). }
  assert (Lit : forall lit x,
             option_map (fun rest => (x, rest)) (strip_prefix lit (String c r0))
             = Some (v, r) ->
             option_map (fun rest => (x, rest)) (strip_prefix lit (String c (r0 ++ q)))
             = Some (v, r ++ q)).
  { intros lit x E.
    destruct (strip_prefix lit (String c r0)) as [rest|] eqn:E1; [|discriminate].
    cbn in E. injection E as <- <-.
    change (String c (r0 ++ q)) with (String c r0 ++ q).
    now rewrite (strip_prefix_ext _ _ q _ E1). }
  destruct (c =? "t")%char; [now apply Lit|].
  destruct (c =? "f")%char; [now apply Lit|].
  destruct (c =? "n")%char; [now apply Lit | discriminate].
Qed.

Lemma ext_elems_step (f : nat) : ext_value f -> ext_elems f -> ext_elems (S f).
Proof.
  intros IHv IHe d p vs r H f' q L.
  destruct f' as [|f']; [lia|]. apply le_S_n in L.
  rewrite parse_elems_eq in H |- *.
  destruct (parse_value f d p) as [[v r1]|] eqn:E; [|discriminate].
  destruct (skip_ws r1) as [|c r'] eqn:S1; [discriminate|].
  rewrite (IHv _ _ _ _ E (or_introl (skip_ws_nonempty _ _ _ S1)) f' q L).
  rewrite (skip_ws_ext r1 q c r' S1).
  destruct (c =? ",")%char.
  - destruct (parse_elems f d r') as [[vs' rest]|] eqn:E2; [|discriminate].
    injection H as <- <-. now rewrite (IHe _ _ _ _ E2 f' q L).
  - destruct (c =? "]")%char; [now injection H as <- <- | discriminate].
Qed.

Lemma ext_members_step (f : nat) : ext_value f -> ext_members f -> ext_members (S f).
Proof.
  intros IHv IHm d p ms r H f' q L.
  destruct f' as [|f']; [lia|]. apply le_S_n in L.
  rewrite parse_members_eq in H |- *.
  destruct (skip_ws p) as [|k r0] eqn:S0; [discriminate|].
  rewrite (skip_ws_ext p q k r0 S0).
  destruct (k =? dquote)%char; [|discriminate].
  destruct (scan_string r0) as [[key r1]|] eqn:Ek; [|discriminate].
  rewrite (scan_string_ext _ q _ _ Ek).
  destruct (skip_ws r1) as [|c1 r2] eqn:S1; [discriminate|].
  rewrite (skip_ws_ext r1 q c1 r2 S1).
  destruct (c1 =? ":")%char; [|discriminate].
  destruct (parse_value f d r2) as [[v r3]|] eqn:E; [|discriminate].
  destruct (skip_ws r3) as [|c r'] eqn:S3; [discriminate|].
  rewrite (IHv _ _ _ _ E (or_introl (skip_ws_nonempty _ _ _ S3)) f' q L).
  rewrite (skip_ws_ext r3 q c r' S3).
  destruct (c =? ",")%char.
  - destruct (parse_members f d r') as [[ms' rest]|] eqn:E2; [|discriminate].
    injection H as <- <-. now rewrite (IHm _ _ _ _ E2 f' q L).
  - destruct (c =? "}")%char; [now injection H as <- <- | discriminate].
Qed.

Lemma ext_all (f : nat) : ext_value f /\ ext_elems f /\ ext_members f.
Proof.
  induction f as [|f (IHv & IHe & IHm)].
  - split; [|split]; intros d p x r E; discriminate E.
  - split; [|split].
    + now apply ext_value_step.
    + now apply ext_elems_step.
    + now apply ext_members_step.
Qed.

(** The first byte of a text decides whether its value is a number. *)
Lemma number_head (f f' : nat) (d : N) (p q : string) (lit : string) (r : string) :
  parse_value f d p = Some (JNumber lit, r) ->
  match parse_value f' d (p ++ q) with
  | Some (v, _) => is_number v = true
  | None => True
  end.
Proof.
  destruct f as [|f]; [discriminate|]. destruct f' as [|f']; [exact (fun _ => I)|].
  rewrite !parse_value_eq.
  destruct (skip_ws p) as [|c r0] eqn:S0; [discriminate|].
  rewrite (skip_ws_ext p q c r0 S0).
  destruct (c =? "{")%char.
  { destruct (maxNestingDepth <? N.succ d)%N; [discriminate|].
    destruct (skip_ws r0) as [|c' r']; [discriminate|].
    destruct (c' =? "}")%char; [discriminate|].
    destruct (parse_members f (N.succ d) (String c' r')) as [[ms rest]|]; discriminate. }
  destruct (c =? "[")%char.
  { destruct (maxNestingDepth <? N.succ d)%N; [discriminate|].
    destruct (skip_ws r0) as [|c' r']; [discriminate|].
    destruct (c' =? "]")%char; [discriminate|].
    destruct (parse_elems f (N.succ d) (String c' r')) as [[vs rest]|]; discriminate. }
  destruct (c =? dquote)%char.
  { destruct (scan_string r0) as [[str rest]|]; discriminate. }
  destruct ((c =? "-")%char || is_digit c).
  { intros _. now destruct (scan_number (String c (r0 ++ q))) as [[l x]|]. }
  destruct (c =? "t")%char;
    [destruct (strip_prefix "true" (String c r0)); discriminate|].
  destruct (c =? "f")%char;
    [destruct (strip_prefix "false" (String c r0)); discriminate|].
  destruct (c =? "n")%char;
    [destruct (strip_prefix "null" (String c r0)); discriminate | discriminate].
Qed.

(** A text that is a whole JSON value, other than a number, stays that
    value when bytes are added, or stops being a JSON text: what is
    added after a whole value can only be white space. *)
Lemma parse_json_ext (p q : string) (v v' : jvalue) :
  parse_json p = Some v -> is_number v = false ->
  parse_json (p ++ q) = Some v' -> v' = v /\ all_space q.
Proof.
  unfold parse_json. intros H Nn H'.
  destruct (parse_value (2 * String.length p + 2) 0 p) as [[x r]|] eqn:E; [|discriminate].
  destruct (skip_ws r) eqn:Sr; [|discriminate]. injection H as ->.
  destruct (ext_all (2 * String.length p + 2)) as (Hv & _).
  rewrite (Hv _ _ _ _ E (or_intror Nn) (2 * String.length (p ++ q) + 2)%nat q) in H'
    by (rewrite length_append; lia).
  rewrite (skip_ws_app r q (skip_ws_all_space r Sr)) in H'.
  destruct (skip_ws q) eqn:Sq; [|discriminate]. injection H' as <-.
  split; [reflexivity | now apply skip_ws_all_space].
Qed.

(** A text whose value is a number never becomes, by adding bytes, a
    text whose value is not. *)
Lemma parse_json_number (p q : string) (v v' : jvalue) :
  parse_json p = Some v -> is_number v = true ->
  parse_json (p ++ q) = Some v' -> is_number v' = true.
Proof.
  unfold parse_json. intros H Nn H'.
  destruct (parse_value (2 * String.length p + 2) 0 p) as [[x r]|] eqn:E; [|discriminate].
  destruct (skip_ws r); [|discriminate]. injection H as ->.
  destruct v as [| | |lit| | |]; try discriminate Nn.
  pose proof (number_head _ (2 * String.length (p ++ q) + 2) _ _ q _ _ E) as Hn.
  destruct (parse_value (2 * String.length (p ++ q) + 2) 0 (p ++ q)) as [[y r']|];
    [|discriminate].
  destruct (skip_ws r'); [|discriminate]. now injection H' as <-.
Qed.

End ExtensionFacts.

(** ** A file cut short *)

Module CutFacts.
Import Bytes BytesFacts Json Pb JsonPosts WellFormed ParserFacts CodecFacts ExtensionFacts.

(** A text that Unmarshal accepts is not accepted once it is cut before
    its last byte that is not white space. *)
Lemma Unmarshal_cut (p q : string) (sl : PostSlice) :
  Unmarshal (p ++ q) = inr sl -> ~ all_space q -> Unmarshal p = inl SyntaxError.
Proof.
  unfold Unmarshal. intros H Nq.
  destruct (parse_json p) as [v|] eqn:Ep; [exfalso | reflexivity].
  destruct (parse_json (p ++ q)) as [v'|] eqn:Eq; [|discriminate].
  destruct (is_number v) eqn:Nn.
  - pose proof (parse_json_number p q v v' Ep Nn Eq) as N'.
    destruct v'; try discriminate N'. discriminate H.
  - destruct (parse_json_ext p q v v' Ep Nn Eq) as [_ A]. exact (Nq A).
Qed.

Lemma all_space_last (s : string) (c : ascii) :
  all_space (s ++ String c "") -> isSpace c = true.
Proof. induction s as [|a s IH]; cbn; [tauto|]. intros [_ H]. auto. Qed.

Lemma render_array_last (v : jvalue) (vs : list jvalue) :
  exists body, render 0 (JArray (v :: vs)) = body ++ "]".
Proof.
  cbn [render]. eexists. rewrite <- !append_assoc. reflexivity.
Qed.

(** The text written for a collection ends in a byte that is not white
    space. *)
Lemma MarshalIndent_last (sl : PostSlice) :
  exists body c, MarshalIndent sl = body ++ String c "" /\ isSpace c = false.
Proof.
  unfold MarshalIndent. destruct sl as [[|e l]|].
  - now exists "[", "]"%char.
  - destruct (render_array_last (encode_elem e) (map encode_elem l)) as (body & E).
    exists body, "]"%char. split; [exact E | reflexivity].
  - now exists "nul", "l"%char.
Qed.

(** Any proper prefix of the text written for a well-formed collection
    is rejected. *)
Lemma Unmarshal_truncated (sl : PostSlice) (n : nat) :
  wf_slice sl = true -> (n < String.length (MarshalIndent sl))%nat ->
  Unmarshal (take n (MarshalIndent sl)) = inl SyntaxError.
Proof.
  intros W L. apply (Unmarshal_cut _ (drop n (MarshalIndent sl)) sl).
  - rewrite take_drop. now apply Unmarshal_MarshalIndent.
  - destruct (MarshalIndent_last sl) as (body & c & E & Hc). rewrite E in *.
    rewrite length_append in L. cbn [String.length] in L.
    rewrite drop_app by lia. intros A. apply all_space_last in A. congruence.
Qed.

End CutFacts.

(** ** The dates the server stamps *)

Module DateFacts.
Import Bytes Strconv.
Local Open Scope Z_scope.

(** The ASCII digit of [k]. *)
Definition digit (k : Z) : ascii := ascii_of_N (48 + Z.to_N k).

Definition pad2 (x : Z) : string :=
  String (digit (x / 10)) (String (digit (x mod 10)) "").

Definition pad4 (x : Z) : string :=
  String (digit (x / 1000))
    (String (digit (x / 100 mod 10))
      (String (digit (x / 10 mod 10)) (String (digit (x mod 10)) ""))).

(** A date of the civil calendar, its year written with four digits. *)
Definition calendar (t : Time.t) : Prop :=
  0 <= Time.Year t <= 9999 /\ 1 <= Time.Month t <= 12 /\ 1 <= Time.Day t <= 31.

(** [P] holds of 0, ..., n-1. *)
Fixpoint all_below (n : nat) (P : Z -> bool) : bool :=
  match n with
  | O => true
  | S k => P (Z.of_nat k) && all_below k P
  end.

Lemma all_below_spec (n : nat) (P : Z -> bool) :
  all_below n P = true -> forall x, 0 <= x < Z.of_nat n -> P x = true.
Proof.
  induction n as [|n IH]; cbn [all_below]; intros H x Hx; [lia|].
  apply andb_true_iff in H as [H1 H2].
  destruct (Z.eq_dec x (Z.of_nat n)) as [->|N]; [exact H1|].
  apply IH; [exact H2 | lia].
Qed.

Lemma appendInt_pad4 (x : Z) : 0 <= x <= 9999 -> appendInt x 4 = pad4 x.
Proof.
  intros H. apply String.eqb_eq.
  apply (all_below_spec (Z.to_nat 10000) (fun x => (appendInt x 4 =? pad4 x)%string));
    [vm_compute; reflexivity | lia].
Qed.

Lemma appendInt_pad2 (x : Z) : 0 <= x <= 99 -> appendInt x 2 = pad2 x.
Proof.
  intros H. apply String.eqb_eq.
  apply (all_below_spec (Z.to_nat 100) (fun x => (appendInt x 2 =? pad2 x)%string));
    [vm_compute; reflexivity | lia].
Qed.

Lemma digit_inj (a b : Z) : 0 <= a <= 9 -> 0 <= b <= 9 -> digit a = digit b -> a = b.
Proof.
  unfold digit. intros Ha Hb E.
  apply (f_equal N_of_ascii) in E.
  rewrite !N_ascii_embedding in E by lia. lia.
Qed.

Lemma Format_pad (t : Time.t) :
  calendar t ->
  Time.Format t =
  (pad4 (Time.Year t) ++ "-" ++ pad2 (Time.Month t) ++ "-" ++ pad2 (Time.Day t))%string.
Proof.
  intros (Hy & Hm & Hd). unfold Time.Format.
  now rewrite appendInt_pad4, !appendInt_pad2 by lia.
Qed.

Lemma Format_inj (t1 t2 : Time.t) :
  calendar t1 -> calendar t2 -> Time.Format t1 = Time.Format t2 -> t1 = t2.
Proof.
  intros C1 C2. rewrite (Format_pad t1 C1), (Format_pad t2 C2).
  destruct t1 as [y1 m1 d1], t2 as [y2 m2 d2].
  destruct C1 as (Hy1 & Hm1 & Hd1), C2 as (Hy2 & Hm2 & Hd2).
  cbn [Time.Year Time.Month Time.Day] in *.
  unfold pad4, pad2. cbn [append]. intros E.
  injection E as E1 E2 E3 E4 E5 E6 E7 E8.
  assert (B : forall x k, 0 <= x -> 0 <= x / k mod 10 <= 9)
    by (intros x k Hx; pose proof (Z.mod_pos_bound (x / k) 10 ltac:(lia)); lia).
  assert (B0 : forall x, 0 <= x mod 10 <= 9)
    by (intros x; pose proof (Z.mod_pos_bound x 10 ltac:(lia)); lia).
  assert (D : forall x k n, 0 < k -> 0 <= x <= n -> n < 10 * k -> 0 <= x / k <= 9).
  { intros x k n Hk Hx Hn. split; [apply Z.div_pos; lia|].
    assert (x / k < 10); [apply Z.div_lt_upper_bound; lia | lia]. }
  apply digit_inj in E1; [|apply (D _ _ 9999); lia..].
  apply digit_inj in E2; [|apply B; lia..].
  apply digit_inj in E3; [|apply B; lia..].
  apply digit_inj in E4; [|apply B0..].
  apply digit_inj in E5; [|apply (D _ _ 12); lia..].
  apply digit_inj in E6; [|apply B0..].
  apply digit_inj in E7; [|apply (D _ _ 31); lia..].
  apply digit_inj in E8; [|apply B0..].
  f_equal; dlia.
Qed.

End DateFacts.

(** ** What Unmarshal makes of a member *)

Module DecodeFacts.
Import Bytes BytesFacts Json Strconv Pb JsonPosts ParserFacts NumberFacts ExtensionFacts.

(** The value of one field of a Post. *)
Definition get_field (f : field) (p : Post) : string + Z :=
  match f with
  | FTitle => inl (Title p)
  | FContent => inl (Content p)
  | FCreatedAt => inl (CreatedAt p)
  | FAuthor => inl (Author p)
  | FViewCount => inr (ViewCount p)
  | FLastViewed => inl (LastViewed p)
  end.

Lemma field_eq_dec (f g : field) : {f = g} + {f <> g}.
Proof. decide equality. Defined.

Lemma set_field_other (f g : field) (v : jvalue) (p p' : Post) :
  set_field g v p = Some p' -> g <> f -> get_field f p' = get_field f p.
Proof.
  intros H N.
  destruct g, v; cbn in H; try discriminate H; try (injection H as <-);
    try (destruct (ParseInt lit) as [n|]; [injection H as <- | discriminate H]);
    destruct f; try reflexivity; congruence.
Qed.

Lemma set_field_null (g : field) (p p' : Post) : set_field g JNull p = Some p' -> p' = p.
Proof. destruct g; cbn; now intros [= <-]. Qed.

(** A field that no member sets (no key matches it, or only with the
    value null) keeps its value. *)
Lemma decode_object_absent (ms : list (string * jvalue)) (f : field) (p p' : Post) :
  decode_object ms p = Some p' ->
  (forall k v, In (k, v) ms -> find_field k = Some f -> v = JNull) ->
  get_field f p' = get_field f p.
Proof.
  revert p. induction ms as [|[k v] ms IH]; intros p H A; cbn [decode_object] in H.
  - now injection H as <-.
  - assert (A' : forall k0 v0, In (k0, v0) ms -> find_field k0 = Some f -> v0 = JNull)
      by (intros k0 v0 I0; apply A; now right).
    destruct (find_field k) as [g|] eqn:Fk; [|now apply IH].
    destruct (set_field g v p) as [p1|] eqn:S1; [|discriminate].
    rewrite (IH p1 H A').
    destruct (field_eq_dec g f) as [->|N].
    + rewrite (A k v (or_introl eq_refl) Fk) in S1.
      now rewrite (set_field_null _ _ _ S1).
    + exact (set_field_other f g v p p1 S1 N).
Qed.

Lemma decode_elems_nth (vs : list jvalue) (es : list (option Post)) (i : nat) (v : jvalue) :
  decode_elems vs = Some es -> nth_error vs i = Some v ->
  exists e, nth_error es i = Some e /\ decode_elem v = Some e.
Proof.
  revert es i. induction vs as [|x vs IH]; intros es i H Hn.
  - destruct i; discriminate Hn.
  - cbn [decode_elems] in H.
    destruct (decode_elem x) as [e|] eqn:Ex; [|discriminate].
    destruct (decode_elems vs) as [es'|] eqn:Es; [|discriminate].
    injection H as <-. destruct i as [|i]; cbn [nth_error] in Hn |- *.
    + injection Hn as <-. now exists e.
    + now apply IH.
Qed.

(** A member whose value the field does not take makes the object, and
    so the array around it, undecodable. *)
Lemma decode_object_bad (ms : list (string * jvalue)) (k : string) (v : jvalue)
      (f : field) (p : Post) :
  In (k, v) ms -> find_field k = Some f -> (forall q, set_field f v q = None) ->
  decode_object ms p = None.
Proof.
  revert p. induction ms as [|[k0 v0] ms IH]; intros p I0 Fk B; [contradiction|].
  cbn [decode_object]. destruct I0 as [[= -> ->]|I0].
  - now rewrite Fk, B.
  - destruct (find_field k0) as [g|]; [|now apply IH].
    destruct (set_field g v0 p) as [p1|]; [now apply IH | reflexivity].
Qed.

Lemma decode_elems_bad (vs : list jvalue) (v : jvalue) :
  In v vs -> decode_elem v = None -> decode_elems vs = None.
Proof.
  induction vs as [|x vs IH]; intros I0 B; [contradiction|].
  cbn [decode_elems]. destruct I0 as [->|I0].
  - now rewrite B.
  - rewrite (IH I0 B). now destruct (decode_elem x).
Qed.

(** [ParseInt] reads the decimal form of an integer exactly when it is
    an int64. *)
Lemma ParseInt_range (z : Z) :
  ParseInt (FormatInt z) = if in_int64 z then Some z else None.
Proof.
  unfold FormatInt.
  destruct z as [|p|p]; cbn [Z.to_int NilZero.string_of_int].
  - reflexivity.
  - pose proof (to_uint_head p) as Hh.
    unfold ParseInt, NilZero.string_of_uint.
    pose proof (uint_of_string_of_uint p) as U.
    pose proof (of_uint_to_uint p) as V.
    destruct (Pos.to_uint p) as [|d|d|d|d|d|d|d|d|d|d]; try contradiction;
      cbn [NilEmpty.string_of_uint] in U |- *;
      match goal with
      | |- context [(?c =? "-")%char] => change (c =? "-")%char with false
      end;
      match goal with
      | |- context [(?c =? "+")%char] => change (c =? "+")%char with false
      end; cbv iota; rewrite U, V; reflexivity.
  - unfold ParseInt, NilZero.string_of_uint.
    pose proof (uint_of_string_of_uint p) as U.
    pose proof (of_uint_to_uint p) as V.
    pose proof (DecimalPos.Unsigned.to_uint_nonnil p) as NN.
    destruct (Pos.to_uint p) eqn:E; try congruence; rewrite <- E in *;
      change ("-" =? "-")%char with true; cbv iota;
      rewrite U, V; change (- Z.pos p)%Z with (Z.neg p); reflexivity.
Qed.

(** A text of white space only is no JSON text. *)
Lemma parse_json_blank (data : string) : all_space data -> parse_json data = None.
Proof.
  intros A. unfold parse_json.
  replace (2 * String.length data + 2)%nat with (S (2 * String.length data + 1)) by lia.
  now rewrite parse_value_eq, (all_space_skip_ws data A).
Qed.

End DecodeFacts.

(** * The claims of the specification *)

Module Claims.
Import Bytes Utf8 Strconv Json Pb JsonPosts Errors Runtime Main WellFormed Spec.
Import CodecFacts ValueFacts ServerFacts ShapeFacts OutcomeFacts Examples.

(** ** ListAndTouch *)

(** C1 (as amended).  For every collection successfully loaded from the
    backing file in which no entry is null, and when the write of the
    file succeeds, GetPosts returns every stored post in stored order:
    the post at index [i] comes back with its view counter incremented
    by 1 in int64 arithmetic (exactly one more than stored unless it was
    the largest int64), its last-viewed date set to the date the clock
    shows when that post is reached, and its title, content, creation
    date and author as stored; the file then holds exactly the returned
    collection. *)
Theorem C1_GetPosts_touches_every_post (env : Env) (st : State) (sl : PostSlice) :
  loads env st sl -> no_nil sl -> write_fault env (writes st) = None ->
  exists st' sl',
    GetPosts env st = (st', Returns (Some (mkPosts sl')) None) /\
    len sl' = len sl /\
    (forall i p,
        nth_error (elems sl) i = Some (Some p) ->
        exists p',
          nth_error (elems sl') i = Some (Some p') /\
          ViewCount p' = int64_add (ViewCount p) 1 /\
          (ViewCount p <> maxInt64 -> ViewCount p' = (ViewCount p + 1)%Z) /\
          LastViewed p' = today env (ticks st + i) /\
          Title p' = Title p /\ Content p' = Content p /\
          CreatedAt p' = CreatedAt p /\ Author p' = Author p) /\
    file st' = Some (MarshalIndent sl') /\
    holds st' sl'.
Proof. exact (GetPosts_spec env st sl). Qed.

Lemma C1_witness :
  loads env0 st_A (Some [Some (post_A 3)]) /\
  no_nil (Some [Some (post_A 3)]) /\
  write_fault env0 (writes st_A) = None /\
  exists st' sl',
    GetPosts env0 st_A = (st', Returns (Some (mkPosts sl')) None) /\
    len sl' = 1%nat /\ holds st' sl'.
Proof.
  assert (L : loads env0 st_A (Some [Some (post_A 3)]))
    by (eexists; vm_compute; reflexivity).
  assert (N : no_nil (Some [Some (post_A 3)]))
    by (constructor; [discriminate | constructor]).
  split; [exact L|]. split; [exact N|]. split; [reflexivity|].
  destruct (C1_GetPosts_touches_every_post env0 st_A _ L N eq_refl)
    as (st' & sl' & E & Hl & _ & _ & Hh).
  exists st', sl'. split; [exact E|]. split; [exact Hl | exact Hh].
Defined.

(** C1, as stated, fails on a file with a null entry: the file loads,
    and GetPosts panics on the nil pointer instead of returning. *)
Lemma C1_counterexample_null_entry :
  loads env0 st_null_entry (Some [None]) /\
  write_fault env0 (writes st_null_entry) = None /\
  snd (GetPosts env0 st_null_entry)
  = Panics "invalid memory address or nil pointer dereference".
Proof.
  split; [eexists; vm_compute; reflexivity|]. split; reflexivity.
Qed.

(** ** Create *)

(** C2.  For every request and every successfully loaded collection
    (the write of the file succeeding), CreatePost builds a post whose
    Title, Content and Author are the request's, whose ViewCount is 0
    and whose CreatedAt and LastViewed are the dates the clock shows at
    the two readings the operation makes; the request's own createdAt
    plays no part; the post is appended after the loaded entries, which
    are saved as they were loaded; and the operation returns that post
    alone. *)
Theorem C2_CreatePost_appends_new_post
        (env : Env) (st : State) (sl : PostSlice) (req : option CreatePostRequest) :
  loads env st sl -> write_fault env (writes st) = None ->
  exists st' newPost,
    CreatePost env st req = (st', Returns (Some newPost) None) /\
    Title newPost = GetTitle req /\ Content newPost = GetContent req /\
    Author newPost = GetAuthor req /\ ViewCount newPost = 0%Z /\
    CreatedAt newPost = today env (ticks st) /\
    LastViewed newPost = today env (S (ticks st)) /\
    (forall r c, req = Some r ->
       CreatePost env st
         (Some (mkCreatePostRequest (req_Title r) (req_Content r) c (req_Author r)))
       = CreatePost env st req) /\
    file st' = Some (MarshalIndent (Some (elems sl ++ [Some newPost])%list)) /\
    (ValidString (GetTitle req) = true -> ValidString (GetContent req) = true ->
     ValidString (GetAuthor req) = true ->
     holds st' (Some (elems sl ++ [Some newPost])%list)).
Proof.
  intros L W. pose proof (loads_wf env st sl L) as Wf.
  eexists _, (new_post env (ticks st) req).
  split; [now apply CreatePost_ok with (sl := sl)|].
  repeat (split; [reflexivity|]).
  split; [|split; [reflexivity|]].
  - intros r c ->. rewrite !(CreatePost_ok env st sl) by assumption. reflexivity.
  - intros V1 V2 V3. apply holds_MarshalIndent; [reflexivity|].
    cbn [wf_slice]. rewrite forallb_app. apply andb_true_iff. split.
    + destruct sl as [l|]; [exact Wf | reflexivity].
    + cbn [forallb wf_elem]. rewrite andb_true_r. apply wf_post_iff.
      unfold new_post, today.
      cbn [Title Content CreatedAt Author ViewCount LastViewed].
      rewrite !Format_valid. repeat split; assumption.
Qed.

Lemma C2_witness :
  loads env0 st_A (Some [Some (post_A 3)]) /\
  write_fault env0 (writes st_A) = None /\
  exists st' newPost,
    CreatePost env0 st_A req_B = (st', Returns (Some newPost) None) /\
    CreatedAt newPost = "2026-11-02" /\
    file st' = Some (MarshalIndent (Some [Some (post_A 3); Some newPost])).
Proof.
  assert (L : loads env0 st_A (Some [Some (post_A 3)]))
    by (eexists; vm_compute; reflexivity).
  split; [exact L|]. split; [reflexivity|].
  destruct (C2_CreatePost_appends_new_post env0 st_A _ req_B L eq_refl)
    as (st' & p & E & _ & _ & _ & _ & Hc & _ & _ & Hf & _).
  exists st', p. split; [exact E|]. split; [exact Hc | exact Hf].
Defined.

(** ** Load *)

(** C3 (as amended).  Load fails with an error of kind IOError (a status
    of code Internal that wraps the error of the file system) when the
    backing file does not exist or cannot be read; it fails with an
    error of the distinct kind FormatError (a status of code Internal
    that wraps the decoder's error) exactly when the bytes read are not
    a serialized sequence of Post records in the lenient sense, where
    JSON null is accepted in place of the sequence, of a record and of a
    field value; in both failures the caller's collection is left as it
    was, and a missing file is never read as an empty collection.  Load
    never changes the file. *)
Theorem C3_loadPost_error_kinds (env : Env) (st : State) (posts : Posts) :
  let '(st1, posts1, err) := loadPost env st posts in
  file st1 = file st /\
  match read_fault env (reads st), file st with
  | None, Some data =>
    if serialized_sequence true data
    then err = None /\ Unmarshal data = inr (Posts_ posts1)
    else posts1 = posts /\
         exists e je, err = Some e /\ store_error_kind e = Some FormatError /\
           e = StatusError Internal ("failed to parse post data %v" ++ nl) (JsonError je)
  | _, _ =>
    posts1 = posts /\
    exists e op errno, err = Some e /\ store_error_kind e = Some IOError /\
      e = StatusError Internal ("failed to read posts file: %v" ++ nl)
                      (PathError op filePath errno)
  end.
Proof.
  unfold loadPost, ReadFile.
  destruct (read_fault env (reads st)) as [[e|e]|].
  - split; [reflexivity|]. split; [reflexivity|]. now eexists _, _, _.
  - split; [reflexivity|]. split; [reflexivity|]. now eexists _, _, _.
  - destruct (file st) as [data|].
    + pose proof (Unmarshal_accepts data) as A.
      destruct (Unmarshal data) as [je|sl]; rewrite A; (split; [reflexivity|]).
      * split; [reflexivity|]. now eexists _, _.
      * now split.
    + split; [reflexivity|]. split; [reflexivity|]. now eexists _, _, _.
Qed.

(** C3, as stated, fails on the text [null]: it is not a serialized
    sequence of Post records, and Load succeeds on it. *)
Lemma C3_counterexample_null :
  serialized_sequence false "null" = false /\
  read_fault env0 (reads st_null) = None /\
  file st_null = Some "null" /\
  snd (loadPost env0 st_null (mkPosts (Some []))) = None.
Proof. repeat split. Qed.

Example load_not_json :
  exists e, snd (loadPost env0 st_not_json (mkPosts (Some []))) = Some e /\
            store_error_kind e = Some FormatError.
Proof. eexists. split; vm_compute; reflexivity. Qed.

Example load_missing :
  exists e, snd (loadPost env0 st_missing (mkPosts (Some []))) = Some e /\
            store_error_kind e = Some IOError.
Proof. eexists. split; vm_compute; reflexivity. Qed.

(** ** Save, then Load *)

(** C4.  Round trip: for every well-formed collection (strings valid
    UTF-8, view counts int64), Save followed by Load, neither failing
    on the file system, yields that collection: the same entries in the
    same order, every string and every view count exactly as saved. *)
Theorem C4_Save_then_Load_round_trip
        (env : Env) (st : State) (sl : PostSlice) (posts : Posts) :
  wf_slice sl = true ->
  write_fault env (writes st) = None -> read_fault env (reads st) = None ->
  let '(st1, err1) := savePosts env st (mkPosts sl) in
  let '(st2, posts2, err2) := loadPost env st1 posts in
  err1 = None /\ err2 = None /\ Posts_ posts2 = sl.
Proof.
  intros Wf W R. rewrite savePosts_ok by exact W. cbn [Posts_].
  rewrite (loadPost_ok env _ posts (MarshalIndent sl) sl);
    [now repeat split | exact R | reflexivity | now apply Unmarshal_MarshalIndent].
Qed.

Definition sample_collection : PostSlice :=
  Some [Some (post_A 3); None; Some (mkPost "" "<&>" "" "" minInt64 "")].

Lemma C4_witness :
  wf_slice sample_collection = true /\
  write_fault env0 (writes st_missing) = None /\
  read_fault env0 (reads st_missing) = None /\
  let '(st1, err1) := savePosts env0 st_missing (mkPosts sample_collection) in
  let '(st2, posts2, err2) := loadPost env0 st1 (mkPosts (Some [])) in
  err1 = None /\ err2 = None /\ Posts_ posts2 = sample_collection.
Proof.
  split; [vm_compute; reflexivity|]. split; [reflexivity|]. split; [reflexivity|].
  apply (C4_Save_then_Load_round_trip env0 st_missing sample_collection);
    [vm_compute; reflexivity | reflexivity | reflexivity].
Defined.

(** The condition on the strings is needed: a byte that is not UTF-8 is
    saved as the replacement character U+FFFD. *)
Example invalid_utf8_is_replaced :
  let p := mkPost (String "255" "") "" "" "" 0 "" in
  wf_post p = false /\
  Unmarshal (MarshalIndent (Some [Some p]))
  = inr (Some [Some (mkPost (EncodeRune RuneError) "" "" "" 0 "")]).
Proof. split; vm_compute; reflexivity. Qed.

(** ** Errors inside the two operations *)

(** C5 (as amended).  In GetPosts an error of the Load step is returned
    to the caller unchanged; in CreatePost it is wrapped in a status of
    code Internal that carries it.  In both operations an error of the
    Save step is wrapped in a status of code Internal that carries it.
    In each of these cases the operation returns no result value. *)
Theorem C5_error_propagation (env : Env) (st : State) :
  (forall st1 posts1 e,
      loadPost env st (mkPosts (Some [])) = (st1, posts1, Some e) ->
      GetPosts env st = (st1, Returns None (Some e))) /\
  (forall st1 posts1 st2 sl st3 e,
      loadPost env st (mkPosts (Some [])) = (st1, posts1, None) ->
      touch_slice env st1 (Posts_ posts1) = (st2, Some sl) ->
      savePosts env st2 (mkPosts sl) = (st3, Some e) ->
      GetPosts env st
      = (st3, Returns None (Some (StatusError Internal "failed to save posts %v" e)))) /\
  (forall req st1 posts1 e,
      loadPost env (mkState (file st) (S (S (ticks st))) (reads st) (writes st))
               (mkPosts (Some [])) = (st1, posts1, Some e) ->
      CreatePost env st req
      = (st1, Returns None
                (Some (StatusError Internal ("failed to load posts: %v" ++ nl) e)))) /\
  (forall req st1 posts1 st2 e,
      loadPost env (mkState (file st) (S (S (ticks st))) (reads st) (writes st))
               (mkPosts (Some [])) = (st1, posts1, None) ->
      savePosts env st1
        (mkPosts (append (Posts_ posts1)
                         (Some (new_post env (ticks st) req)))) = (st2, Some e) ->
      CreatePost env st req
      = (st2, Returns None
                (Some (StatusError Internal "failed to save posts: %v" e)))).
Proof.
  split; [|split; [|split]].
  - intros st1 posts1 e L. unfold GetPosts. now rewrite L.
  - intros st1 posts1 st2 sl st3 e L T S. unfold GetPosts. now rewrite L, T, S.
  - intros req st1 posts1 e L. unfold CreatePost, Now. cbn zeta.
    cbn [file ticks reads writes]. now rewrite L.
  - intros req st1 posts1 st2 e L S. unfold CreatePost, Now. cbn zeta.
    cbn [file ticks reads writes]. rewrite L.
    unfold new_post, today in S. now rewrite S.
Qed.

Lemma C5_witness :
  snd (GetPosts env0 st_missing)
  = Returns None
      (Some (StatusError Internal ("failed to read posts file: %v" ++ nl)
                         (PathError "open" filePath ENOENT))) /\
  snd (GetPosts env_readonly st_A)
  = Returns None
      (Some (StatusError Internal "failed to save posts %v"
                         (PathError "open" filePath EACCES))) /\
  snd (CreatePost env0 st_not_json req_B)
  = Returns None
      (Some (StatusError Internal ("failed to load posts: %v" ++ nl)
               (StatusError Internal ("failed to parse post data %v" ++ nl)
                            (JsonError SyntaxError)))) /\
  snd (CreatePost env_readonly st_A req_B)
  = Returns None
      (Some (StatusError Internal "failed to save posts: %v"
                         (PathError "open" filePath EACCES))).
Proof.
  split; [|split; [|split]].
  - destruct (C5_error_propagation env0 st_missing) as (H & _).
    erewrite H by (vm_compute; reflexivity). reflexivity.
  - destruct (C5_error_propagation env_readonly st_A) as (_ & H & _).
    erewrite H by (vm_compute; reflexivity). reflexivity.
  - destruct (C5_error_propagation env0 st_not_json) as (_ & _ & H & _).
    erewrite H by (vm_compute; reflexivity). reflexivity.
  - destruct (C5_error_propagation env_readonly st_A) as (_ & _ & _ & H).
    erewrite H by (vm_compute; reflexivity). reflexivity.
Defined.

(** C5, as stated, fails for CreatePost: with the file missing, the
    error it returns is not the error of its Load step but a status
    wrapping it. *)
Lemma C5_counterexample_CreatePost_wraps :
  exists e,
    snd (loadPost env0 (mkState (file st_missing) 2 0 0) (mkPosts (Some []))) = Some e /\
    snd (CreatePost env0 st_missing req_B)
    = Returns None (Some (StatusError Internal ("failed to load posts: %v" ++ nl) e)) /\
    StatusError Internal ("failed to load posts: %v" ++ nl) e <> e.
Proof.
  eexists. split; [vm_compute; reflexivity|]. split; [vm_compute; reflexivity|].
  discriminate.
Qed.

(** ** Two calls of ListAndTouch in a row *)

(** C6 (as amended).  Of two consecutive successful calls of GetPosts,
    the second returns the posts of the first, each with its view
    counter incremented once more in int64 arithmetic: strictly greater
    than in the first result unless it was the largest int64 there, in
    which case it wraps to the smallest.  In each result the last-viewed
    date of a post is the date the clock showed when that call reached
    it; the other fields are the same in both. *)
Theorem C6_second_call_increments_again
        (env : Env) (st st1 st2 : State) (sl1 sl2 : PostSlice) :
  GetPosts env st = (st1, Returns (Some (mkPosts sl1)) None) ->
  GetPosts env st1 = (st2, Returns (Some (mkPosts sl2)) None) ->
  len sl2 = len sl1 /\
  forall i p1,
    nth_error (elems sl1) i = Some (Some p1) ->
    exists p2,
      nth_error (elems sl2) i = Some (Some p2) /\
      ViewCount p2 = int64_add (ViewCount p1) 1 /\
      (ViewCount p1 <> maxInt64 -> (ViewCount p1 < ViewCount p2)%Z) /\
      (ViewCount p1 = maxInt64 -> ViewCount p2 = minInt64) /\
      LastViewed p1 = today env (ticks st + i) /\
      LastViewed p2 = today env (ticks st1 + i) /\
      same_identity p1 p2.
Proof.
  intros G1 G2.
  apply GetPosts_returns in G1 as (sl & L & N & W & E1 & Est1).
  apply GetPosts_returns in G2 as (sl1' & L' & N' & W' & E2 & _).
  assert (Wf1 : wf_slice sl1 = true)
    by (rewrite E1; apply wf_touched, (loads_wf env st sl L)).
  assert (sl1' = sl1).
  { apply loads_iff in L' as (_ & H').
    apply (holds_unique st1); [exact H'|].
    apply holds_MarshalIndent; [now rewrite Est1 | exact Wf1]. }
  subst sl1'. split; [rewrite E2; apply len_touched|].
  intros i p1 Hi. exists (touch (today env (ticks st1 + i)) p1).
  split; [rewrite E2, nth_touched, Hi; reflexivity|].
  split; [reflexivity|].
  assert (R1 : in_int64 (ViewCount p1) = true)
    by (eapply (loaded_in_int64 env st1); eauto).
  cbn [touch ViewCount LastViewed]. rewrite (int64_incr _ R1).
  split; [|split; [|split; [|split; [reflexivity | now repeat split]]]].
  - intros Hm. destruct (Z.eqb_spec (ViewCount p1) maxInt64); [contradiction | lia].
  - intros ->. reflexivity.
  - rewrite E1, nth_touched in Hi.
    destruct (nth_error (elems sl) i) as [[p|]|]; cbn in Hi; try discriminate.
    now injection Hi as <-.
Qed.

Lemma C6_witness :
  exists st1 st2 sl1 sl2,
    GetPosts env0 st_A = (st1, Returns (Some (mkPosts sl1)) None) /\
    GetPosts env0 st1 = (st2, Returns (Some (mkPosts sl2)) None) /\
    len sl2 = len sl1.
Proof.
  eexists _, _, _, _.
  assert (G1 : GetPosts env0 st_A
               = (fst (GetPosts env0 st_A),
                  Returns (Some (mkPosts (Some [Some (touch "2026-11-02" (post_A 3))])))
                          None))
    by (vm_compute; reflexivity).
  assert (G2 : GetPosts env0 (fst (GetPosts env0 st_A))
               = (fst (GetPosts env0 (fst (GetPosts env0 st_A))),
                  Returns (Some (mkPosts (Some [Some (touch "2026-11-02"
                             (touch "2026-11-02" (post_A 3)))]))) None))
    by (vm_compute; reflexivity).
  split; [exact G1|]. split; [exact G2|].
  exact (proj1 (C6_second_call_increments_again env0 _ _ _ _ _ G1 G2)).
Defined.

(** C6, as stated, fails when the stored counter is one below the
    largest int64: the first call returns the largest int64 and the
    second the smallest, which is not greater. *)
Lemma C6_counterexample_wraps :
  exists st1 st2 p1 p2,
    GetPosts env0 st_A_near_max
    = (st1, Returns (Some (mkPosts (Some [Some p1]))) None) /\
    GetPosts env0 st1 = (st2, Returns (Some (mkPosts (Some [Some p2]))) None) /\
    ~ (ViewCount p1 < ViewCount p2)%Z.
Proof.
  eexists _, _, _, _. split; [vm_compute; reflexivity|].
  split; [vm_compute; reflexivity|]. vm_compute. discriminate.
Qed.

(** ** The empty collection *)

(** C7.  When the backing file holds an empty collection (and the write
    of the file succeeds), GetPosts succeeds without error and returns
    an empty sequence, reads the clock not at all, and the Save it
    performs leaves the persisted collection empty: the file holds the
    collection that was loaded. *)
Theorem C7_GetPosts_on_empty_collection (env : Env) (st : State) (sl : PostSlice) :
  loads env st sl -> len sl = 0%nat -> write_fault env (writes st) = None ->
  exists st',
    GetPosts env st = (st', Returns (Some (mkPosts sl)) None) /\
    ticks st' = ticks st /\
    file st' = Some (MarshalIndent sl) /\
    holds st' sl.
Proof.
  intros L E W.
  assert (N : no_nil sl).
  { unfold no_nil. destruct sl as [[|e l]|]; cbn in *; try constructor; discriminate. }
  assert (T : forall t, touched env t sl = sl).
  { intros t. destruct sl as [[|e l]|]; cbn in *; try reflexivity; discriminate. }
  eexists. rewrite (GetPosts_ok env st sl L N W), T, E, Nat.add_0_r.
  split; [reflexivity|]. split; [reflexivity|]. split; [reflexivity|].
  apply holds_MarshalIndent; [reflexivity | apply (loads_wf env st sl L)].
Qed.

Lemma C7_witness :
  loads env0 st_empty (Some []) /\ len (Some []) = 0%nat /\
  write_fault env0 (writes st_empty) = None /\
  exists st',
    GetPosts env0 st_empty = (st', Returns (Some (mkPosts (Some []))) None) /\
    file st' = Some "[]".
Proof.
  assert (L : loads env0 st_empty (Some [])) by (eexists; vm_compute; reflexivity).
  split; [exact L|]. split; [reflexivity|]. split; [reflexivity|].
  destruct (C7_GetPosts_on_empty_collection env0 st_empty (Some []) L eq_refl eq_refl)
    as (st' & E & _ & Hf & _).
  exists st'. split; [exact E | exact Hf].
Defined.

(** ** Frame *)

(** C8 (as amended).  Frame: whatever the outcome of an operation,
    provided a failing write fails before touching the file, the file
    is either left as it was or holds a collection that keeps every
    entry that was stored, in order, with its Title, Content, CreatedAt
    and Author as they were.  GetPosts saves the entries it loaded, one
    for one (only ViewCount and LastViewed may differ); CreatePost saves
    the entries it loaded exactly as they were, followed by the new
    post. *)
Theorem C8_frame (env : Env) (st : State) :
  no_short_write env st ->
  (file (fst (GetPosts env st)) = file st \/
   exists sl sl',
     loads env st sl /\
     file (fst (GetPosts env st)) = Some (MarshalIndent sl') /\
     holds (fst (GetPosts env st)) sl' /\
     Forall2 same_entry (elems sl) (elems sl')) /\
  (forall req,
      file (fst (CreatePost env st req)) = file st \/
      exists sl newPost,
        loads env st sl /\
        file (fst (CreatePost env st req))
        = Some (MarshalIndent (Some (elems sl ++ [Some newPost])%list)) /\
        keeps (elems sl) (elems sl ++ [Some newPost])%list).
Proof.
  intros NS. unfold no_short_write in NS. split.
  - unfold GetPosts.
    destruct (loadPost env st (mkPosts (Some []))) as [[st1 posts1] [e|]] eqn:L.
    { left. pose proof (loadPost_keeps_file env st (mkPosts (Some []))) as H.
      now rewrite L in H. }
    destruct posts1 as [sl]. cbn [Posts_].
    assert (Ls : loads env st sl) by (now exists st1).
    apply loadPost_inv in L as (-> & _).
    destruct (touch_slice_cases env (after_read st) sl) as [[N T]|[N (st2 & T & Hf & _)]];
      rewrite T; [|left; exact Hf].
    unfold savePosts, WriteFile. cbn [after_read writes ticks reads file Posts_].
    destruct (write_fault env (writes st)) as [[e|e n]|]; [now left | contradiction |].
    right. exists sl, (touched env (ticks st) sl). cbn [fst file].
    split; [exact Ls|]. split; [reflexivity|]. split.
    + apply holds_MarshalIndent; [reflexivity|].
      apply wf_touched, (loads_wf env st sl Ls).
    + destruct sl as [l|]; cbn [touched option_map elems];
        [apply Forall2_touch_from | constructor].
  - intros req. unfold CreatePost, Now. cbn zeta. cbn [file ticks reads writes].
    destruct (loadPost env (mkState (file st) (S (S (ticks st))) (reads st) (writes st))
                       (mkPosts (Some []))) as [[st1 posts1] [e|]] eqn:L.
    { left.
      pose proof (loadPost_keeps_file env
                    (mkState (file st) (S (S (ticks st))) (reads st) (writes st))
                    (mkPosts (Some []))) as H.
      now rewrite L in H. }
    destruct posts1 as [sl]. cbn [Posts_].
    assert (Ls : loads env st sl).
    { assert (L2 : loads env (mkState (file st) (S (S (ticks st))) (reads st) (writes st)) sl)
        by (now exists st1).
      apply loads_iff in L2. apply loads_iff. exact L2. }
    apply loadPost_inv in L as (-> & _).
    unfold savePosts, WriteFile. cbn [after_read writes ticks reads file Posts_].
    destruct (write_fault env (writes st)) as [[e|e n]|]; [now left | contradiction |].
    right. eexists sl, _. cbn [fst file append].
    split; [exact Ls|]. split; [reflexivity|].
    exists (elems sl), [Some (mkPost (GetTitle req) (GetContent req)
                               (Time.Format (clock env (ticks st))) (GetAuthor req) 0
                               (Time.Format (clock env (S (ticks st)))))].
    split; [reflexivity|].
    clear. induction (elems sl) as [|e l IH]; constructor; [|exact IH].
    destruct e; cbn; [now repeat split | exact I].
Qed.

Lemma C8_witness :
  no_short_write env0 st_A /\
  (file (fst (GetPosts env0 st_A)) = file st_A \/
   exists sl sl',
     loads env0 st_A sl /\
     file (fst (GetPosts env0 st_A)) = Some (MarshalIndent sl') /\
     holds (fst (GetPosts env0 st_A)) sl' /\
     Forall2 same_entry (elems sl) (elems sl')).
Proof.
  split; [exact I|]. exact (proj1 (C8_frame env0 st_A I)).
Defined.

(** C8, as stated, fails when a write is cut short: GetPosts loads the
    stored post, its Save truncates the file and then fails (disk
    full), and the file no longer holds any collection. *)
Lemma C8_counterexample_short_write :
  holds st_A (Some [Some (post_A 3)]) /\
  snd (GetPosts env_full st_A)
  = Returns None (Some (StatusError Internal "failed to save posts %v"
                                    (PathError "write" filePath ENOSPC))) /\
  file (fst (GetPosts env_full st_A)) = Some "" /\
  forall sl, ~ holds (fst (GetPosts env_full st_A)) sl.
Proof.
  split; [eexists; split; [reflexivity | vm_compute; reflexivity]|].
  split; [vm_compute; reflexivity|]. split; [vm_compute; reflexivity|].
  intros sl (data & F & U).
  assert (E : file (fst (GetPosts env_full st_A)) = Some "")
    by (vm_compute; reflexivity).
  rewrite E in F. injection F as <-. vm_compute in U. discriminate U.
Qed.

(** ** The text null *)

(** C9.  Load succeeds on a backing file whose entire content is the
    JSON literal null, although null is not a serialized sequence of
    Post records: it yields the nil slice, an empty collection, and no
    error; so GetPosts on such a file (its write succeeding) returns an
    empty sequence without error. *)
Theorem C9_null_is_the_nil_slice (env : Env) (st : State) (posts : Posts) :
  file st = Some "null" -> read_fault env (reads st) = None ->
  write_fault env (writes st) = None ->
  serialized_sequence false "null" = false /\
  (exists st1, loadPost env st posts = (st1, mkPosts None, None)) /\
  len None = 0%nat /\
  exists st',
    GetPosts env st = (st', Returns (Some (mkPosts None)) None) /\
    file st' = Some "null".
Proof.
  intros F R W. split; [reflexivity|].
  assert (L : forall ps, loadPost env st ps = (after_read st, mkPosts None, None))
    by (intros ps; now apply loadPost_ok with (data := "null")).
  split; [eexists; apply L|]. split; [reflexivity|].
  eexists. rewrite (GetPosts_ok env st None); [|now eexists; apply L|constructor|exact W].
  split; reflexivity.
Qed.

Lemma C9_witness :
  file st_null = Some "null" /\
  exists st',
    GetPosts env0 st_null = (st', Returns (Some (mkPosts None)) None) /\
    file st' = Some "null".
Proof.
  split; [reflexivity|].
  exact (proj2 (proj2 (proj2
    (C9_null_is_the_nil_slice env0 st_null (mkPosts (Some [])) eq_refl eq_refl eq_refl)))).
Defined.

(** ** Overflow of the view counter *)

(** C10.  The increment in GetPosts is 64-bit two's-complement addition:
    for a post whose stored ViewCount is the largest int64, GetPosts
    (on a collection without null entry, its write succeeding) returns
    that post with the smallest int64, a negative number, as its
    ViewCount, and persists it so: nothing checks that the counter stays
    non-negative, and the file afterwards deserializes to the collection
    with the negative counter. *)
Theorem C10_view_count_wraps_around
        (env : Env) (st : State) (sl : PostSlice) (i : nat) (p : Post) :
  loads env st sl -> no_nil sl -> write_fault env (writes st) = None ->
  nth_error (elems sl) i = Some (Some p) -> ViewCount p = maxInt64 ->
  int64_add maxInt64 1 = minInt64 /\
  exists st' sl' p',
    GetPosts env st = (st', Returns (Some (mkPosts sl')) None) /\
    nth_error (elems sl') i = Some (Some p') /\
    ViewCount p' = minInt64 /\ (ViewCount p' < 0)%Z /\
    file st' = Some (MarshalIndent sl') /\
    holds st' sl'.
Proof.
  intros L N W Hi Hm. split; [reflexivity|].
  destruct (GetPosts_spec env st sl L N W)
    as (st' & sl' & G & _ & Hp & Hf & Hh).
  destruct (Hp i p Hi) as (p' & Hi' & Hv & _).
  exists st', sl', p'. rewrite Hv, Hm.
  repeat split; assumption || reflexivity.
Qed.

Lemma C10_witness :
  loads env0 st_A_max (Some [Some (post_A maxInt64)]) /\
  no_nil (Some [Some (post_A maxInt64)]) /\
  write_fault env0 (writes st_A_max) = None /\
  exists st' sl' p',
    GetPosts env0 st_A_max = (st', Returns (Some (mkPosts sl')) None) /\
    nth_error (elems sl') 0 = Some (Some p') /\
    ViewCount p' = minInt64 /\ holds st' sl'.
Proof.
  assert (L : loads env0 st_A_max (Some [Some (post_A maxInt64)]))
    by (eexists; vm_compute; reflexivity).
  assert (N : no_nil (Some [Some (post_A maxInt64)]))
    by (constructor; [discriminate | constructor]).
  split; [exact L|]. split; [exact N|]. split; [reflexivity|].
  destruct (C10_view_count_wraps_around env0 st_A_max _ 0 _ L N eq_refl eq_refl eq_refl)
    as (_ & st' & sl' & p' & G & Hi & Hv & _ & _ & Hh).
  exists st', sl', p'. repeat split; assumption.
Defined.

(** ** A session *)

(** The example of the specification: on a file holding [[]], Create
    returns the post with ViewCount 0; ListAndTouch then returns it with
    ViewCount 1, and a second ListAndTouch with ViewCount 2. *)
Example create_then_list_twice :
  let '(st1, r1) := CreatePost env0 st_empty req_B in
  let '(st2, r2) := GetPosts env0 st1 in
  let '(st3, r3) := GetPosts env0 st2 in
  r1 = Returns (Some (mkPost "B" "second" "2026-11-02" "bob" 0 "2026-11-02")) None /\
  r2 = Returns (Some (mkPosts (Some [Some (mkPost "B" "second" "2026-11-02" "bob" 1
                                                  "2026-11-02")]))) None /\
  r3 = Returns (Some (mkPosts (Some [Some (mkPost "B" "second" "2026-11-02" "bob" 2
                                                  "2026-11-02")]))) None.
Proof. vm_compute. repeat split. Qed.

End Claims.

(** * Further properties of the server *)

Module Further.
Import Bytes Utf8 Strconv Json Pb JsonPosts Errors Runtime Main WellFormed Spec.
Import ParserFacts CodecFacts ValueFacts ServerFacts OutcomeFacts.
Import Session HandlerFacts SessionFacts ExtensionFacts CutFacts DateFacts DecodeFacts.
Import Examples.

(** A file that holds post A followed by a null entry. *)
Definition text_A_null : string :=
  "[{" ++ quoted "Title" ++ ":" ++ quoted "A" ++ "}, null]".

Definition st_A_null : State := state_of (Some text_A_null).

Definition post_title_A : Post := mkPost "A" "" "" "" 0 "".

(** ** One request *)

(** X1.  GetPosts panics exactly when the collection it loaded has a nil
    entry (a null in the file's array).  It then has read the file
    once and the clock once for each entry before the first nil one,
    and has not written: the file is as it was. *)
Theorem GetPosts_panics_exactly_on_a_nil_entry (env : Env) (st : State) (sl : PostSlice) :
  loads env st sl ->
  ((exists st' msg, GetPosts env st = (st', Panics msg)) <-> ~ no_nil sl) /\
  (~ no_nil sl ->
   GetPosts env st =
   (mkState (file st) (ticks st + live_prefix (elems sl)) (S (reads st)) (writes st),
    Panics "invalid memory address or nil pointer dereference")).
Proof.
  intros L. split; [split|].
  - intros (st' & msg & E) N.
    rewrite (GetPosts_write_cases env st sl L N) in E.
    destruct (write_fault env (writes st)) as [[e|e n]|]; discriminate E.
  - intros N. eexists _, _. exact (GetPosts_nil_entry env st sl L N).
  - exact (GetPosts_nil_entry env st sl L).
Qed.

Lemma GetPosts_panics_witness :
  loads env0 st_A_null (Some [Some post_title_A; None]) /\
  ~ no_nil (Some [Some post_title_A; None]) /\
  GetPosts env0 st_A_null =
  (mkState (Some text_A_null) 1 1 0,
   Panics "invalid memory address or nil pointer dereference").
Proof.
  assert (L : loads env0 st_A_null (Some [Some post_title_A; None]))
    by (eexists; vm_compute; reflexivity).
  assert (N : ~ no_nil (Some [Some post_title_A; None]))
    by (intros N; apply Forall_inv_tail, Forall_inv in N; congruence).
  split; [exact L|]. split; [exact N|].
  exact (proj2 (GetPosts_panics_exactly_on_a_nil_entry env0 st_A_null _ L) N).
Defined.

(** X2.  Whatever the file holds and whatever fails, GetPosts ends in
    one of three ways: a collection and no error; no collection and a
    status of code Internal; or the nil-pointer panic, which needs a
    loaded collection with a nil entry.  CreatePost ends in one of two:
    a post and no error, or no post and a status of code Internal; it
    never panics.  No call returns both a result and an error, or
    neither. *)
Theorem rpc_outcomes (env : Env) (st : State) :
  (exists st',
      (exists posts, GetPosts env st = (st', Returns (Some posts) None)) \/
      (exists f e, GetPosts env st = (st', Returns None (Some (StatusError Internal f e)))) \/
      (GetPosts env st = (st', Panics "invalid memory address or nil pointer dereference") /\
       exists sl, loads env st sl /\ ~ no_nil sl)) /\
  (forall req, exists st',
      (exists p, CreatePost env st req = (st', Returns (Some p) None)) \/
      (exists f e,
          CreatePost env st req = (st', Returns None (Some (StatusError Internal f e))))).
Proof.
  split; [|intros req]; destruct (loads_dec env st) as [[sl L]|N].
  - destruct sl as [l|].
    + destruct (no_nil_dec l) as [Nn|Nn].
      * rewrite (GetPosts_write_cases env st (Some l) L Nn).
        destruct (write_fault env (writes st)) as [[e|e n]|]; eexists.
        -- right; left. now eexists _, _.
        -- right; left. now eexists _, _.
        -- left. now eexists.
      * eexists. right; right. split; [exact (GetPosts_nil_entry env st _ L Nn)|].
        now exists (Some l).
    + rewrite (GetPosts_write_cases env st None L (Forall_nil _)).
      destruct (write_fault env (writes st)) as [[e|e n]|]; eexists.
      * right; left. now eexists _, _.
      * right; left. now eexists _, _.
      * left. now eexists.
  - destruct (GetPosts_load_fails env st N) as (f & e & E).
    eexists. right; left. exists f, e. exact E.
  - rewrite (CreatePost_write_cases env st sl req L).
    destruct (write_fault env (writes st)) as [[e|e n]|]; eexists.
    + right. now eexists _, _.
    + right. now eexists _, _.
    + left. now eexists.
  - destruct (CreatePost_load_fails env st req N) as (e & E).
    eexists. right. eexists _, _. exact E.
Qed.



(** ** Load and Save *)

(** X4.  Whatever bytes the file holds, a collection that Load yields is
    well-formed: every string is valid UTF-8 and every view count is an
    int64.  So saving it back as it was loaded and loading again (the
    write and the second read succeeding) yields the same collection,
    however the file was laid out before. *)
Theorem loaded_collection_is_well_formed (env : Env) (st : State) (sl : PostSlice) :
  loads env st sl ->
  wf_slice sl = true /\
  (write_fault env (writes st) = None -> read_fault env (S (reads st)) = None ->
   forall posts,
     let '(st1, _, _) := loadPost env st posts in
     let '(st2, err) := savePosts env st1 (mkPosts sl) in
     err = None /\ file st2 = Some (MarshalIndent sl) /\ loads env st2 sl).
Proof.
  intros L. pose proof (loads_wf env st sl L) as W. split; [exact W|].
  intros Hw Hr posts. rewrite (loads_loadPost env st sl posts L).
  rewrite savePosts_ok by exact Hw. cbn [Posts_].
  split; [reflexivity|]. split; [reflexivity|].
  apply loads_iff. split; [exact Hr|]. now apply holds_MarshalIndent.
Qed.

(** A file written by hand: lower-case keys, a key the server does not
    know, an escape and no line breaks. *)
Definition text_by_hand : string :=
  "[{" ++ quoted "title" ++ ":" ++ quoted "café" ++ "," ++
  quoted "viewcount" ++ ":7," ++ quoted "tags" ++ ":[1,2]}]".

Lemma loaded_collection_witness :
  loads env0 (state_of (Some text_by_hand))
        (Some [Some (mkPost ("caf" ++ EncodeRune 0xE9) "" "" "" 7 "")]) /\
  wf_slice (Some [Some (mkPost ("caf" ++ EncodeRune 0xE9) "" "" "" 7 "")]) = true.
Proof.
  assert (L : loads env0 (state_of (Some text_by_hand))
                    (Some [Some (mkPost ("caf" ++ EncodeRune 0xE9) "" "" "" 7 "")]))
    by (eexists; vm_compute; reflexivity).
  split; [exact L|].
  exact (proj1 (loaded_collection_is_well_formed env0 _ _ L)).
Defined.

(** X5.  A file that loads no longer loads once it is cut anywhere
    before its last byte that is not white space: Load then fails with
    a FormatError that wraps a SyntaxError, and leaves the caller's
    collection as it was. *)
Theorem cut_file_does_not_load
        (env : Env) (st st0 : State) (sl : PostSlice) (p q : string) (posts : Posts) :
  holds st sl -> file st = Some (p ++ q) -> ~ all_space q ->
  file st0 = Some p -> read_fault env (reads st0) = None ->
  loadPost env st0 posts =
  (after_read st0, posts,
   Some (StatusError Internal ("failed to parse post data %v" ++ nl)
                     (JsonError SyntaxError))).
Proof.
  intros (data & F & U) Fp Nq F0 R. rewrite Fp in F. injection F as <-.
  pose proof (Unmarshal_cut p q sl U Nq) as C.
  unfold loadPost, ReadFile, after_read. now rewrite R, F0, C.
Qed.

Lemma cut_file_witness :
  holds st_A (Some [Some (post_A 3)]) /\
  file st_A = Some (take 100 (text_A "3") ++ drop 100 (text_A "3")) /\
  ~ all_space (drop 100 (text_A "3")) /\
  snd (loadPost env0 (state_of (Some (take 100 (text_A "3")))) (mkPosts (Some []))) =
  Some (StatusError Internal ("failed to parse post data %v" ++ nl)
                    (JsonError SyntaxError)).
Proof.
  assert (H : holds st_A (Some [Some (post_A 3)]))
    by (eexists; split; [reflexivity | vm_compute; reflexivity]).
  assert (F : file st_A = Some (take 100 (text_A "3") ++ drop 100 (text_A "3")))
    by (vm_compute; reflexivity).
  assert (Nq : ~ all_space (drop 100 (text_A "3")))
    by (vm_compute; intros [A _]; discriminate A).
  split; [exact H|]. split; [exact F|]. split; [exact Nq|].
  now rewrite (cut_file_does_not_load env0 st_A
                 (state_of (Some (take 100 (text_A "3")))) _ _ _
                 (mkPosts (Some [])) H F Nq eq_refl eq_refl).
Defined.

(** ** Sessions *)

(** X6.  A file that holds no collection (it is missing, or its bytes
    do not deserialize) is never created or repaired by the server:
    whatever requests follow and whatever the file system does, every
    one of them is answered with a status of code Internal, no write is
    attempted, and the file stays as it is. *)
Theorem unusable_store_is_never_repaired (env : Env) (st : State) (calls : list Call) :
  (forall sl, ~ holds st sl) ->
  file (fst (serve env st calls)) = file st /\
  writes (fst (serve env st calls)) = writes st /\
  List.length (snd (serve env st calls)) = List.length calls /\
  Forall failed (snd (serve env st calls)).
Proof. exact (serve_unusable env calls st). Qed.

Lemma unusable_store_witness :
  (forall sl, ~ holds st_missing sl) /\
  file (fst (serve env0 st_missing [CallCreatePost req_B; CallGetPosts])) = None /\
  Forall failed (snd (serve env0 st_missing [CallCreatePost req_B; CallGetPosts])).
Proof.
  assert (N : forall sl, ~ holds st_missing sl)
    by (intros sl (data & F & _); discriminate F).
  split; [exact N|].
  destruct (unusable_store_is_never_repaired
              env0 st_missing [CallCreatePost req_B; CallGetPosts] N) as (A & _ & _ & D).
  split; [exact A | exact D].
Defined.

(** X7.  In a session in which no read and no write fails, on a file
    that holds a collection without nil entry, and with requests whose
    strings are valid UTF-8, every request succeeds, and the file ends
    up holding a collection without nil entry that has one post more
    for each CreatePost of the session: no post is lost and none
    appears twice. *)
Theorem session_keeps_every_post
        (env : Env) (st : State) (sl : PostSlice) (calls : list Call) :
  fault_free env -> holds st sl -> no_nil sl -> forallb valid_call calls = true ->
  List.length (snd (serve env st calls)) = List.length calls /\
  Forall succeeded (snd (serve env st calls)) /\
  exists sl',
    holds (fst (serve env st calls)) sl' /\ no_nil sl' /\
    len sl' = (len sl + creates calls)%nat.
Proof.
  intros NF H N V.
  destruct (serve_replay env NF calls st sl H N V) as (sl' & H' & N' & R & Ln & Fs).
  split; [exact Ln|]. split; [exact Fs|]. exists sl'.
  split; [exact H'|]. split; [exact N'|].
  unfold len. now rewrite R, length_replay.
Qed.

Definition session_B : list Call :=
  [CallGetPosts; CallCreatePost req_B; CallGetPosts; CallGetPosts].

Lemma fault_free_env0 : fault_free env0.
Proof. intros k. split; reflexivity. Defined.

Lemma holds_st_A : holds st_A (Some [Some (post_A 3)]).
Proof. eexists; split; [reflexivity | vm_compute; reflexivity]. Defined.

Lemma no_nil_A : no_nil (Some [Some (post_A 3)]).
Proof. constructor; [discriminate | constructor]. Defined.

Lemma session_keeps_witness :
  fault_free env0 /\ holds st_A (Some [Some (post_A 3)]) /\
  no_nil (Some [Some (post_A 3)]) /\ forallb valid_call session_B = true /\
  List.length (snd (serve env0 st_A session_B)) = 4%nat /\
  exists sl', holds (fst (serve env0 st_A session_B)) sl' /\ len sl' = 2%nat.
Proof.
  split; [exact fault_free_env0|]. split; [exact holds_st_A|].
  split; [exact no_nil_A|]. split; [reflexivity|].
  destruct (session_keeps_every_post env0 st_A _ session_B
              fault_free_env0 holds_st_A no_nil_A eq_refl)
    as (Ln & _ & sl' & H & _ & Hl).
  split; [exact Ln|]. exists sl'. split; [exact H | exact Hl].
Defined.

(** X8.  The view counter counts the GetPosts calls: after such a
    session, a post that was stored at its start is still at its index,
    with its Title, Content, CreatedAt and Author, and its ViewCount is
    the stored one plus the number of GetPosts calls of the session in
    int64 arithmetic (exactly the sum when that fits an int64).
    CreatePost never changes a stored post: after a session without
    GetPosts the post is stored exactly as it was. *)
Theorem view_count_counts_the_GetPosts_calls
        (env : Env) (st : State) (sl : PostSlice) (calls : list Call) (i : nat) (p : Post) :
  fault_free env -> holds st sl -> no_nil sl -> forallb valid_call calls = true ->
  nth_error (elems sl) i = Some (Some p) ->
  exists sl' p',
    holds (fst (serve env st calls)) sl' /\
    nth_error (elems sl') i = Some (Some p') /\
    same_identity p p' /\
    ViewCount p' = int64_add (ViewCount p) (Z.of_nat (views calls)) /\
    ((ViewCount p + Z.of_nat (views calls) <= maxInt64)%Z ->
     ViewCount p' = (ViewCount p + Z.of_nat (views calls))%Z) /\
    (views calls = 0%nat -> p' = p).
Proof.
  intros NF H N V Hn.
  destruct (serve_replay env NF calls st sl H N V) as (sl' & H' & _ & R & _ & _).
  pose proof (loaded_in_int64 env st sl i p (holds_wf st sl H) Hn) as Hv.
  destruct (replay_old env calls (ticks st) (elems sl) i p Hn Hv)
    as (p' & H1 & H2 & H3 & H4).
  exists sl', p'. rewrite R.
  split; [exact H'|]. split; [exact H1|]. split; [exact H2|]. split; [exact H3|].
  split; [|exact H4].
  intros B. rewrite H3. apply int64_add_small; [exact Hv | lia | exact B].
Qed.

Lemma view_count_witness :
  fault_free env0 /\ holds st_A (Some [Some (post_A 3)]) /\
  no_nil (Some [Some (post_A 3)]) /\ forallb valid_call session_B = true /\
  nth_error (elems (Some [Some (post_A 3)])) 0 = Some (Some (post_A 3)) /\
  exists sl' p',
    holds (fst (serve env0 st_A session_B)) sl' /\
    nth_error (elems sl') 0 = Some (Some p') /\ ViewCount p' = 6%Z.
Proof.
  split; [exact fault_free_env0|]. split; [exact holds_st_A|].
  split; [exact no_nil_A|]. split; [reflexivity|]. split; [reflexivity|].
  destruct (view_count_counts_the_GetPosts_calls env0 st_A _ session_B 0 (post_A 3)
              fault_free_env0 holds_st_A no_nil_A eq_refl eq_refl)
    as (sl' & p' & H & Hn & _ & _ & Hv & _).
  exists sl', p'. split; [exact H|]. split; [exact Hn|].
  apply Hv. vm_compute. discriminate.
Defined.

(** X9.  Posts are stored in the order of their creation: in such a
    session, the post of a CreatePost request sits right after the
    posts stored at the start and those created before it; it has the
    Title, Content and Author of its request and the date of its
    creation, and its ViewCount is the number of GetPosts calls that
    came after its creation; when none came, its LastViewed is the
    date read at its creation. *)
Theorem created_post_keeps_its_place
        (env : Env) (st : State) (sl : PostSlice)
        (before : list Call) (req : option CreatePostRequest) (after : list Call) :
  fault_free env -> holds st sl -> no_nil sl ->
  forallb valid_call (before ++ CallCreatePost req :: after) = true ->
  exists sl' p,
    holds (fst (serve env st (before ++ CallCreatePost req :: after))) sl' /\
    nth_error (elems sl') (len sl + creates before) = Some (Some p) /\
    Title p = GetTitle req /\ Content p = GetContent req /\ Author p = GetAuthor req /\
    CreatedAt p = today env (ticks (fst (serve env st before))) /\
    ViewCount p = int64_add 0 (Z.of_nat (views after)) /\
    ((Z.of_nat (views after) <= maxInt64)%Z -> ViewCount p = Z.of_nat (views after)) /\
    (views after = 0%nat ->
     LastViewed p = today env (S (ticks (fst (serve env st before))))).
Proof.
  intros NF H N V. rewrite forallb_app in V. apply andb_true_iff in V as [V1 V2].
  destruct (serve_replay env NF before st sl H N V1) as (sl1 & H1 & N1 & R1 & _ & F1).
  rewrite (serve_app env before _ st F1). cbn [fst].
  set (st1 := fst (serve env st before)) in *.
  destruct (serve_replay env NF _ st1 sl1 H1 N1 V2) as (sl2 & H2 & _ & R2 & _ & _).
  cbn [replay] in R2.
  set (np := new_post env (ticks st1) req) in *.
  assert (Hn : nth_error (elems sl1 ++ [Some np]) (List.length (elems sl1))
               = Some (Some np)).
  { rewrite nth_error_app2 by lia. now rewrite Nat.sub_diag. }
  destruct (replay_old env after (S (S (ticks st1))) _ _ np Hn eq_refl)
    as (p & P1 & (I1 & I2 & I3 & I4) & P3 & P4).
  exists sl2, p. rewrite R2.
  assert (Ei : (len sl + creates before)%nat = List.length (elems sl1))
    by (rewrite R1, length_replay; reflexivity).
  rewrite Ei. split; [exact H2|]. split; [exact P1|].
  split; [exact I1|]. split; [exact I2|]. split; [exact I4|]. split; [exact I3|].
  split; [exact P3|]. split.
  - intros B. rewrite P3. apply int64_add_small; [reflexivity | lia | exact B].
  - intros Z0. now rewrite (P4 Z0).
Qed.

Lemma created_post_witness :
  fault_free env0 /\ holds st_A (Some [Some (post_A 3)]) /\
  no_nil (Some [Some (post_A 3)]) /\ forallb valid_call session_B = true /\
  exists sl' p,
    holds (fst (serve env0 st_A session_B)) sl' /\
    nth_error (elems sl') 1 = Some (Some p) /\
    Title p = "B" /\ ViewCount p = 2%Z.
Proof.
  split; [exact fault_free_env0|]. split; [exact holds_st_A|].
  split; [exact no_nil_A|]. split; [reflexivity|].
  destruct (created_post_keeps_its_place env0 st_A _ [CallGetPosts] req_B
              [CallGetPosts; CallGetPosts]
              fault_free_env0 holds_st_A no_nil_A eq_refl)
    as (sl' & p & H & Hn & Ht & _ & _ & _ & _ & Hv & _).
  exists sl', p. split; [exact H|]. split; [exact Hn|]. split; [exact Ht|].
  apply Hv. vm_compute. discriminate.
Defined.

(** X10.  A nil entry is never removed: on a file that holds a
    collection with a nil entry, and with no read or write failing,
    every CreatePost succeeds and keeps the entry, and the first
    GetPosts panics, which ends the process: the requests after it get
    no reply. *)
Theorem nil_entry_is_never_removed
        (env : Env) (st : State) (sl : PostSlice) (before rest : list Call) :
  fault_free env -> holds st sl -> ~ no_nil sl ->
  forallb valid_call before = true -> views before = 0%nat ->
  exists rs,
    snd (serve env st (before ++ CallGetPosts :: rest))
    = (rs ++ [PostsReply (Panics "invalid memory address or nil pointer dereference")])%list /\
    List.length rs = List.length before /\ Forall succeeded rs.
Proof.
  intros NF H N V G. exact (serve_poisoned env NF before rest st sl H N V G).
Qed.

Lemma nil_entry_witness :
  fault_free env0 /\ holds st_A_null (Some [Some post_title_A; None]) /\
  ~ no_nil (Some [Some post_title_A; None]) /\
  exists rs,
    snd (serve env0 st_A_null
               ([CallCreatePost req_B] ++ CallGetPosts :: [CallCreatePost req_B]))
    = (rs ++ [PostsReply (Panics "invalid memory address or nil pointer dereference")])%list /\
    List.length rs = 1%nat.
Proof.
  assert (H : holds st_A_null (Some [Some post_title_A; None]))
    by (eexists; split; [reflexivity | vm_compute; reflexivity]).
  assert (N : ~ no_nil (Some [Some post_title_A; None]))
    by (intros N; apply Forall_inv_tail, Forall_inv in N; congruence).
  split; [exact fault_free_env0|]. split; [exact H|]. split; [exact N|].
  destruct (nil_entry_is_never_removed env0 st_A_null _ [CallCreatePost req_B]
              [CallCreatePost req_B] fault_free_env0 H N eq_refl eq_refl)
    as (rs & E & Ln & _).
  exists rs. split; [exact E | exact Ln].
Defined.

(** X11.  A write cut short is not mistaken for a collection: when the
    Save of a request stops after fewer bytes than the text it writes,
    the request is answered with a status of code Internal, the bytes
    left in the file do not deserialize, and from then on every request
    is answered with a status of code Internal and the file stays as
    the cut write left it. *)
Theorem short_write_makes_the_store_unusable
        (env : Env) (st : State) (sl : PostSlice) (c : Call) (e : Errno) (n : nat)
        (calls : list Call) :
  loads env st sl -> (is_GetPosts c = true -> no_nil sl) -> valid_call c = true ->
  write_fault env (writes st) = Some (WWrite e n) ->
  (n < String.length (written env st sl c))%nat ->
  failed (snd (handle env st c)) /\
  file (fst (handle env st c)) = Some (take n (written env st sl c)) /\
  Unmarshal (take n (written env st sl c)) = inl SyntaxError /\
  Forall failed (snd (serve env (fst (handle env st c)) calls)) /\
  List.length (snd (serve env (fst (handle env st c)) calls)) = List.length calls /\
  file (fst (serve env (fst (handle env st c)) calls))
  = Some (take n (written env st sl c)).
Proof.
  intros L N V W Hn.
  destruct (handle_short_write env st sl c e n L N W) as (F & Hf).
  destruct (wf_written env st sl c L V) as (sl' & E & Wf).
  assert (U : Unmarshal (take n (written env st sl c)) = inl SyntaxError)
    by (rewrite E in Hn |- *; now apply Unmarshal_truncated).
  split; [exact F|]. split; [exact Hf|]. split; [exact U|].
  destruct (serve_unusable env calls (fst (handle env st c))) as (A & _ & C & D).
  { intros x (data & Fd & Ud). rewrite Hf in Fd. injection Fd as <-. congruence. }
  split; [exact D|]. split; [exact C|]. now rewrite A.
Qed.

(** The disk fills up after 40 bytes of every write. *)
Definition env_cut : Env :=
  mkEnv (fun _ => Time.mkTime 2026 11 2) (fun _ => None)
        (fun _ => Some (WWrite ENOSPC 40)).

Lemma short_write_witness :
  loads env_cut st_A (Some [Some (post_A 3)]) /\
  write_fault env_cut (writes st_A) = Some (WWrite ENOSPC 40) /\
  (40 < String.length (written env_cut st_A (Some [Some (post_A 3)])
                               (CallCreatePost req_B)))%nat /\
  failed (snd (handle env_cut st_A (CallCreatePost req_B))) /\
  Forall failed (snd (serve env_cut (fst (handle env_cut st_A (CallCreatePost req_B)))
                            [CallGetPosts; CallCreatePost req_B])).
Proof.
  assert (L : loads env_cut st_A (Some [Some (post_A 3)]))
    by (eexists; vm_compute; reflexivity).
  assert (Hn : (40 < String.length (written env_cut st_A (Some [Some (post_A 3)])
                                            (CallCreatePost req_B)))%nat)
    by (vm_compute; lia).
  destruct (short_write_makes_the_store_unusable env_cut st_A _ (CallCreatePost req_B)
              ENOSPC 40 [CallGetPosts; CallCreatePost req_B] L
              (fun x => False_ind _ (Bool.diff_false_true x)) eq_refl eq_refl Hn)
    as (F & _ & _ & D & _).
  split; [exact L|]. split; [reflexivity|]. split; [exact Hn|].
  split; [exact F | exact D].
Defined.

(** ** Dates *)

(** X12.  The date stamped on a post, for a calendar date with a year
    from 0 to 9999, is ten bytes: the year on four digits, a dash, the
    month on two digits, a dash, the day on two digits, each padded
    with zeros; and two different calendar dates are stamped
    differently. *)
Theorem stamped_date_layout (t : Time.t) :
  calendar t ->
  Time.Format t =
  pad4 (Time.Year t) ++ "-" ++ pad2 (Time.Month t) ++ "-" ++ pad2 (Time.Day t) /\
  String.length (Time.Format t) = 10%nat /\
  forall t', calendar t' -> Time.Format t' = Time.Format t -> t' = t.
Proof.
  intros C. split; [exact (Format_pad t C)|]. split.
  - now rewrite (Format_pad t C).
  - intros t' C' E. exact (Format_inj t' t C' C E).
Qed.

Lemma stamped_date_witness :
  calendar (Time.mkTime 987 3 9) /\ Time.Format (Time.mkTime 987 3 9) = "0987-03-09".
Proof.
  assert (C : calendar (Time.mkTime 987 3 9)) by (vm_compute; intuition discriminate).
  split; [exact C|].
  rewrite (proj1 (stamped_date_layout _ C)). reflexivity.
Defined.

(** ** Edges of the file format *)

(** X13.  A field that the object of a post does not mention, or
    mentions only with the value null, is read as the zero value of its
    type: the empty string, or 0 for ViewCount. *)
Theorem absent_field_reads_as_zero
        (data : string) (vs : list jvalue) (sl : PostSlice) (i : nat)
        (ms : list (string * jvalue)) (f : field) :
  parse_json data = Some (JArray vs) -> Unmarshal data = inr sl ->
  nth_error vs i = Some (JObject ms) ->
  (forall k v, In (k, v) ms -> find_field k = Some f -> v = JNull) ->
  exists p,
    nth_error (elems sl) i = Some (Some p) /\ get_field f p = get_field f zero_post.
Proof.
  unfold Unmarshal. intros P U Hn A. rewrite P in U. cbn [decode_slice] in U.
  destruct (decode_elems vs) as [es|] eqn:E; [|discriminate].
  cbn in U. injection U as <-.
  destruct (decode_elems_nth vs es i _ E Hn) as (e & He & De).
  cbn [decode_elem] in De.
  destruct (decode_object ms zero_post) as [p|] eqn:Do; [|discriminate].
  cbn in De. injection De as <-.
  exists p. split; [exact He|]. exact (decode_object_absent ms f zero_post p Do A).
Qed.

Definition text_title_only : string :=
  "[{" ++ quoted "Title" ++ ":" ++ quoted "A" ++ "," ++ quoted "Author" ++ ":null}]".

Lemma absent_field_witness :
  Unmarshal text_title_only = inr (Some [Some post_title_A]) /\
  exists p,
    nth_error (elems (Some [Some post_title_A])) 0 = Some (Some p) /\
    get_field FAuthor p = inl "".
Proof.
  assert (U : Unmarshal text_title_only = inr (Some [Some post_title_A]))
    by (vm_compute; reflexivity).
  split; [exact U|].
  apply (absent_field_reads_as_zero text_title_only
           [JObject [("Title", JString "A"); ("Author", JNull)]] _ 0
           [("Title", JString "A"); ("Author", JNull)] FAuthor).
  - vm_compute. reflexivity.
  - exact U.
  - reflexivity.
  - intros k v [E|[E|[]]]; injection E as <- <-; intros F;
      [vm_compute in F; discriminate F | reflexivity].
Defined.

(** X14.  A file that is empty or holds white space only is a
    FormatError, not an empty collection: Load fails with a status
    that wraps a SyntaxError, and the file holds no collection. *)
Theorem blank_file_is_a_format_error
        (env : Env) (st : State) (data : string) (posts : Posts) :
  file st = Some data -> all_space data -> read_fault env (reads st) = None ->
  loadPost env st posts =
  (after_read st, posts,
   Some (StatusError Internal ("failed to parse post data %v" ++ nl)
                     (JsonError SyntaxError))) /\
  forall sl, ~ holds st sl.
Proof.
  intros F A R.
  assert (U : Unmarshal data = inl SyntaxError)
    by (unfold Unmarshal; now rewrite (parse_json_blank data A)).
  split.
  - unfold loadPost, ReadFile, after_read. now rewrite R, F, U.
  - intros sl (d & Fd & Ud). congruence.
Qed.

Lemma blank_file_witness :
  all_space (" " ++ nl) /\
  snd (loadPost env0 (state_of (Some (" " ++ nl))) (mkPosts (Some []))) =
  Some (StatusError Internal ("failed to parse post data %v" ++ nl)
                    (JsonError SyntaxError)).
Proof.
  assert (A : all_space (" " ++ nl)) by (repeat split).
  split; [exact A|].
  now rewrite (proj1 (blank_file_is_a_format_error env0 (state_of (Some (" " ++ nl)))
                        _ (mkPosts (Some [])) eq_refl A eq_refl)).
Defined.

(** X15.  A view count outside the int64 range is rejected, not
    wrapped or truncated: a file in which some post's ViewCount is the
    decimal form of an integer below -2^63 or above 2^63-1 fails to
    deserialize with an UnmarshalTypeError, whatever else it holds. *)
Theorem count_outside_int64_is_rejected
        (data : string) (vs : list jvalue) (ms : list (string * jvalue))
        (k : string) (z : Z) :
  parse_json data = Some (JArray vs) -> In (JObject ms) vs ->
  In (k, JNumber (FormatInt z)) ms -> find_field k = Some FViewCount ->
  in_int64 z = false ->
  Unmarshal data = inl UnmarshalTypeError.
Proof.
  intros P Iv Im Fk R. unfold Unmarshal. rewrite P. cbn [decode_slice].
  rewrite (decode_elems_bad vs (JObject ms) Iv); [reflexivity|].
  cbn [decode_elem].
  rewrite (decode_object_bad ms k _ FViewCount zero_post Im Fk); [reflexivity|].
  intros q. cbn [set_field]. now rewrite ParseInt_range, R.
Qed.

Definition text_count_too_large : string :=
  "[{" ++ quoted "ViewCount" ++ ":9223372036854775808}]".

Lemma count_outside_int64_witness :
  in_int64 (2 ^ 63) = false /\
  Unmarshal text_count_too_large = inl UnmarshalTypeError.
Proof.
  split; [reflexivity|].
  apply (count_outside_int64_is_rejected text_count_too_large
           [JObject [("ViewCount", JNumber (FormatInt (2 ^ 63)))]]
           [("ViewCount", JNumber (FormatInt (2 ^ 63)))] "ViewCount" (2 ^ 63)).
  - vm_compute. reflexivity.
  - left. reflexivity.
  - left. reflexivity.
  - reflexivity.
  - reflexivity.
Defined.

End Further.
